(** * batch-image-tool: the image workers and the filename utilities

    A shallow embedding of
    - [src/workers/image.worker.ts]          (module [ImageWorker]),
    - [src/workers/imageProcessor.worker.ts] (modules [ImageProcessorWorker]
      and [FloodFill]),
    - [src/utils/filenameUtils.ts]           (module [FilenameUtils]),
    with the fit geometry and the rounded-corner paths of the two workers side
    by side (modules [Geometry] and [CornerPath]).  The user interface
    ([UploadDropzone.tsx], module [UploadDropzone]) starts [image.worker.ts].

    Conventions.
    - A JavaScript number that holds a pixel count, an index, a time or a
      byte is a [Z].  Aspect ratios and rectangle edges are quotients of pixel
      counts; in the workers' traces they are exact rationals [Q] compared
      with [==].  Doubles compute the same wherever the quotients are
      representable, which is so at every input evaluated below.  A quotient
      by zero (NaN or an infinity in JavaScript) is 0 in [Q]; no statement
      below rests on its value.
    - The fit geometry is given a second time in IEEE doubles, as JavaScript
      computes it, on Rocq's primitive floats (module [DoubleGeometry]); the
      progress shown by the component is in doubles too.  What is stated of
      the fit for all sizes and of the progress for all counts is stated
      there.  [=] on doubles tells +0 from -0 and knows one NaN.
    - A JavaScript string is the list of its characters, [list ascii].  The
      characters the code looks for (the dot, the hyphen, the space, the
      reserved characters, the braces of the template variables, the dollar)
      are ASCII; any other character is copied as it is.
    - A typed array ([Uint8Array], [Uint8ClampedArray]) is a [list Z] read and
      written through [FloodFill.get] and [FloodFill.set]: a read out of
      range is [undefined], a write out of range is dropped.
    - What a worker awaits from its surroundings (decoding, encoding, the
      external background removal, the clock) is a record of answers,
      [Host.Answers]; every call is answered, by a value or by a rejection.
      What the worker does is the list of its effects, in order. *)

From Stdlib Require Import ZArith QArith Lqa Lia List String Ascii.
From Stdlib Require Import DecimalString DecimalPos DecimalZ.
From Stdlib Require PrimFloat Uint63.
From stdpp Require Import base list gmap strings.

(** ** Fit geometry *)

Module Geometry.
Local Open Scope Q_scope.

(** [type FitOption = 'contain' | 'cover' | 'crop'] *)
Inductive FitOption := contain | cover | crop.

(** [a > b] on numbers. *)
Definition Qgtb (a b : Q) : bool := negb (Qle_bool a b).
(** [a < b] on numbers. *)
Definition Qltb (a b : Q) : bool := negb (Qle_bool b a).

(** The object returned by [calculateDrawDimensions], which is also the
    argument list of the nine-argument [ctx.drawImage]. *)
Record DrawDimensions := mkDraw {
  sx : Q; sy : Q; sWidth : Q; sHeight : Q;
  dx : Q; dy : Q; dWidth : Q; dHeight : Q
}.

(** image.worker.ts, [calculateDrawDimensions]. *)
Definition calculateDrawDimensions
    (imgWidth imgHeight canvasWidth canvasHeight : Q) (fit : FitOption)
    : DrawDimensions :=
  let imgAspect := imgWidth / imgHeight in
  let canvasAspect := canvasWidth / canvasHeight in
  match fit with
  | cover | crop =>
      if Qgtb imgAspect canvasAspect then
        let sWidth' := imgHeight * canvasAspect in
        mkDraw ((imgWidth - sWidth') / 2) 0 sWidth' imgHeight
               0 0 canvasWidth canvasHeight
      else
        let sHeight' := imgWidth / canvasAspect in
        mkDraw 0 ((imgHeight - sHeight') / 2) imgWidth sHeight'
               0 0 canvasWidth canvasHeight
  | contain =>
      if Qgtb imgAspect canvasAspect then
        let dHeight' := canvasWidth / imgAspect in
        mkDraw 0 0 imgWidth imgHeight
               0 ((canvasHeight - dHeight') / 2) canvasWidth dHeight'
      else
        let dWidth' := canvasHeight * imgAspect in
        mkDraw 0 0 imgWidth imgHeight
               ((canvasWidth - dWidth') / 2) 0 dWidth' canvasHeight
  end.

(** imageProcessor.worker.ts, the [switch (resize.fit)] of [onmessage]
    ("1. Resize & Fit").  Each case ends in its own [ctx.drawImage] call; the
    value returned here is the source and destination rectangle of that call
    (the five-argument form of the [contain] case draws the whole bitmap). *)
Definition resizeAndFit
    (bitmapWidth bitmapHeight canvasWidth canvasHeight : Q) (fit : FitOption)
    : DrawDimensions :=
  let imgAspectRatio := bitmapWidth / bitmapHeight in
  let canvasAspectRatio := canvasWidth / canvasHeight in
  match fit with
  | contain =>
      if Qgtb imgAspectRatio canvasAspectRatio then
        let destHeight := canvasWidth / imgAspectRatio in
        mkDraw 0 0 bitmapWidth bitmapHeight
               0 ((canvasHeight - destHeight) / 2) canvasWidth destHeight
      else
        let destWidth := canvasHeight * imgAspectRatio in
        mkDraw 0 0 bitmapWidth bitmapHeight
               ((canvasWidth - destWidth) / 2) 0 destWidth canvasHeight
  | cover =>
      if Qltb imgAspectRatio canvasAspectRatio then
        let sourceWidth := bitmapHeight * canvasAspectRatio in
        mkDraw ((bitmapWidth - sourceWidth) / 2) 0 sourceWidth bitmapHeight
               0 0 canvasWidth canvasHeight
      else
        let sourceHeight := bitmapWidth / canvasAspectRatio in
        mkDraw 0 ((bitmapHeight - sourceHeight) / 2) bitmapWidth sourceHeight
               0 0 canvasWidth canvasHeight
  | crop =>
      if Qgtb imgAspectRatio canvasAspectRatio then
        let sourceWidth := bitmapHeight * canvasAspectRatio in
        mkDraw ((bitmapWidth - sourceWidth) / 2) 0 sourceWidth bitmapHeight
               0 0 canvasWidth canvasHeight
      else
        let sourceHeight := bitmapWidth / canvasAspectRatio in
        mkDraw 0 ((bitmapHeight - sourceHeight) / 2) bitmapWidth sourceHeight
               0 0 canvasWidth canvasHeight
  end.

(** The destination rectangle is the whole canvas. *)
Definition dst_is_canvas (canvasWidth canvasHeight : Q) (d : DrawDimensions) : Prop :=
  dx d == 0 /\ dy d == 0 /\ dWidth d == canvasWidth /\ dHeight d == canvasHeight.

(** The source rectangle lies inside the image: origin not negative, sides
    not negative, far edges inside, and so its area is at most the image's. *)
Definition src_in_image (imgWidth imgHeight : Q) (d : DrawDimensions) : Prop :=
  0 <= sx d /\ 0 <= sy d /\ 0 <= sWidth d /\ 0 <= sHeight d /\
  sx d + sWidth d <= imgWidth /\ sy d + sHeight d <= imgHeight /\
  sWidth d * sHeight d <= imgWidth * imgHeight.

(** Two draw calls with the same rectangles. *)
Definition same_geometry (a b : DrawDimensions) : Prop :=
  sx a == sx b /\ sy a == sy b /\ sWidth a == sWidth b /\ sHeight a == sHeight b /\
  dx a == dx b /\ dy a == dy b /\ dWidth a == dWidth b /\ dHeight a == dHeight b.

End Geometry.

(** ** Fit geometry in doubles *)

Module DoubleGeometry.
Import Geometry.
Import PrimFloat.
Local Open Scope float_scope.

(** The number an integer is in JavaScript (exact below 2^53). *)
Definition number (n : Z) : float := of_uint63 (Uint63.of_Z n).

(** The object returned by [calculateDrawDimensions]. *)
Record DrawDimensions := mkDraw {
  sx : float; sy : float; sWidth : float; sHeight : float;
  dx : float; dy : float; dWidth : float; dHeight : float
}.

(** image.worker.ts, [calculateDrawDimensions]; [a > b] is [b <? a], false
    when one of them is NaN. *)
Definition calculateDrawDimensions
    (imgWidth imgHeight canvasWidth canvasHeight : float) (fit : FitOption)
    : DrawDimensions :=
  let imgAspect := imgWidth / imgHeight in
  let canvasAspect := canvasWidth / canvasHeight in
  match fit with
  | cover | crop =>
      if canvasAspect <? imgAspect then
        let sWidth' := imgHeight * canvasAspect in
        mkDraw ((imgWidth - sWidth') / 2) 0 sWidth' imgHeight
               0 0 canvasWidth canvasHeight
      else
        let sHeight' := imgWidth / canvasAspect in
        mkDraw 0 ((imgHeight - sHeight') / 2) imgWidth sHeight'
               0 0 canvasWidth canvasHeight
  | contain =>
      if canvasAspect <? imgAspect then
        let dHeight' := canvasWidth / imgAspect in
        mkDraw 0 0 imgWidth imgHeight
               0 ((canvasHeight - dHeight') / 2) canvasWidth dHeight'
      else
        let dWidth' := canvasHeight * imgAspect in
        mkDraw 0 0 imgWidth imgHeight
               ((canvasWidth - dWidth') / 2) 0 dWidth' canvasHeight
  end.

(** imageProcessor.worker.ts, the [switch (resize.fit)] of [onmessage]
    ("1. Resize & Fit"): the source and destination rectangle of the
    [ctx.drawImage] call each case ends in (the five-argument form of the
    [contain] case draws the whole bitmap). *)
Definition resizeAndFit
    (bitmapWidth bitmapHeight canvasWidth canvasHeight : float) (fit : FitOption)
    : DrawDimensions :=
  let imgAspectRatio := bitmapWidth / bitmapHeight in
  let canvasAspectRatio := canvasWidth / canvasHeight in
  match fit with
  | contain =>
      if canvasAspectRatio <? imgAspectRatio then
        let destHeight := canvasWidth / imgAspectRatio in
        mkDraw 0 0 bitmapWidth bitmapHeight
               0 ((canvasHeight - destHeight) / 2) canvasWidth destHeight
      else
        let destWidth := canvasHeight * imgAspectRatio in
        mkDraw 0 0 bitmapWidth bitmapHeight
               ((canvasWidth - destWidth) / 2) 0 destWidth canvasHeight
  | cover =>
      if imgAspectRatio <? canvasAspectRatio then
        let sourceWidth := bitmapHeight * canvasAspectRatio in
        mkDraw ((bitmapWidth - sourceWidth) / 2) 0 sourceWidth bitmapHeight
               0 0 canvasWidth canvasHeight
      else
        let sourceHeight := bitmapWidth / canvasAspectRatio in
        mkDraw 0 ((bitmapHeight - sourceHeight) / 2) bitmapWidth sourceHeight
               0 0 canvasWidth canvasHeight
  | crop =>
      if canvasAspectRatio <? imgAspectRatio then
        let sourceWidth := bitmapHeight * canvasAspectRatio in
        mkDraw ((bitmapWidth - sourceWidth) / 2) 0 sourceWidth bitmapHeight
               0 0 canvasWidth canvasHeight
      else
        let sourceHeight := bitmapWidth / canvasAspectRatio in
        mkDraw 0 ((bitmapHeight - sourceHeight) / 2) bitmapWidth sourceHeight
               0 0 canvasWidth canvasHeight
  end.

(** The destination is as wide as the canvas and centred in its height, or
    as high as the canvas and centred in its width; the margin is the one the
    code computes. *)
Definition letterboxed (canvasWidth canvasHeight : float) (d : DrawDimensions) : Prop :=
  (dx d = 0 /\ dWidth d = canvasWidth /\ dy d = (canvasHeight - dHeight d) / 2) \/
  (dy d = 0 /\ dHeight d = canvasHeight /\ dx d = (canvasWidth - dWidth d) / 2).

(** The source is as high as the image and centred in its width, or as wide
    as the image and centred in its height; the margin is the one the code
    computes. *)
Definition cut_to_fill (imgWidth imgHeight : float) (d : DrawDimensions) : Prop :=
  (sy d = 0 /\ sHeight d = imgHeight /\ sx d = (imgWidth - sWidth d) / 2) \/
  (sx d = 0 /\ sWidth d = imgWidth /\ sy d = (imgHeight - sHeight d) / 2).

(** The source rectangle is the whole image. *)
Definition src_is_image (imgWidth imgHeight : float) (d : DrawDimensions) : Prop :=
  sx d = 0 /\ sy d = 0 /\ sWidth d = imgWidth /\ sHeight d = imgHeight.

(** The destination rectangle is the whole canvas. *)
Definition dst_is_canvas (canvasWidth canvasHeight : float) (d : DrawDimensions) : Prop :=
  dx d = 0 /\ dy d = 0 /\ dWidth d = canvasWidth /\ dHeight d = canvasHeight.

End DoubleGeometry.

(** ** Rounded corners *)

Module CornerPath.
Import Geometry.
Local Open Scope Q_scope.

(** The calls made on a 2D context that build and use a path. *)
Inductive PathCmd :=
| beginPath
| moveTo (x y : Q)
| lineTo (x y : Q)
| quadraticCurveTo (cpx cpy x y : Q)
| arcTo (x1 y1 x2 y2 radius : Q)
| closePath.

(** [Math.min] of two numbers. *)
Definition Math_min (a b : Q) : Q := if Qle_bool a b then a else b.

(** image.worker.ts, [drawRoundedRectPath]: the calls it makes on [ctx]. *)
Definition drawRoundedRectPath (width height radius : Q) : list PathCmd :=
  let radius := Math_min (Math_min radius (width / 2)) (height / 2) in
  [ beginPath;
    moveTo radius 0;
    lineTo (width - radius) 0;
    quadraticCurveTo width 0 width radius;
    lineTo width (height - radius);
    quadraticCurveTo width height (width - radius) height;
    lineTo radius height;
    quadraticCurveTo 0 height 0 (height - radius);
    lineTo 0 radius;
    quadraticCurveTo 0 0 radius 0;
    closePath ].

(** imageProcessor.worker.ts, "3. Rounded Corners": the path built inline in
    [onmessage] between [ctx.beginPath()] and [ctx.closePath()]. *)
Definition roundedCornersPath (canvasWidth canvasHeight borderRadius : Q) : list PathCmd :=
  [ beginPath;
    moveTo 0 borderRadius;
    arcTo 0 0 borderRadius 0 borderRadius;
    lineTo (canvasWidth - borderRadius) 0;
    arcTo canvasWidth 0 canvasWidth borderRadius borderRadius;
    lineTo canvasWidth (canvasHeight - borderRadius);
    arcTo canvasWidth canvasHeight (canvasWidth - borderRadius) canvasHeight borderRadius;
    lineTo borderRadius canvasHeight;
    arcTo 0 canvasHeight 0 (canvasHeight - borderRadius) borderRadius;
    closePath ].

(** Two calls of the same kind with equal arguments. *)
Definition same_cmd (a b : PathCmd) : Prop :=
  match a, b with
  | beginPath, beginPath => True
  | moveTo x y, moveTo x' y' => x == x' /\ y == y'
  | lineTo x y, lineTo x' y' => x == x' /\ y == y'
  | quadraticCurveTo c d x y, quadraticCurveTo c' d' x' y' =>
      c == c' /\ d == d' /\ x == x' /\ y == y'
  | arcTo a1 b1 a2 b2 r, arcTo a1' b1' a2' b2' r' =>
      a1 == a1' /\ b1 == b1' /\ a2 == a2' /\ b2 == b2' /\ r == r'
  | closePath, closePath => True
  | _, _ => False
  end.

(** Two paths made of the same calls: the canvas rasterises them to the same
    mask. *)
Definition same_path (p q : list PathCmd) : Prop := Forall2 same_cmd p q.

(** The radius [drawRoundedRectPath] works with. *)
Definition clamped (width height radius : Q) : Q :=
  Math_min (Math_min radius (width / 2)) (height / 2).

(** [min(w,h)/2], the largest radius the spec lets a corner have. *)
Definition max_radius (width height : Q) : Q := Math_min width height / 2.

End CornerPath.

(** ** JavaScript strings *)

Module JSString.
Local Open Scope Z_scope.

(** A string is the list of its characters. *)
Abbreviation jsstring := (list ascii).

(** A string literal. *)
Definition js (s : string) : jsstring := list_ascii_of_string s.

(** [n.toString()] for an integer [n] (decimal digits, a leading '-' when
    negative; JavaScript prints integers this way below 10^21). *)
Definition toString (n : Z) : jsstring := js (NilZero.string_of_int (Z.to_int n)).

(** [s.startsWith(p)] *)
Fixpoint startsWith (p s : jsstring) : bool :=
  match p, s with
  | [], _ => true
  | _ :: _, [] => false
  | a :: p', b :: s' => Ascii.eqb a b && startsWith p' s'
  end.

(** [s.endsWith(p)] *)
Definition endsWith (p s : jsstring) : bool := startsWith (rev p) (rev s).

(** [s.lastIndexOf(c)] for a one-character [c]: scan from index [i], with
    [last] the last index found so far ([-1] when there is none). *)
Fixpoint lastIndexOf_from (c : ascii) (i last : Z) (s : jsstring) : Z :=
  match s with
  | [] => last
  | x :: t => lastIndexOf_from c (i + 1) (if Ascii.eqb x c then i else last) t
  end.

Definition lastIndexOf (c : ascii) (s : jsstring) : Z := lastIndexOf_from c 0 (-1) s.

(** [s.substring(start, end)]: both indices are clamped to the string and
    swapped when out of order. *)
Definition substring (s : jsstring) (start end_ : Z) : jsstring :=
  let len := Z.of_nat (length s) in
  let a := Z.max 0 (Z.min start len) in
  let b := Z.max 0 (Z.min end_ len) in
  take (Z.to_nat (Z.max a b - Z.min a b)) (drop (Z.to_nat (Z.min a b)) s).

(** [s.substring(start)] *)
Definition substring_from (s : jsstring) (start : Z) : jsstring :=
  substring s start (Z.of_nat (length s)).

(** [s.split(c)] for a one-character separator. *)
Fixpoint split (c : ascii) (s : jsstring) : list jsstring :=
  match s with
  | [] => [[]]
  | x :: t =>
      if Ascii.eqb x c then [] :: split c t
      else match split c t with
           | h :: r => (x :: h) :: r
           | [] => [[x]]
           end
  end.

(** [parts.slice(0, -1)] *)
Definition slice_0_m1 {A} (parts : list A) : list A := removelast parts.

(** [parts.join(c)] for a one-character separator. *)
Fixpoint join (c : ascii) (parts : list jsstring) : jsstring :=
  match parts with
  | [] => []
  | [p] => p
  | p :: rest => p ++ c :: join c rest
  end.

(** The replacement text of [String.prototype.replace] for one match of a
    pattern without capture groups: [$$] is a dollar, [$&] the match, [$`]
    the text before it, [$'] the text after it; anything else is literal. *)
Fixpoint getSubstitution (replacement matched before after : jsstring) : jsstring :=
  match replacement with
  | [] => []
  | c :: r =>
      if Ascii.eqb c "$" then
        match r with
        | d :: r' =>
            if Ascii.eqb d "$" then "$"%char :: getSubstitution r' matched before after
            else if Ascii.eqb d "&" then matched ++ getSubstitution r' matched before after
            else if Ascii.eqb d "`" then before ++ getSubstitution r' matched before after
            else if Ascii.eqb d "'" then after ++ getSubstitution r' matched before after
            else c :: getSubstitution r matched before after
        | [] => [c]
        end
      else c :: getSubstitution r matched before after
  end.

(** [s.replace(/pattern/g, replacement)] for a pattern that is literal text,
    not empty: matches are found from left to right and do not overlap.
    [skip] counts the characters of the current match still to pass over and
    [before] is the text of [s] already passed. *)
Fixpoint replace_from (pattern replacement : jsstring) (skip : nat)
    (before s : jsstring) : jsstring :=
  match s with
  | [] => []
  | c :: t =>
      match skip with
      | S k => replace_from pattern replacement k (before ++ [c]) t
      | O =>
          if startsWith pattern s then
            getSubstitution replacement pattern before (drop (length pattern) s)
              ++ replace_from pattern replacement (length pattern - 1) (before ++ [c]) t
          else c :: replace_from pattern replacement 0 (before ++ [c]) t
      end
  end.

Definition replace_all (pattern replacement s : jsstring) : jsstring :=
  replace_from pattern replacement 0 [] s.

End JSString.

(** ** src/utils/filenameUtils.ts *)

Module FilenameUtils.
Import JSString.
Local Open Scope Z_scope.

(** [type ImageFormat = 'jpeg' | 'png' | 'webp'] *)
Inductive ImageFormat := jpeg | png | webp.

Definition format_string (f : ImageFormat) : jsstring :=
  match f with jpeg => js "jpeg" | png => js "png" | webp => js "webp" end.

(** [interface ImageMetadata] *)
Record ImageMetadata := {
  originalName : jsstring;
  outputWidth : Z;
  outputHeight : Z;
  outputFormat : ImageFormat;
  presetName : option jsstring;   (* string | null *)
  timestamp : Z;
  index : Z
}.

(** [gcd(a, b)]: [b === 0 ? a : gcd(b, a % b)].  [%] is the remainder that
    takes the sign of the dividend, [Z.rem]; since [|a % b| < |b|] the
    recursion is at most [|b| + 1] calls deep, which is the fuel given. *)
Fixpoint gcd_fuel (fuel : nat) (a b : Z) : Z :=
  if b =? 0 then a
  else match fuel with
       | S f => gcd_fuel f b (Z.rem a b)
       | O => a
       end.

Definition gcd (a b : Z) : Z := gcd_fuel (S (Z.abs_nat b)) a b.

(** The characters of the first class of [sanitizeFilename]: slash,
    backslash, question mark, percent, star, colon, bar, double quote, less
    than, greater than. *)
Definition is_invalid (c : ascii) : bool :=
  existsb (Ascii.eqb c)
    ["/"; "\"; "?"; "%"; "*"; ":"; "|"; ascii_of_nat 34; "<"; ">"]%char.

Definition is_hyphen (c : ascii) : bool := Ascii.eqb c "-".

(** The characters of the class [[ -]]: a space or a hyphen. *)
Definition is_trim (c : ascii) : bool := Ascii.eqb c " " || Ascii.eqb c "-".

(** The first [replace] of [sanitizeFilename]: each such character becomes a
    hyphen. *)
Definition replace_invalid (s : jsstring) : jsstring :=
  map (fun c => if is_invalid c then "-"%char else c) s.

(** [.replace(/--+/g, '-')]: every maximal run of two or more hyphens becomes
    one hyphen.  A hyphen that is followed by a hyphen is dropped, so of each
    run the last hyphen stays. *)
Fixpoint collapse_hyphens (s : jsstring) : jsstring :=
  match s with
  | [] => []
  | c :: t =>
      match t with
      | d :: _ => if is_hyphen c && is_hyphen d then collapse_hyphens t
                  else c :: collapse_hyphens t
      | [] => [c]
      end
  end.

(** The match of [^[ -]+] removed. *)
Fixpoint trim_start (s : jsstring) : jsstring :=
  match s with
  | [] => []
  | c :: t => if is_trim c then trim_start t else s
  end.

(** The match of [[ -]+$] removed. *)
Definition trim_end (s : jsstring) : jsstring := rev (trim_start (rev s)).

(** [.replace(/^[ -]+|[ -]+$/g, '')] *)
Definition trim (s : jsstring) : jsstring := trim_end (trim_start s).

(** [sanitizeFilename] *)
Definition sanitizeFilename (filename : jsstring) : jsstring :=
  let safeFilename := replace_invalid filename in
  let safeFilename := collapse_hyphens safeFilename in
  let safeFilename := trim safeFilename in
  let safeFilename :=
    if (200 <? Z.of_nat (length safeFilename)) then substring safeFilename 0 200
    else safeFilename in
  if decide (safeFilename = []) then js "untitled" else safeFilename.

(** [parseFilenameTemplate] *)
Definition parseFilenameTemplate (template : jsstring) (metadata : ImageMetadata) : jsstring :=
  let originalName := originalName metadata in
  let outputWidth := outputWidth metadata in
  let outputHeight := outputHeight metadata in
  let dot := lastIndexOf "." originalName in
  let nameWithoutExt :=
    substring originalName 0
      (if 0 <? dot then dot else Z.of_nat (length originalName)) in
  let ratio :=
    if negb (outputWidth =? 0) && negb (outputHeight =? 0) then
      toString (outputWidth / gcd outputWidth outputHeight) ++ js "x"
        ++ toString (outputHeight / gcd outputWidth outputHeight)
    else [] in
  let filename := template in
  let filename := replace_all (js "{name}") nameWithoutExt filename in
  let filename := replace_all (js "{ext}") (format_string (outputFormat metadata)) filename in
  let filename := replace_all (js "{index}") (toString (index metadata + 1)) filename in
  let filename := replace_all (js "{width}") (toString outputWidth) filename in
  let filename := replace_all (js "{height}") (toString outputHeight) filename in
  let filename := replace_all (js "{ratio}") ratio filename in
  let filename :=
    replace_all (js "{preset}")
      (match presetName metadata with
       | Some p => if decide (p = []) then [] else p
       | None => []
       end) filename in
  let filename := replace_all (js "{timestamp}") (toString (timestamp metadata)) filename in
  sanitizeFilename filename.

(** The name tried at turn [counter]:
    [`${nameWithoutExt}(${counter})${ext}`]. *)
Definition numbered (nameWithoutExt ext : jsstring) (counter : Z) : jsstring :=
  nameWithoutExt ++ js "(" ++ toString counter ++ js ")" ++ ext.

(** The [while] loop of [getUniqueFilename].  The loop leaves as soon as
    [uniqueName] is not in the set; [fuel] bounds the number of turns. *)
Fixpoint getUniqueFilename_loop (fuel : nat) (existingNames : gset jsstring)
    (nameWithoutExt ext uniqueName : jsstring) (counter : Z) : jsstring :=
  if decide (uniqueName ∈ existingNames) then
    match fuel with
    | S f =>
        getUniqueFilename_loop f existingNames nameWithoutExt ext
          (numbered nameWithoutExt ext counter) (counter + 1)
    | O => uniqueName
    end
  else uniqueName.

(** [getUniqueFilename]: the loop tries [preferredName] and then the names
    numbered 1, 2, ...; among [size existingNames + 1] numbered names one is
    free, which is the fuel given. *)
Definition getUniqueFilename (preferredName : jsstring) (existingNames : gset jsstring)
    : jsstring :=
  let dot := lastIndexOf "." preferredName in
  let cut := if 0 <? dot then dot else Z.of_nat (length preferredName) in
  let nameWithoutExt := substring preferredName 0 cut in
  let ext := substring_from preferredName cut in
  getUniqueFilename_loop (S (size existingNames)) existingNames
    nameWithoutExt ext preferredName 1.

(** *** Shapes of names *)

(** No character of the string is reserved. *)
Definition valid (s : jsstring) : Prop := Forall (fun c => is_invalid c = false) s.

(** No two hyphens in a row. *)
Fixpoint nodouble (s : jsstring) : Prop :=
  match s with
  | [] => True
  | c :: t =>
      match t with
      | d :: _ => (is_hyphen c && is_hyphen d = false) /\ nodouble t
      | [] => True
      end
  end.

(** The string does not start with a space or a hyphen. *)
Definition starts_clean (s : jsstring) : Prop :=
  match s with
  | c :: _ => is_trim c = false
  | [] => True
  end.

(** The string does not end with a space or a hyphen. *)
Definition ends_clean (s : jsstring) : Prop := starts_clean (rev s).

(** A string as [sanitizeFilename] returns it: no reserved character, no two
    hyphens in a row, no space or hyphen at the start, at most 200
    characters, not empty. *)
Record sanitized (s : jsstring) : Prop := {
  sanitized_valid : valid s;
  sanitized_nodouble : nodouble s;
  sanitized_start : starts_clean s;
  sanitized_length : (length s <= 200)%nat;
  sanitized_nonempty : s <> []
}.

End FilenameUtils.

(** ** Flood-fill background removal (imageProcessor.worker.ts) *)

Module FloodFill.
Local Open Scope Z_scope.

(** [array[i]] on a typed array: [None] stands for [undefined], the value of
    a read outside the array. *)
Definition get (a : list Z) (i : Z) : option Z :=
  if i <? 0 then None else a !! Z.to_nat i.

(** [array[i] = v] on a typed array: a write outside the array is dropped. *)
Definition set (a : list Z) (i v : Z) : list Z :=
  if i <? 0 then a else <[Z.to_nat i := v]> a.

(** [ImageData]: [data] holds four bytes R, G, B, A per pixel, row by row. *)
Record ImageData := { width : Z; height : Z; data : list Z }.

(** An RGB triple as read from the data. *)
Definition color : Type := option Z * option Z * option Z.

(** [colorDistance(r1, g1, b1, r2, g2, b2) < tolerance].  [colorDistance]
    is the square root of the sum computed here; the root of an integer is
    below a tolerance that is not negative exactly when the integer is below
    its square.  A distance that involves [undefined] is NaN, which is below
    nothing. *)
Definition colorDistance_below (c1 c2 : color) (tolerance : Z) : bool :=
  match c1, c2 with
  | (Some r1, Some g1, Some b1), (Some r2, Some g2, Some b2) =>
      (r1 - r2) ^ 2 + (g1 - g2) ^ 2 + (b1 - b2) ^ 2 <? tolerance ^ 2
  | _, _ => false
  end.

(** The byte offsets sampled by [getEdgeColor]: top, bottom, left and right
    edge. *)
Definition samplePoints (width height : Z) : list Z :=
  map (fun i => i * 4) (seqZ 0 width)
  ++ map (fun i => (height - 1) * width * 4 + i * 4) (seqZ 0 width)
  ++ map (fun i => i * width * 4) (seqZ 0 height)
  ++ map (fun i => i * width * 4 + (width - 1) * 4) (seqZ 0 height).

(** The state of the loop of [getEdgeColor]. *)
Record EdgeState := {
  colorCounts : gmap color Z;   (* keyed by the string "r,g,b" *)
  maxCount : Z;
  dominantColor : color
}.

(** One turn of the loop of [getEdgeColor]. *)
Definition edge_step (data : list Z) (st : EdgeState) (i : Z) : EdgeState :=
  let r := get data i in
  let g := get data (i + 1) in
  let b := get data (i + 2) in
  let key := (r, g, b) in
  let count := default 0 (colorCounts st !! key) + 1 in
  let counts := <[key := count]> (colorCounts st) in
  if maxCount st <? count then
    {| colorCounts := counts; maxCount := count; dominantColor := key |}
  else
    {| colorCounts := counts; maxCount := maxCount st; dominantColor := dominantColor st |}.

(** [getEdgeColor] *)
Definition getEdgeColor (imageData : ImageData) : color :=
  dominantColor
    (fold_left (edge_step (data imageData))
       (samplePoints (width imageData) (height imageData))
       {| colorCounts := ∅; maxCount := 0;
          dominantColor := (Some 255, Some 255, Some 255) |}).

(** The queue after the two seeding loops of [removeImageBackground]. *)
Definition edge_queue (width height : Z) : list (Z * Z) :=
  flat_map (fun x => [(x, 0); (x, height - 1)]) (seqZ 0 width)
  ++ flat_map (fun y => [(0, y); (width - 1, y)]) (seqZ 1 (height - 2)).

(** [queue.forEach(([x, y]) => backgroundMask[y * width + x] = 1)] *)
Definition mark_queue (width : Z) (queue : list (Z * Z)) (mask : list Z) : list Z :=
  fold_left (fun m '(x, y) => set m (y * width + x) 1) queue mask.

(** The body of the loop over the four neighbours in the flood fill: the
    neighbour [(nx, ny)] joins the background when it is inside the image,
    not visited yet and close to the background colour. *)
Definition visit (width height : Z) (data : list Z) (bg : color) (tolerance : Z)
    (st : list (Z * Z) * list Z) (n : Z * Z) : list (Z * Z) * list Z :=
  let '(queue, backgroundMask) := st in
  let '(nx, ny) := n in
  if (0 <=? nx) && (nx <? width) && (0 <=? ny) && (ny <? height) then
    let index := ny * width + nx in
    match get backgroundMask index with
    | Some 0 =>
        let dataIndex := index * 4 in
        let r := get data dataIndex in
        let g := get data (dataIndex + 1) in
        let b := get data (dataIndex + 2) in
        if colorDistance_below (r, g, b) bg tolerance then
          (queue ++ [(nx, ny)], set backgroundMask index 1)
        else st
    | _ => st
    end
  else st.

(** [while (head < queue.length)]: [fuel] bounds the number of turns; the
    result is the queue, the head and the mask when the loop stops. *)
Fixpoint flood (fuel : nat) (width height : Z) (data : list Z) (bg : color)
    (tolerance : Z) (queue : list (Z * Z)) (head : nat) (backgroundMask : list Z)
    : list (Z * Z) * nat * list Z :=
  match fuel with
  | O => (queue, head, backgroundMask)
  | S fuel' =>
      match queue !! head with
      | None => (queue, head, backgroundMask)
      | Some (x, y) =>
          let neighbors := [(x, y - 1); (x, y + 1); (x - 1, y); (x + 1, y)] in
          let '(queue', mask') :=
            fold_left (visit width height data bg tolerance) neighbors
                      (queue, backgroundMask) in
          flood fuel' width height data bg tolerance queue' (S head) mask'
      end
  end.

(** The inner loop of the feathering pass: the first neighbour that is inside
    the image and background marks pixel [i] as an edge, and the loop breaks. *)
Fixpoint feather_pixel (width height : Z) (mask : list Z) (i : Z)
    (neighbors : list (Z * Z)) : list Z :=
  match neighbors with
  | [] => mask
  | (nx, ny) :: rest =>
      if (0 <=? nx) && (nx <? width) && (0 <=? ny) && (ny <? height) then
        match get mask (ny * width + nx) with
        | Some 1 => set mask i 2
        | _ => feather_pixel width height mask i rest
        end
      else feather_pixel width height mask i rest
  end.

(** One turn of the feathering pass. *)
Definition feather_step (width height : Z) (mask : list Z) (i : Z) : list Z :=
  match get mask i with
  | Some 0 =>
      let x := Z.rem i width in
      let y := i / width in
      feather_pixel width height mask i [(x - 1, y); (x + 1, y); (x, y - 1); (x, y + 1)]
  | _ => mask
  end.

(** One turn of the pass that applies the mask to the data:
    [Math.floor(a * 0.5)] of a byte [a] is [a / 2]. *)
Definition apply_step (mask : list Z) (data : list Z) (i : Z) : list Z :=
  match get mask i with
  | Some 1 => set data (i * 4 + 3) 0
  | Some 2 =>
      match get data (i * 4 + 3) with
      | Some a => set data (i * 4 + 3) (a / 2)
      | None => data
      end
  | _ => data
  end.

(** The mask after the flood fill and the feathering pass. *)
Definition backgroundMask (imageData : ImageData) : list Z :=
  let width := width imageData in
  let height := height imageData in
  let bg := getEdgeColor imageData in
  let tolerance := 20 in
  let mask0 := replicate (Z.to_nat (width * height)) 0 in
  let queue := edge_queue width height in
  let mask1 := mark_queue width queue mask0 in
  let '(_, _, mask2) :=
    flood (S (length queue + length mask1)) width height (data imageData)
          bg tolerance queue 0 mask1 in
  fold_left (feather_step width height) (seqZ 0 (Z.of_nat (length mask2))) mask2.

(** [removeImageBackground]: the pixel data written back with
    [ctx.putImageData], given the [ImageData] read with [ctx.getImageData]. *)
Definition removeImageBackground (imageData : ImageData) : list Z :=
  let mask := backgroundMask imageData in
  fold_left (apply_step mask) (seqZ 0 (Z.of_nat (length mask))) (data imageData).

(** What [ctx.getImageData(0, 0, width, height)] returns on a canvas of that
    size: four bytes for each of the [width * height] pixels. *)
Record wf_ImageData (imageData : ImageData) : Prop := {
  wf_width : 0 < width imageData;
  wf_height : 0 < height imageData;
  wf_length : Z.of_nat (length (data imageData)) = 4 * (width imageData * height imageData);
  wf_bytes : Forall (fun v => 0 <= v <= 255) (data imageData)
}.

(** The bytes of pixel [i]. *)
Definition red (d : list Z) (i : Z) : option Z := get d (i * 4).
Definition green (d : list Z) (i : Z) : option Z := get d (i * 4 + 1).
Definition blue (d : list Z) (i : Z) : option Z := get d (i * 4 + 2).
Definition alpha (d : list Z) (i : Z) : option Z := get d (i * 4 + 3).

(** *** What the proofs speak of *)

(** The pixels of the mask not visited yet. *)
Definition zeros (mask : list Z) : nat := length (filter (fun v => v = 0) mask).

(** [d'] has the bytes of [d], but for alpha bytes that may be smaller. *)
Definition faded (d d' : list Z) : Prop :=
  length d' = length d /\
  forall (k : nat) v, d !! k = Some v ->
    exists v', d' !! k = Some v' /\ v' <= v /\ (Z.of_nat k mod 4 <> 3 -> v' = v).

(** Every pixel of the image has the colour [(r, g, b)]. *)
Definition uniform (imageData : ImageData) (r g b : Z) : Prop :=
  forall i, 0 <= i < width imageData * height imageData ->
    red (data imageData) i = Some r /\
    green (data imageData) i = Some g /\
    blue (data imageData) i = Some b.

(** The pixel [(x, y)] is inside an image of the given size. *)
Definition inside (width height x y : Z) : Prop := 0 <= x < width /\ 0 <= y < height.

(** Its place in the mask. *)
Definition index (width x y : Z) : Z := y * width + x.

(** Every entry of the mask is 0 or 1. *)
Definition binary (mask : list Z) : Prop := Forall (fun v => v = 0 \/ v = 1) mask.

(** From [(queue, mask)] to [(queue', mask')] pixels have been marked and
    pushed, and nothing else has happened. *)
Definition grows_in (width height : Z) (queue : list (Z * Z)) (mask : list Z)
    (queue' : list (Z * Z)) (mask' : list Z) : Prop :=
  length mask' = length mask /\
  (binary mask -> binary mask') /\
  (forall j, get mask j = Some 1 -> get mask' j = Some 1) /\
  exists more, queue' = queue ++ more /\
    (forall x y, (x, y) ∈ more ->
                 inside width height x y /\ get mask' (index width x y) = Some 1) /\
    (forall x y, inside width height x y -> get mask' (index width x y) = Some 1 ->
                 get mask (index width x y) = Some 1 \/ (x, y) ∈ more).

(** What holds of the queue, the head and the mask during the flood fill of
    a picture of one colour: the mask has the size of the image and holds 0
    and 1 only; the pixels of the queue are inside and marked; the
    neighbours of the pixels before the head are marked; the marked pixels
    are in the queue; the left edge is in the queue. *)
Record flooding_in (width height : Z) (queue : list (Z * Z)) (head : nat)
    (mask : list Z) : Prop := {
  flooding_length : Z.of_nat (length mask) = width * height;
  flooding_binary : binary mask;
  flooding_queue : forall x y, (x, y) ∈ queue ->
      inside width height x y /\ get mask (index width x y) = Some 1;
  flooding_done : forall k x y, (k < head)%nat -> queue !! k = Some (x, y) ->
      forall nx ny, (nx, ny) ∈ [(x, y - 1); (x, y + 1); (x - 1, y); (x + 1, y)] ->
                    inside width height nx ny -> get mask (index width nx ny) = Some 1;
  flooding_marked : forall x y, inside width height x y ->
      get mask (index width x y) = Some 1 -> (x, y) ∈ queue;
  flooding_left : forall y, 0 <= y < height -> (0, y) ∈ queue
}.


(** A 3x3 picture of the colour (10, 20, 30) with different alphas; the pixel
    in the middle is not on the border. *)
Definition one_colour_3x3 : ImageData :=
  {| width := 3; height := 3;
     data := [10; 20; 30; 255;  10; 20; 30; 200;  10; 20; 30; 0;
              10; 20; 30; 7;    10; 20; 30; 255;  10; 20; 30; 128;
              10; 20; 30; 1;    10; 20; 30; 64;   10; 20; 30; 255] |}.

(** A 3x3 picture: a dark frame around one light pixel. *)
Definition framed_3x3 : ImageData :=
  {| width := 3; height := 3;
     data := [0; 0; 0; 255;  0; 0; 0; 255;        0; 0; 0; 255;
              0; 0; 0; 255;  250; 250; 250; 201;  0; 0; 0; 255;
              0; 0; 0; 255;  0; 0; 0; 255;        0; 0; 0; 255] |}.

End FloodFill.

(** ** The worker's surroundings *)

Module Host.
Import Geometry CornerPath JSString FilenameUtils.
Local Open Scope Z_scope.

(** A [Blob]: its size and an opaque name for its bytes. *)
Record Blob := { blob_size : Z; blob_bytes : nat }.

(** A [File] is a [Blob] with a name. *)
Record File := { file_blob : Blob; name : jsstring }.

(** A decoded [ImageBitmap]. *)
Record ImageBitmap := { bitmap_width : Z; bitmap_height : Z; bitmap_pixels : nat }.

(** An element of [images] in the message sent to a worker. *)
Record ImageEntry := { file : File; id : jsstring }.

(** [interface ResizeOptions] *)
Record ResizeOptions := { resize_width : Z; resize_height : Z; fit : FitOption }.

(** [interface ProcessedImageResult] *)
Record ProcessedImageResult := {
  blob : Blob;
  filename : jsstring;
  width : Z;
  height : Z;
  size : Z;
  originalId : jsstring
}.

(** The messages a worker posts. *)
Inductive Message :=
| model_load_progress (key : jsstring) (current total : Z)
| progress (processedCount totalCount : Z) (imageName : jsstring)
| done (results : list ProcessedImageResult).

(** What has been done to a canvas through its 2D context, in order. *)
Inductive CanvasOp :=
| set_fillStyle (style : jsstring)
| fillRect (x y w h : Z)
| clearRect (x y w h : Z)
| path (cmds : list PathCmd)
| clip
| fill
| set_globalCompositeOperation (mode : jsstring)
| drawImage5 (image : ImageBitmap) (dx dy dWidth dHeight : Q)
| drawImage9 (image : ImageBitmap) (d : DrawDimensions)
| putImageData (data : list Z).

(** An [OffscreenCanvas] and what was drawn on it. *)
Record Canvas := { canvas_width : Z; canvas_height : Z; ops : list CanvasOp }.

(** [new OffscreenCanvas(width, height)]: the sizes are unsigned, a negative
    one is a [TypeError]. *)
Definition new_OffscreenCanvas (width height : Z) : option Canvas :=
  if (width <? 0) || (height <? 0) then None
  else Some {| canvas_width := width; canvas_height := height; ops := [] |}.

(** One more call on the context of a canvas. *)
Definition draw (c : Canvas) (more : list CanvasOp) : Canvas :=
  {| canvas_width := canvas_width c; canvas_height := canvas_height c;
     ops := ops c ++ more |}.

(** What a worker does that is seen outside of it: the calls it awaits, the
    messages it posts, the errors it logs.  The number is the position in the
    batch of the image at hand. *)
Inductive Effect :=
| call_removeBackground (i : nat)
| call_createImageBitmap (i : nat)
| call_getImageData (i : nat)
| call_convertToBlob (i : nat)
| call_Date_now
| postMessage (m : Message)
| console_error (imageName : jsstring).

(** The answers of the surroundings.  [None] is a call that throws or a
    promise that is rejected. *)
Record Answers := {
  (** [removeBackground(file, { model, progress })]: the calls of the
      [progress] callback, then the blob. *)
  removeBackground : nat -> File -> list (jsstring * Z * Z) * option Blob;
  (** [createImageBitmap(blob)] *)
  createImageBitmap : nat -> Blob -> option ImageBitmap;
  (** [canvas.getContext('2d')] is not [null]. *)
  getContext : nat -> bool;
  (** [ctx.getImageData(0, 0, width, height)]: the bytes of the pixels. *)
  getImageData : nat -> Canvas -> option (list Z);
  (** [canvas.convertToBlob({ type, quality })]; the value may be [null]. *)
  convertToBlob : nat -> Canvas -> jsstring -> option Q -> option (option Blob);
  (** [Date.now()], by the number of earlier calls. *)
  Date_now : nat -> Z;
  (** [(width / height).toFixed(2)] *)
  toFixed2 : Z -> Z -> jsstring
}.

(** [quality ? quality / 100 : undefined] *)
Definition quality_fraction (quality : option Z) : option Q :=
  match quality with
  | Some q => if q =? 0 then None else Some (inject_Z q / 100)%Q
  | None => None
  end.

(** How a part of a loop body ends: normally with a value, with [continue],
    or with an exception. *)
Inductive Completion (A : Type) :=
| Normal (a : A)
| Continue
| Throw.
Arguments Normal {A} a.
Arguments Continue {A}.
Arguments Throw {A}.

(** A computation inside [try]: the effects it has had, and how it ended. *)
Definition Try (A : Type) : Type := list Effect * Completion A.

Definition ret {A} (a : A) : Try A := ([], Normal a).

Definition bind {A B} (m : Try A) (f : A -> Try B) : Try B :=
  match m with
  | (es, Normal a) => let '(es', c) := f a in (es ++ es', c)
  | (es, Continue) => (es, Continue)
  | (es, Throw) => (es, Throw)
  end.

(** [await] of a call that may be rejected. *)
Definition await {A} (e : Effect) (answer : option A) : Try A :=
  ([e], match answer with Some a => Normal a | None => Throw end).

(** A value that may be an exception instead. *)
Definition try_ {A} (answer : option A) : Try A :=
  ([], match answer with Some a => Normal a | None => Throw end).

(** [if (!x) continue;] *)
Definition continue_unless (b : bool) : Try unit :=
  ([], if b then Normal tt else Continue).

Definition perform (es : list Effect) : Try unit := (es, Normal tt).

(** The messages among some effects. *)
Definition posted (es : list Effect) : list Message :=
  omap (fun e => match e with postMessage m => Some m | _ => None end) es.

Definition is_progress (m : Message) : bool :=
  match m with progress _ _ _ => true | _ => false end.

(** Effects that are neither a [progress] nor a [done] message: calls, logs
    and [model-load-progress] messages. *)
Definition quiet_effect (e : Effect) : Prop :=
  match e with
  | postMessage (progress _ _ _) | postMessage (done _) => False
  | _ => True
  end.

Definition quiet (es : list Effect) : Prop := Forall quiet_effect es.

(** The effect is not the posting of a [done] message. *)
Definition not_done (e : Effect) : Prop :=
  match e with postMessage (done _) => False | _ => True end.

(** The [progress] messages among some effects. *)
Definition progress_posted (es : list Effect) : list Message :=
  filter (fun m => is_progress m = true) (posted es).

End Host.

Declare Scope try_scope.
Delimit Scope try_scope with try.
Notation "x <- m ;; f" := (Host.bind m (fun x => f))
  (at level 100, m at next level, right associativity) : try_scope.
Notation "m ;;; f" := (Host.bind m (fun _ => f))
  (at level 100, right associativity) : try_scope.

(** ** src/workers/image.worker.ts *)

Module ImageWorker.
Import Geometry CornerPath JSString FilenameUtils Host.
Local Open Scope Z_scope.
Local Open Scope try_scope.

(** [interface ProcessOptions] *)
Record ProcessOptions := {
  resize : option ResizeOptions;
  borderRadius : option Z;
  format : ImageFormat;
  quality : option Z;
  opt_removeBackground : option bool;
  filenameTemplate : option jsstring;
  presetName : option jsstring
}.

(** [generateFileName]; [now] is what its call of [Date.now()] returns. *)
Definition generateFileName (answers : Answers) (now : Z)
    (originalName originalId : jsstring) (index : Z) (template : option jsstring)
    (format : ImageFormat) (width height : Z) (presetName : option jsstring)
    : jsstring :=
  let template := default (js "{name}_{index}") template in
  let nameWithoutExt := join "." (slice_0_m1 (split "." originalName)) in
  let ratio := toFixed2 answers width height in
  let timestamp := now in
  let fileName := replace_all (js "{name}") nameWithoutExt template in
  let fileName := replace_all (js "{ext}") (format_string format) fileName in
  let fileName := replace_all (js "{index}") (toString index) fileName in
  let fileName := replace_all (js "{width}") (toString width) fileName in
  let fileName := replace_all (js "{height}") (toString height) fileName in
  let fileName := replace_all (js "{ratio}") ratio fileName in
  let fileName := replace_all (js "{preset}") (default [] presetName) fileName in
  let fileName := replace_all (js "{timestamp}") (toString timestamp) fileName in
  if endsWith (js "." ++ format_string format) fileName then fileName
  else fileName ++ js "." ++ format_string format.

(** [options.removeBackground] is true. *)
Definition wants_removeBackground (options : ProcessOptions) : bool :=
  default false (opt_removeBackground options).

Definition is_jpeg (f : ImageFormat) : bool :=
  match f with jpeg => true | _ => false end.

Definition is_png (f : ImageFormat) : bool :=
  match f with png => true | _ => false end.

(** The first thing done for an image: the external background removal when
    it is asked for, the decoding otherwise. *)
Definition first_call (options : ProcessOptions) (i : nat) : Effect :=
  if wants_removeBackground options then call_removeBackground i
  else call_createImageBitmap i.

(** The body of [try] in [onmessage] down to [if (!blob) continue;]: the
    blob, the canvas and the effective format of image [i]. *)
Definition render (answers : Answers) (options : ProcessOptions) (i : nat)
    (image : ImageEntry) : Try (Blob * Canvas * ImageFormat) :=
  processedFile <-
    (if wants_removeBackground options then
       let '(ticks, answer) := removeBackground answers i (file image) in
       perform (call_removeBackground i ::
                map (fun '(key, current, total) =>
                       postMessage (model_load_progress key current total)) ticks) ;;;
       try_ answer
     else ret (file_blob (file image))) ;;
  imageBitmap <- await (call_createImageBitmap i)
                       (createImageBitmap answers i processedFile) ;;
  let canvasWidth :=
    match resize options with
    | Some r => resize_width r
    | None => bitmap_width imageBitmap
    end in
  let canvasHeight :=
    match resize options with
    | Some r => resize_height r
    | None => bitmap_height imageBitmap
    end in
  canvas <- try_ (new_OffscreenCanvas canvasWidth canvasHeight) ;;
  continue_unless (getContext answers i) ;;;
  let effectiveFormat :=
    if wants_removeBackground options && is_jpeg (format options) then png
    else format options in
  let canvas :=
    if is_jpeg effectiveFormat then
      draw canvas [set_fillStyle (js "#FFFFFF"); fillRect 0 0 canvasWidth canvasHeight]
    else draw canvas [clearRect 0 0 canvasWidth canvasHeight] in
  let canvas :=
    match borderRadius options with
    | Some r =>
        if 0 <? r then
          draw canvas
            [path (drawRoundedRectPath (inject_Z canvasWidth) (inject_Z canvasHeight)
                                       (inject_Z r)); clip]
        else canvas
    | None => canvas
    end in
  let d :=
    calculateDrawDimensions
      (inject_Z (bitmap_width imageBitmap)) (inject_Z (bitmap_height imageBitmap))
      (inject_Z canvasWidth) (inject_Z canvasHeight)
      (match resize options with Some r => fit r | None => cover end) in
  let canvas := draw canvas [drawImage9 imageBitmap d] in
  blob <- await (call_convertToBlob i)
                (convertToBlob answers i canvas
                   (js "image/" ++ format_string effectiveFormat)
                   (if is_png effectiveFormat then None
                    else quality_fraction (quality options))) ;;
  match blob with
  | Some b => ret (b, canvas, effectiveFormat)
  | None => ([], Continue)
  end.

(** The variables of [onmessage] that change from image to image, with the
    effects so far and the number of calls of [Date.now()] so far. *)
Record State := {
  finalResults : list ProcessedImageResult;
  processedCount : Z;
  effects : list Effect;
  clock : nat
}.

(** One turn of [for (const image of images)]. *)
Definition step (answers : Answers) (options : ProcessOptions) (totalCount : Z)
    (st : State) (i : nat) (image : ImageEntry) : State :=
  match render answers options i image with
  | (es, Normal (blob, canvas, effectiveFormat)) =>
      let processedCount := processedCount st + 1 in
      let filename :=
        generateFileName answers (Date_now answers (clock st))
          (name (file image)) (id image) processedCount
          (filenameTemplate options) effectiveFormat
          (canvas_width canvas) (canvas_height canvas) (presetName options) in
      {| finalResults :=
           finalResults st ++
           [ {| blob := blob; filename := filename;
                width := canvas_width canvas; height := canvas_height canvas;
                size := blob_size blob; originalId := id image |} ];
         processedCount := processedCount;
         effects :=
           effects st ++ es ++
           [ call_Date_now;
             postMessage (progress processedCount totalCount (name (file image))) ];
         clock := S (clock st) |}
  | (es, Continue) =>
      {| finalResults := finalResults st; processedCount := processedCount st;
         effects := effects st ++ es; clock := clock st |}
  | (es, Throw) =>
      {| finalResults := finalResults st; processedCount := processedCount st;
         effects := effects st ++ es ++ [console_error (name (file image))];
         clock := clock st |}
  end.

(** The loop, from image number [i] on. *)
Fixpoint loop (answers : Answers) (options : ProcessOptions) (totalCount : Z)
    (i : nat) (images : list ImageEntry) (st : State) : State :=
  match images with
  | [] => st
  | image :: rest =>
      loop answers options totalCount (S i) rest
           (step answers options totalCount st i image)
  end.

Definition initial : State :=
  {| finalResults := []; processedCount := 0; effects := []; clock := 0 |}.

(** [self.onmessage]: everything the worker does for one batch. *)
Definition onmessage (answers : Answers) (images : list ImageEntry)
    (options : ProcessOptions) : list Effect :=
  let totalCount := Z.of_nat (length images) in
  let st := loop answers options totalCount 0 images initial in
  effects st ++ [postMessage (done (finalResults st))].


(** What image [i] has become when its turn ends with a blob. *)
Definition rendered (answers : Answers) (options : ProcessOptions) (i : nat)
    (image : ImageEntry) : option (Blob * Canvas * ImageFormat) :=
  match render answers options i image with
  | (_, Normal x) => Some x
  | _ => None
  end.

(** The images that succeed, with their positions, from position [i] on. *)
Fixpoint successes (answers : Answers) (options : ProcessOptions) (i : nat)
    (images : list ImageEntry) : list (nat * ImageEntry) :=
  match images with
  | [] => []
  | image :: rest =>
      match rendered answers options i image with
      | Some _ => (i, image) :: successes answers options (S i) rest
      | None => successes answers options (S i) rest
      end
  end.

(** The [progress] messages that count the images of [done] from
    [count + 1] on. *)
Fixpoint running_progress (totalCount count : Z) (done : list (nat * ImageEntry))
    : list Message :=
  match done with
  | [] => []
  | (_, image) :: rest =>
      progress (count + 1) totalCount (name (file image))
      :: running_progress totalCount (count + 1) rest
  end.

(** [r] is the result of the image at position [i]: its blob, the size of
    its canvas, its id, and a name made by [generateFileName]. *)
Definition result_of (answers : Answers) (options : ProcessOptions)
    (r : ProcessedImageResult) (s : nat * ImageEntry) : Prop :=
  let '(i, image) := s in
  exists canvas format now index,
    rendered answers options i image = Some (blob r, canvas, format) /\
    originalId r = id image /\
    width r = canvas_width canvas /\ height r = canvas_height canvas /\
    size r = blob_size (blob r) /\
    filename r =
      generateFileName answers now (name (file image)) (id image) index
        (filenameTemplate options) format
        (canvas_width canvas) (canvas_height canvas) (presetName options).
End ImageWorker.

(** ** src/workers/imageProcessor.worker.ts *)

Module ImageProcessorWorker.
Import Geometry CornerPath JSString FilenameUtils Host.
Local Open Scope Z_scope.
Local Open Scope try_scope.

(** [ProcessRequest.options] *)
Record Options := {
  resize : ResizeOptions;
  borderRadius : Z;
  format : ImageFormat;
  quality : option Z;
  opt_removeBackground : option bool;
  filenameTemplate : jsstring;
  presetName : option jsstring   (* string | null *)
}.

(** "1. Resize & Fit": the [drawImage] call of the case taken. *)
Definition drawFit (bitmap : ImageBitmap) (canvas : Canvas) (fit : FitOption) : CanvasOp :=
  let d := resizeAndFit (inject_Z (bitmap_width bitmap)) (inject_Z (bitmap_height bitmap))
                        (inject_Z (canvas_width canvas)) (inject_Z (canvas_height canvas))
                        fit in
  match fit with
  | contain => drawImage5 bitmap (dx d) (dy d) (dWidth d) (dHeight d)
  | cover | crop => drawImage9 bitmap d
  end.

(** The body of [try] in [onmessage] down to [convertToBlob]: the blob (or
    [null]), the canvas and the format of image [i]. *)
Definition render (answers : Answers) (options : Options) (i : nat)
    (image : ImageEntry) : Try (option Blob * Canvas * ImageFormat) :=
  bitmap <- await (call_createImageBitmap i)
                  (createImageBitmap answers i (file_blob (file image))) ;;
  canvas <- try_ (new_OffscreenCanvas (resize_width (resize options))
                                      (resize_height (resize options))) ;;
  continue_unless (getContext answers i) ;;;
  let canvas := draw canvas [drawFit bitmap canvas (fit (resize options))] in
  drawn <-
    (if default false (opt_removeBackground options) then
       pixels <- await (call_getImageData i) (getImageData answers i canvas) ;;
       let imageData :=
         {| FloodFill.width := canvas_width canvas;
            FloodFill.height := canvas_height canvas;
            FloodFill.data := pixels |} in
       ret (draw canvas [putImageData (FloodFill.removeImageBackground imageData)],
            match format options with jpeg => png | f => f end)
     else ret (canvas, format options)) ;;
  let '(canvas, format) := drawn in
  let canvas :=
    if 0 <? borderRadius options then
      draw canvas
        [ set_globalCompositeOperation (js "destination-in");
          set_fillStyle (js "black");
          path (roundedCornersPath (inject_Z (canvas_width canvas))
                                   (inject_Z (canvas_height canvas))
                                   (inject_Z (borderRadius options)));
          fill;
          set_globalCompositeOperation (js "source-over") ]
    else canvas in
  blob <- await (call_convertToBlob i)
                (convertToBlob answers i canvas
                   (js "image/" ++ format_string format)
                   (quality_fraction (quality options))) ;;
  ret (blob, canvas, format).

(** The variables of [onmessage] that change from image to image, with the
    effects so far. *)
Record State := {
  results : list ProcessedImageResult;
  generatedFilenames : gset jsstring;
  effects : list Effect
}.

(** One turn of [for (let i = 0; i < totalCount; i++)]. *)
Definition step (answers : Answers) (options : Options) (totalCount timestamp : Z)
    (st : State) (i : nat) (image : ImageEntry) : State :=
  match render answers options i image with
  | (es, Normal (Some blob, canvas, format)) =>
      let baseFilename :=
        parseFilenameTemplate (filenameTemplate options)
          {| originalName := name (file image);
             outputWidth := canvas_width canvas;
             outputHeight := canvas_height canvas;
             outputFormat := format;
             FilenameUtils.presetName := presetName options;
             FilenameUtils.timestamp := timestamp;
             index := Z.of_nat i |} in
      let finalFilename := getUniqueFilename baseFilename (generatedFilenames st) in
      {| results :=
           results st ++
           [ {| blob := blob; filename := finalFilename;
                width := canvas_width canvas; height := canvas_height canvas;
                size := blob_size blob; originalId := id image |} ];
         generatedFilenames := {[ finalFilename ]} ∪ generatedFilenames st;
         effects :=
           effects st ++ es ++
           [ postMessage (progress (Z.of_nat i + 1) totalCount (name (file image))) ] |}
  | (es, Normal (None, _, _)) | (es, Continue) =>
      {| results := results st; generatedFilenames := generatedFilenames st;
         effects := effects st ++ es |}
  | (es, Throw) =>
      {| results := results st; generatedFilenames := generatedFilenames st;
         effects := effects st ++ es ++ [console_error (name (file image))] |}
  end.

(** The loop, from image number [i] on. *)
Fixpoint loop (answers : Answers) (options : Options) (totalCount timestamp : Z)
    (i : nat) (images : list ImageEntry) (st : State) : State :=
  match images with
  | [] => st
  | image :: rest =>
      loop answers options totalCount timestamp (S i) rest
           (step answers options totalCount timestamp st i image)
  end.

(** The state before the loop: [Date.now()] has been called once. *)
Definition initial : State :=
  {| results := []; generatedFilenames := ∅; effects := [call_Date_now] |}.

(** [self.onmessage]: everything the worker does for one batch. *)
Definition onmessage (answers : Answers) (images : list ImageEntry)
    (options : Options) : list Effect :=
  let totalCount := Z.of_nat (length images) in
  let timestamp := Date_now answers 0 in
  let st := loop answers options totalCount timestamp 0 images initial in
  effects st ++ [postMessage (done (results st))].


(** What image [i] has become when its turn ends with a blob. *)
Definition rendered (answers : Answers) (options : Options) (i : nat)
    (image : ImageEntry) : option (Blob * Canvas * ImageFormat) :=
  match render answers options i image with
  | (_, Normal (Some blob, canvas, format)) => Some (blob, canvas, format)
  | _ => None
  end.

(** The images that succeed, with their positions, from position [i] on. *)
Fixpoint successes (answers : Answers) (options : Options) (i : nat)
    (images : list ImageEntry) : list (nat * ImageEntry) :=
  match images with
  | [] => []
  | image :: rest =>
      match rendered answers options i image with
      | Some _ => (i, image) :: successes answers options (S i) rest
      | None => successes answers options (S i) rest
      end
  end.

(** [r] is the result of the image at position [i]: its blob, the size of
    its canvas, its id, and a name made from the template with the time
    stamp of the batch. *)
Definition result_of (answers : Answers) (options : Options) (timestamp : Z)
    (r : ProcessedImageResult) (s : nat * ImageEntry) : Prop :=
  let '(i, image) := s in
  exists canvas format names,
    rendered answers options i image = Some (blob r, canvas, format) /\
    originalId r = id image /\
    width r = canvas_width canvas /\ height r = canvas_height canvas /\
    size r = blob_size (blob r) /\
    filename r =
      getUniqueFilename
        (parseFilenameTemplate (filenameTemplate options)
           {| originalName := name (file image);
              outputWidth := canvas_width canvas;
              outputHeight := canvas_height canvas;
              outputFormat := format;
              FilenameUtils.presetName := presetName options;
              FilenameUtils.timestamp := timestamp;
              index := Z.of_nat i |}) names.
End ImageProcessorWorker.

(** ** Batches to run the workers on *)

Module Scenario.
Import Geometry JSString FilenameUtils Host.
Local Open Scope Z_scope.

(** The results carried by the last effect, when it is a [done] message. *)
Definition done_results (es : list Effect) : option (list ProcessedImageResult) :=
  match last es with
  | Some (postMessage (done results)) => Some results
  | _ => None
  end.

Definition picture (i : nat) : ImageBitmap :=
  {| bitmap_width := 1200; bitmap_height := 800; bitmap_pixels := i |}.

Definition encoded (i : nat) : Blob :=
  {| blob_size := 1000 + Z.of_nat i; blob_bytes := i |}.

(** Surroundings in which the image at position 1 cannot be decoded, a
    canvas without pixels cannot be encoded, and the clock advances by one
    between two readings. *)
Definition second_fails : Answers :=
  {| removeBackground := fun _ f => ([], Some (file_blob f));
     createImageBitmap := fun i _ => if Nat.eqb i 1 then None else Some (picture i);
     getContext := fun _ => true;
     getImageData := fun _ _ => None;
     convertToBlob := fun i canvas _ _ =>
       if (canvas_width canvas =? 0) || (canvas_height canvas =? 0) then None
       else Some (Some (encoded i));
     Date_now := fun k => 1700000000000 + Z.of_nat k;
     toFixed2 := fun _ _ => js "1.00" |}.

Definition entry (n : string) (i : nat) : ImageEntry :=
  {| file := {| file_blob := {| blob_size := 5000; blob_bytes := 100 + i |};
                name := js n |};
     id := js "id-" ++ js n |}.

Definition three_images : list ImageEntry :=
  [entry "a.png" 0; entry "b.png" 1; entry "c.png" 2].

(** Options of image.worker.ts: 512x512, cover, PNG, names made of the time
    stamp. *)
Definition options1 : ImageWorker.ProcessOptions :=
  {| ImageWorker.resize := Some {| resize_width := 512; resize_height := 512; fit := cover |};
     ImageWorker.borderRadius := None;
     ImageWorker.format := png;
     ImageWorker.quality := None;
     ImageWorker.opt_removeBackground := None;
     ImageWorker.filenameTemplate := Some (js "{timestamp}");
     ImageWorker.presetName := None |}.

(** Options of imageProcessor.worker.ts for a canvas of the given size. *)
Definition options2 (w h : Z) : ImageProcessorWorker.Options :=
  {| ImageProcessorWorker.resize := {| resize_width := w; resize_height := h; fit := contain |};
     ImageProcessorWorker.borderRadius := 0;
     ImageProcessorWorker.format := png;
     ImageProcessorWorker.quality := None;
     ImageProcessorWorker.opt_removeBackground := None;
     ImageProcessorWorker.filenameTemplate := js "{timestamp}";
     ImageProcessorWorker.presetName := None |}.
End Scenario.

(** ** src/components/UploadDropzone.tsx: what it sends to the worker and
    what it does with the answers *)

Module UploadDropzone.
Import Geometry JSString FilenameUtils Host.
Local Open Scope Z_scope.

(** [type ImageState]; an object URL is a string. *)
Record ImageState := {
  id : jsstring;
  originalFile : File;
  originalPreview : jsstring;
  processedBlob : option Blob;
  currentPreview : jsstring;
  processedFileName : option jsstring;
  processedSize : option Z;
  processedWidth : option Z;
  processedHeight : option Z;
  processedFormat : option jsstring
}.

(** The options kept in the state of the component ("Options State").  The
    sizes are what [handleDimensionChange] and [handlePresetSelect] store:
    integers (an input that does not parse is not stored). *)
Record OptionsState := {
  resizeDimensions : Z * Z;   (* { width, height } *)
  borderRadius : Z;
  format : ImageFormat;
  quality : Z;
  fitOption : FitOption;
  selectedPreset : option jsstring;   (* string | null *)
  removeBackground : bool;
  filenameTemplate : jsstring
}.

(** [defaultOptions], with no preset selected: the state before the user
    changes an option. *)
Definition defaultOptions : OptionsState :=
  {| resizeDimensions := (512, 512);
     borderRadius := 0;
     format := jpeg;
     quality := 90;
     fitOption := cover;
     selectedPreset := None;
     removeBackground := false;
     filenameTemplate := js "{name}_{index}" |}.

(** The image [onDrop] adds for a file, given the id and the object URL it
    gets. *)
Definition dropped (file : File) (id previewUrl : jsstring) : ImageState :=
  {| id := id;
     originalFile := file;
     originalPreview := previewUrl;
     processedBlob := None;
     currentPreview := previewUrl;
     processedFileName := None;
     processedSize := None;
     processedWidth := None;
     processedHeight := None;
     processedFormat := None |}.

(** [n || 512] *)
Definition or_512 (n : Z) : Z := if n =? 0 then 512 else n.

(** [images.map(img => ({ file: img.originalFile, id: img.id }))] *)
Definition posted_images (images : list ImageState) : list ImageEntry :=
  map (fun img => {| file := originalFile img; Host.id := id img |}) images.

(** The [options] of the message that [handleProcessImages] posts to the
    worker. *)
Definition posted_options (s : OptionsState) : ImageWorker.ProcessOptions :=
  let width := or_512 (fst (resizeDimensions s)) in
  let height := or_512 (snd (resizeDimensions s)) in
  let effectiveFormat :=
    if removeBackground s && ImageWorker.is_jpeg (format s) then png else format s in
  {| ImageWorker.resize :=
       Some {| resize_width := width; resize_height := height; fit := fitOption s |};
     ImageWorker.borderRadius := Some (borderRadius s);
     ImageWorker.format := effectiveFormat;
     ImageWorker.quality :=
       if ImageWorker.is_png effectiveFormat then None else Some (quality s);
     ImageWorker.opt_removeBackground := Some (removeBackground s);
     ImageWorker.filenameTemplate := Some (filenameTemplate s);
     ImageWorker.presetName := selectedPreset s |}.

(** [(processedCount / totalCount) * 100], in doubles. *)
Definition percent (processedCount totalCount : Z) : PrimFloat.float :=
  PrimFloat.mul
    (PrimFloat.div (DoubleGeometry.number processedCount) (DoubleGeometry.number totalCount))
    (DoubleGeometry.number 100).

(** The value [worker.onmessage] gives to [setOverallProgress] when a
    [progress] message arrives. *)
Definition overallProgress (m : Message) : option PrimFloat.float :=
  match m with
  | progress processedCount totalCount _ => Some (percent processedCount totalCount)
  | _ => None
  end.

(** [processedResults.find(p => p.originalId === img.id)] *)
Definition find_result (processedResults : list ProcessedImageResult) (img : ImageState)
    : option ProcessedImageResult :=
  List.find (fun p => bool_decide (originalId p = id img)) processedResults.

(** [parts.pop()] *)
Definition pop (parts : list jsstring) : option jsstring := last parts.

(** The calls made while the images are updated. *)
Inductive Call :=
| revokeObjectURL (url : jsstring)
| createObjectURL (object : Blob)
| console_warn (id : jsstring).

(** The function that [worker.onmessage] maps over the images when the
    [done] message arrives: the calls it makes, and the image it returns.
    [url_of] is what [URL.createObjectURL] returns for a blob. *)
Definition with_result (url_of : Blob -> jsstring)
    (processedResults : list ProcessedImageResult) (img : ImageState)
    : list Call * ImageState :=
  match find_result processedResults img with
  | None => ([console_warn (id img)], img)
  | Some result =>
      if decide (filename result = []) then ([console_warn (id img)], img)
      else
        ((match processedBlob img with
          | Some _ => [revokeObjectURL (currentPreview img)]
          | None => []
          end) ++ [createObjectURL (blob result)],
         {| id := id img;
            originalFile := originalFile img;
            originalPreview := originalPreview img;
            processedBlob := Some (blob result);
            currentPreview := url_of (blob result);
            processedFileName := Some (filename result);
            processedSize := Some (size result);
            processedWidth := Some (width result);
            processedHeight := Some (height result);
            processedFormat := pop (split "." (filename result)) |})
  end.

(** Two dropped files of the scenario. *)
Definition two_dropped : list ImageState :=
  map (fun e => dropped (file e) (Host.id e) (js "blob:" ++ Host.id e))
      [Scenario.entry "a.png" 0; Scenario.entry "b.png" 1].

End UploadDropzone.

(** ** What the further properties speak of *)

Module ProgressShapes.
Import UploadDropzone.
Local Open Scope Z_scope.

(** A value of the progress bar lies above 0 and at most at 100. *)
Definition on_the_bar (v : PrimFloat.float) : bool :=
  PrimFloat.ltb (DoubleGeometry.number 0) v && PrimFloat.leb v (DoubleGeometry.number 100).

(** [v === 100] *)
Definition full (v : PrimFloat.float) : bool :=
  PrimFloat.eqb v (DoubleGeometry.number 100).

(** The percentage of [k] of [n] is on the bar, and full exactly when [k] is
    [n]; and so for every [k] from 1 to [n], for every [n] from 1 to [N]. *)
Definition percent_checked (k n : Z) : bool :=
  on_the_bar (percent k n) && Bool.eqb (full (percent k n)) (k =? n).

Definition percents_checked (N : Z) : bool :=
  forallb (fun n => forallb (fun k => percent_checked k n) (seqZ 1 n)) (seqZ 1 N).

(** The batches whose percentages are computed one by one below: up to 256
    images. *)
Definition checked_batch : Z := 256.

End ProgressShapes.

Module PathShapes.
Import Geometry CornerPath.
Local Open Scope Q_scope.

(** The point [(x, y)] lies on a canvas of the given size. *)
Definition on_canvas (width height x y : Q) : Prop :=
  0 <= x <= width /\ 0 <= y <= height.

(** Every point a path call names (end points and control points) lies on
    the canvas.  A quadratic curve stays inside the triangle of its three
    points, so a path of such calls stays on the canvas. *)
Definition cmd_on_canvas (width height : Q) (c : PathCmd) : Prop :=
  match c with
  | beginPath | closePath => True
  | moveTo x y | lineTo x y => on_canvas width height x y
  | quadraticCurveTo cpx cpy x y =>
      on_canvas width height cpx cpy /\ on_canvas width height x y
  | arcTo x1 y1 x2 y2 radius =>
      on_canvas width height x1 y1 /\ on_canvas width height x2 y2 /\ 0 <= radius
  end.

End PathShapes.

Module NameShapes.
Import JSString FilenameUtils.
Local Open Scope Z_scope.

(** A character of a decimal numeral: a digit or the minus sign. *)
Definition digit_or_minus (c : ascii) : Prop := c ∈ js "-0123456789".

(** Where [parseFilenameTemplate] and [getUniqueFilename] cut a name: at its
    last dot, unless the name has none or starts with its only dot. *)
Definition cut_at (name : jsstring) : Z :=
  let dot := lastIndexOf "." name in
  if 0 <? dot then dot else Z.of_nat (length name).

End NameShapes.

Module MaskShapes.
Import FloodFill.
Local Open Scope Z_scope.

(** The colour read at pixel [p]. *)
Definition pixel (data : list Z) (p : Z) : color :=
  (get data (p * 4), get data (p * 4 + 1), get data (p * 4 + 2)).

(** The colour of pixel [(x, y)] is within the tolerance of the colour
    [getEdgeColor] finds. *)
Definition like_background (imageData : ImageData) (x y : Z) : Prop :=
  colorDistance_below
    (pixel (data imageData) (index (width imageData) x y))
    (getEdgeColor imageData) 20 = true.

(** The pixel lies in the first or last row or column. *)
Definition on_border (width height x y : Z) : Prop :=
  inside width height x y /\ (x = 0 \/ x = width - 1 \/ y = 0 \/ y = height - 1).

(** The four neighbours the flood fill looks at. *)
Definition neighbours (x y : Z) : list (Z * Z) :=
  [(x, y - 1); (x, y + 1); (x - 1, y); (x + 1, y)].

(** The pixels the flood fill can reach: those of the border, and the
    neighbours like the background of a pixel it can reach. *)
Inductive reached (imageData : ImageData) : Z -> Z -> Prop :=
| reached_border x y :
    on_border (width imageData) (height imageData) x y -> reached imageData x y
| reached_step x y nx ny :
    reached imageData x y ->
    (nx, ny) ∈ neighbours x y ->
    inside (width imageData) (height imageData) nx ny ->
    like_background imageData nx ny ->
    reached imageData nx ny.

(** What holds of the queue, the head and the mask during the flood fill of
    any picture. *)
Record spreading_in (imageData : ImageData) (queue : list (Z * Z)) (head : nat)
    (mask : list Z) : Prop := {
  spreading_length : Z.of_nat (length mask) = width imageData * height imageData;
  spreading_binary : binary mask;
  spreading_queue : forall x y, (x, y) ∈ queue ->
      inside (width imageData) (height imageData) x y /\
      get mask (index (width imageData) x y) = Some 1;
  spreading_done : forall k x y, (k < head)%nat -> queue !! k = Some (x, y) ->
      forall nx ny, (nx, ny) ∈ neighbours x y ->
        inside (width imageData) (height imageData) nx ny ->
        like_background imageData nx ny ->
        get mask (index (width imageData) nx ny) = Some 1;
  spreading_marked : forall x y, inside (width imageData) (height imageData) x y ->
      get mask (index (width imageData) x y) = Some 1 -> (x, y) ∈ queue;
  spreading_reached : forall x y, (x, y) ∈ queue -> reached imageData x y;
  spreading_border : forall x y, on_border (width imageData) (height imageData) x y ->
      (x, y) ∈ queue
}.

(** The mask when the flood fill has stopped, before the feathering pass. *)
Definition flooded (imageData : ImageData) : list Z :=
  let width := width imageData in
  let height := height imageData in
  let queue := edge_queue width height in
  let mask1 := mark_queue width queue (replicate (Z.to_nat (width * height)) 0) in
  snd (flood (S (length queue + length mask1)) width height (data imageData)
             (getEdgeColor imageData) 20 queue 0 mask1).

(** Pixel [(x, y)] has a neighbour inside the picture that [mask] marks as
    background. *)
Definition beside_background (width height : Z) (mask : list Z) (x y : Z) : Prop :=
  exists nx ny, ((nx, ny) ∈ neighbours x y) /\ inside width height nx ny /\
                get mask (index width nx ny) = Some 1.

(** How the feathering pass has left pixel [(x, y)] in [mask], given the
    mask it started from: marked 2 when it was 0 and beside the background,
    as it was otherwise. *)
Definition feathered (imageData : ImageData) (mask : list Z) (x y : Z) : Prop :=
  let i := index (width imageData) x y in
  let beside :=
    beside_background (width imageData) (height imageData) (flooded imageData) x y in
  (get (flooded imageData) i = Some 0 /\ beside /\ get mask i = Some 2) \/
  (~ (get (flooded imageData) i = Some 0 /\ beside) /\
   get mask i = get (flooded imageData) i).

(** A neighbour of pixel [(x, y)] can be reached by the flood fill. *)
Definition fringe (imageData : ImageData) (x y : Z) : Prop :=
  exists nx ny, ((nx, ny) ∈ neighbours x y) /\ reached imageData nx ny.

End MaskShapes.

Module EdgeShapes.
Import FloodFill.
Local Open Scope Z_scope.

(** The colour [getEdgeColor] reads at the byte offset [i]. *)
Definition sample (data : list Z) (i : Z) : color :=
  (get data i, get data (i + 1), get data (i + 2)).

(** The colours sampled on the four edges, in the order of the loop; a
    corner is sampled twice. *)
Definition edge_colours (imageData : ImageData) : list color :=
  map (sample (data imageData)) (samplePoints (width imageData) (height imageData)).

(** How often a colour occurs among some colours. *)
Definition occurrences (c : color) (colours : list color) : Z :=
  Z.of_nat (length (filter (fun k => k = c) colours)).

(** The loop of [getEdgeColor] over some samples. *)
Definition edge_loop (data : list Z) (samples : list Z) (st : EdgeState) : EdgeState :=
  fold_left (edge_step data) samples st.

(** What holds of the state of the loop of [getEdgeColor] after the samples
    of colours [seen]: the counts are the numbers of occurrences, no colour
    occurs more often than [maxCount] times, and the dominant colour occurs
    that often. *)
Record counted (seen : list color) (st : EdgeState) : Prop := {
  counted_counts : forall c, default 0 (colorCounts st !! c) = occurrences c seen;
  counted_max : forall c, occurrences c seen <= maxCount st;
  counted_dominant : seen <> [] -> occurrences (dominantColor st) seen = maxCount st;
  counted_none : seen = [] ->
    maxCount st = 0 /\ dominantColor st = (Some 255, Some 255, Some 255)
}.

End EdgeShapes.

Module BatchShapes.
Import Geometry JSString FilenameUtils Host.
Local Open Scope Z_scope.

(** The format image.worker.ts encodes to ([effectiveFormat]). *)
Definition effectiveFormat (options : ImageWorker.ProcessOptions) : ImageFormat :=
  if ImageWorker.wants_removeBackground options
     && ImageWorker.is_jpeg (ImageWorker.format options)
  then png
  else ImageWorker.format options.

(** The format imageProcessor.worker.ts encodes to: [format] after
    "2. Remove Background". *)
Definition format_used (options : ImageProcessorWorker.Options) : ImageFormat :=
  if default false (ImageProcessorWorker.opt_removeBackground options)
  then match ImageProcessorWorker.format options with jpeg => png | f => f end
  else ImageProcessorWorker.format options.

(** The surroundings never return a blob for a canvas without pixels
    ([convertToBlob] is rejected for a canvas of width or height 0). *)
Definition no_blob_of_empty_canvas (answers : Answers) : Prop :=
  forall i canvas type quality blob,
    canvas_width canvas = 0 \/ canvas_height canvas = 0 ->
    convertToBlob answers i canvas type quality <> Some (Some blob).

(** Options of image.worker.ts for a canvas of the given size. *)
Definition options1_sized (w h : Z) : ImageWorker.ProcessOptions :=
  {| ImageWorker.resize := Some {| resize_width := w; resize_height := h; fit := cover |};
     ImageWorker.borderRadius := None;
     ImageWorker.format := png;
     ImageWorker.quality := None;
     ImageWorker.opt_removeBackground := None;
     ImageWorker.filenameTemplate := Some (js "{timestamp}");
     ImageWorker.presetName := None |}.

(** The names given so far in imageProcessor.worker.ts differ from one
    another, and are all in the set the next name is checked against. *)
Definition names_differ (st : ImageProcessorWorker.State) : Prop :=
  NoDup (map filename (ImageProcessorWorker.results st)) /\
  forall n, n ∈ map filename (ImageProcessorWorker.results st) ->
            n ∈ ImageProcessorWorker.generatedFilenames st.

End BatchShapes.

(** * Properties *)

(** ** Fit geometry *)

Module GeometryFacts.
Import Geometry.
Local Open Scope Q_scope.

Lemma Qgtb_true a b : Qgtb a b = true -> b < a.
Proof.
  unfold Qgtb. intros H. apply Qnot_le_lt. intros Hle.
  apply Qle_bool_iff in Hle. rewrite Hle in H. discriminate.
Qed.

Lemma Qgtb_false a b : Qgtb a b = false -> a <= b.
Proof.
  unfold Qgtb. intros H. apply Qle_bool_iff.
  destruct (Qle_bool a b); [reflexivity | discriminate].
Qed.

Lemma Qltb_true a b : Qltb a b = true -> a < b.
Proof. apply Qgtb_true. Qed.

Lemma Qltb_false a b : Qltb a b = false -> b <= a.
Proof. apply Qgtb_false. Qed.

Lemma Qdiv_pos a b : 0 < a -> 0 < b -> 0 < a / b.
Proof.
  intros Ha Hb. apply Qlt_shift_div_l; [assumption | lra].
Qed.

Lemma Qmult_div_cancel a b : ~ b == 0 -> b * (a / b) == a.
Proof. intros Hb. field. assumption. Qed.

Section CropToFill.
Variables imgWidth imgHeight canvasWidth canvasHeight : Q.
Hypothesis HimgW : 0 < imgWidth.
Hypothesis HimgH : 0 < imgHeight.
Hypothesis HcanW : 0 < canvasWidth.
Hypothesis HcanH : 0 < canvasHeight.

Let canvasAspect := canvasWidth / canvasHeight.
Let imgAspect := imgWidth / imgHeight.

Lemma canvasAspect_pos : 0 < canvasAspect.
Proof. apply Qdiv_pos; assumption. Qed.

(** The image is wider than the canvas: the width is cropped. *)
Lemma crop_width_in_image :
  canvasAspect < imgAspect ->
  src_in_image imgWidth imgHeight
    (mkDraw ((imgWidth - imgHeight * canvasAspect) / 2) 0
            (imgHeight * canvasAspect) imgHeight 0 0 canvasWidth canvasHeight).
Proof.
  intros Hlt. pose proof canvasAspect_pos as Hc.
  assert (Hw : imgHeight * canvasAspect < imgWidth).
  { assert (E : imgHeight * imgAspect == imgWidth)
      by (apply Qmult_div_cancel; lra).
    rewrite <- E. apply Qmult_lt_l; assumption. }
  assert (Hp : 0 < imgHeight * canvasAspect) by (apply Qmult_lt_0_compat; assumption).
  unfold src_in_image; simpl.
  repeat split; try lra.
  - apply Qle_shift_div_l; lra.
  - assert (E : (imgWidth - imgHeight * canvasAspect) / 2 + imgHeight * canvasAspect
                == (imgWidth + imgHeight * canvasAspect) / 2) by field.
    rewrite E. apply Qle_shift_div_r; lra.
  - apply Qmult_le_compat_r; lra.
Qed.

(** The image is not wider than the canvas: the height is cropped. *)
Lemma crop_height_in_image :
  imgAspect <= canvasAspect ->
  src_in_image imgWidth imgHeight
    (mkDraw 0 ((imgHeight - imgWidth / canvasAspect) / 2)
            imgWidth (imgWidth / canvasAspect) 0 0 canvasWidth canvasHeight).
Proof.
  intros Hle. pose proof canvasAspect_pos as Hc.
  assert (Hh : imgWidth / canvasAspect <= imgHeight).
  { apply Qle_shift_div_r; [assumption|].
    assert (E : imgHeight * imgAspect == imgWidth)
      by (apply Qmult_div_cancel; lra).
    rewrite <- E. apply Qmult_le_l; assumption. }
  assert (Hp : 0 < imgWidth / canvasAspect) by (apply Qdiv_pos; assumption).
  unfold src_in_image; simpl.
  repeat split; try lra.
  - apply Qle_shift_div_l; lra.
  - assert (E : (imgHeight - imgWidth / canvasAspect) / 2 + imgWidth / canvasAspect
                == (imgHeight + imgWidth / canvasAspect) / 2) by (field; lra).
    rewrite E. apply Qle_shift_div_r; lra.
  - apply Qmult_le_l; lra.
Qed.

(** [calculateDrawDimensions] crops inside the image for both policies. *)
Lemma calculateDrawDimensions_fill_in_image fit :
  fit = cover \/ fit = crop ->
  let d := calculateDrawDimensions imgWidth imgHeight canvasWidth canvasHeight fit in
  dst_is_canvas canvasWidth canvasHeight d /\ src_in_image imgWidth imgHeight d.
Proof.
  intros Hfit d. subst d.
  assert (E : calculateDrawDimensions imgWidth imgHeight canvasWidth canvasHeight fit
              = calculateDrawDimensions imgWidth imgHeight canvasWidth canvasHeight crop)
    by (destruct Hfit; subst; reflexivity).
  rewrite E. unfold calculateDrawDimensions.
  destruct (Qgtb _ _) eqn:Hb.
  - split; [unfold dst_is_canvas; simpl; repeat split; reflexivity|].
    apply crop_width_in_image. apply Qgtb_true, Hb.
  - split; [unfold dst_is_canvas; simpl; repeat split; reflexivity|].
    apply crop_height_in_image. apply Qgtb_false, Hb.
Qed.

(** The [crop] case of the second worker does the same. *)
Lemma resizeAndFit_crop_in_image :
  let d := resizeAndFit imgWidth imgHeight canvasWidth canvasHeight crop in
  dst_is_canvas canvasWidth canvasHeight d /\ src_in_image imgWidth imgHeight d.
Proof.
  intros d. subst d. unfold resizeAndFit.
  destruct (Qgtb _ _) eqn:Hb.
  - split; [unfold dst_is_canvas; simpl; repeat split; reflexivity|].
    apply crop_width_in_image. apply Qgtb_true, Hb.
  - split; [unfold dst_is_canvas; simpl; repeat split; reflexivity|].
    apply crop_height_in_image. apply Qgtb_false, Hb.
Qed.
End CropToFill.

(** In [calculateDrawDimensions] the two policies are one [case]. *)
Lemma calculateDrawDimensions_cover_crop iw ih cw ch :
  calculateDrawDimensions iw ih cw ch cover = calculateDrawDimensions iw ih cw ch crop.
Proof. reflexivity. Qed.

(** The [cover] case of the second worker tests the aspect ratios the other
    way round: whenever they differ, the rectangle it cuts is larger than
    the image on one axis and starts before the image. *)
Lemma resizeAndFit_cover_sticks_out iw ih cw ch :
  0 < iw -> 0 < ih -> 0 < cw -> 0 < ch ->
  ~ iw / ih == cw / ch ->
  let d := resizeAndFit iw ih cw ch cover in
  (sx d < 0 /\ iw < sWidth d) \/ (sy d < 0 /\ ih < sHeight d).
Proof.
  intros Hiw Hih Hcw Hch Hne d. subst d. unfold resizeAndFit.
  assert (Hc : 0 < cw / ch) by (apply Qdiv_pos; assumption).
  assert (E : ih * (iw / ih) == iw) by (apply Qmult_div_cancel; lra).
  destruct (Qltb _ _) eqn:Hb; simpl.
  - left. apply Qltb_true in Hb.
    assert (Hw : iw < ih * (cw / ch)).
    { rewrite <- E at 1. apply Qmult_lt_l; assumption. }
    split; [|assumption].
    apply Qlt_shift_div_r; lra.
  - right. apply Qltb_false in Hb.
    assert (Hlt : cw / ch < iw / ih).
    { destruct (Qlt_le_dec (cw / ch) (iw / ih)) as [?|Hle]; [assumption|].
      exfalso. apply Hne. apply Qle_antisym; assumption. }
    assert (Hh : ih < iw / (cw / ch)).
    { apply Qlt_shift_div_l; [assumption|].
      rewrite <- E. apply Qmult_lt_l; assumption. }
    split; [|assumption].
    apply Qlt_shift_div_r; lra.
Qed.

(** A 1200x800 picture on a 512x512 canvas: both policies of
    [calculateDrawDimensions] cut the middle 800x800 square. *)
Example calculateDrawDimensions_example :
  let d := calculateDrawDimensions 1200 800 512 512 cover in
  sx d == 200 /\ sy d == 0 /\ sWidth d == 800 /\ sHeight d == 800 /\
  dst_is_canvas 512 512 d.
Proof. simpl. repeat split; reflexivity. Qed.

(** C1.  Claimed: with [cover] or [crop] the source rectangle lies inside the
    source image.  The [cover] case of imageProcessor.worker.ts, for a
    100x200 bitmap on a 100x100 canvas, asks [drawImage] for the source
    rectangle x = -50, y = 0, width = 200, height = 200: it starts left of
    the image and is twice as wide. *)
Theorem resizeAndFit_cover_outside_image :
  let d := resizeAndFit 100 200 100 100 cover in
  sx d == -50 /\ sy d == 0 /\ sWidth d == 200 /\ sHeight d == 200 /\
  dst_is_canvas 100 100 d /\ ~ src_in_image 100 200 d.
Proof.
  simpl. repeat split; try reflexivity.
  unfold src_in_image. simpl. intros [H _]. revert H. vm_compute.
  intros H. apply H. reflexivity.
Qed.

(** C2.  Claimed: [cover] and [crop] compute the same geometry.  In
    imageProcessor.worker.ts, for a 100x200 bitmap on a 100x100 canvas,
    [cover] cuts (-50, 0, 200, 200) and [crop] cuts (0, 50, 100, 100). *)
Theorem resizeAndFit_cover_differs_from_crop :
  let c := resizeAndFit 100 200 100 100 cover in
  let k := resizeAndFit 100 200 100 100 crop in
  sx c == -50 /\ sWidth c == 200 /\
  sx k == 0 /\ sy k == 50 /\ sWidth k == 100 /\ sHeight k == 100 /\
  ~ same_geometry c k.
Proof.
  simpl. repeat split; try reflexivity.
  unfold same_geometry. simpl. intros [H _]. revert H. vm_compute. discriminate.
Qed.

End GeometryFacts.

(** ** Rounded corners *)

Module CornerFacts.
Import Geometry CornerPath.
Local Open Scope Q_scope.

Lemma Math_min_spec a b :
  (a <= b /\ Math_min a b == a) \/ (b < a /\ Math_min a b == b).
Proof.
  unfold Math_min. destruct (Qle_bool a b) eqn:H.
  - left. split; [apply Qle_bool_iff, H | reflexivity].
  - right. split; [|reflexivity].
    apply Qnot_le_lt. intros Hle. apply Qle_bool_iff in Hle. congruence.
Qed.

(** From [min(w,h)/2] upwards the clamped radius is [min(w,h)/2]. *)
Lemma clamped_saturates width height radius :
  max_radius width height <= radius ->
  clamped width height radius == max_radius width height.
Proof.
  unfold clamped, max_radius. intros H.
  destruct (Math_min_spec width height) as [[H1 E1]|[H1 E1]];
    destruct (Math_min_spec radius (width / 2)) as [[H2 E2]|[H2 E2]];
    destruct (Math_min_spec (Math_min radius (width / 2)) (height / 2)) as [[H3 E3]|[H3 E3]];
    rewrite E1 in *; rewrite E2 in *; rewrite E3; try rewrite E2;
    assert (Hw : width / 2 == width * (1 # 2)) by (field; lra);
    assert (Hh : height / 2 == height * (1 # 2)) by (field; lra);
    rewrite Hw in *; rewrite Hh in *; lra.
Qed.

(** The path of [drawRoundedRectPath] depends on the radius through its
    clamped value only. *)
Lemma drawRoundedRectPath_clamped width height r r' :
  clamped width height r == clamped width height r' ->
  same_path (drawRoundedRectPath width height r) (drawRoundedRectPath width height r').
Proof.
  intros E. unfold drawRoundedRectPath, same_path. fold (clamped width height r).
  fold (clamped width height r').
  repeat constructor; simpl; try reflexivity; try assumption; rewrite E; reflexivity.
Qed.

(** [drawRoundedRectPath] saturates: from [min(w,h)/2] upwards every radius
    gives the path of [min(w,h)/2]. *)
Lemma drawRoundedRectPath_saturates width height radius :
  max_radius width height <= radius ->
  same_path (drawRoundedRectPath width height radius)
            (drawRoundedRectPath width height (max_radius width height)).
Proof.
  intros H. apply drawRoundedRectPath_clamped.
  rewrite (clamped_saturates _ _ _ H).
  symmetry. apply clamped_saturates. apply Qle_refl.
Qed.

(** C7.  Claimed: a radius of at least [min(w,h)/2] gives the mask of
    [min(w,h)/2].  imageProcessor.worker.ts uses [borderRadius] as it comes:
    on a 100x100 canvas the radius 100 (where [min(w,h)/2] is 50) starts the
    path at (0, 100) and asks for arcs of radius 100, the radius 50 starts
    it at (0, 50) with arcs of radius 50. *)
Theorem roundedCornersPath_not_clamped :
  max_radius 100 100 == 50 /\
  max_radius 100 100 <= 100 /\
  nth 1 (roundedCornersPath 100 100 100) beginPath = moveTo 0 100 /\
  nth 2 (roundedCornersPath 100 100 100) beginPath = arcTo 0 0 100 0 100 /\
  nth 1 (roundedCornersPath 100 100 (max_radius 100 100)) beginPath
    = moveTo 0 (max_radius 100 100) /\
  ~ same_path (roundedCornersPath 100 100 100)
              (roundedCornersPath 100 100 (max_radius 100 100)).
Proof.
  repeat split; try reflexivity.
  - vm_compute. discriminate.
  - unfold same_path, roundedCornersPath. intros H.
    inversion H as [|? ? ? ? _ H1]; subst.
    inversion H1 as [|? ? ? ? Hm _]; subst.
    simpl in Hm. destruct Hm as [_ Hm]. revert Hm. vm_compute. discriminate.
Qed.

End CornerFacts.

(** ** File names *)

Module FilenameFacts.
Import JSString FilenameUtils.
Local Open Scope Z_scope.

Lemma substring_0 (s : jsstring) (n : Z) :
  0 <= n -> substring s 0 n = take (Z.to_nat n) s.
Proof.
  intros Hn. unfold substring.
  set (len := Z.of_nat (length s)).
  assert (0 <= len) by lia.
  replace (Z.max 0 (Z.min 0 len)) with 0 by lia.
  replace (Z.min 0 (Z.max 0 (Z.min n len))) with 0 by lia.
  replace (Z.max 0 (Z.max 0 (Z.min n len)) - 0) with (Z.min n len) by lia.
  simpl. rewrite drop_0.
  destruct (Z.le_ge_cases n len).
  - replace (Z.min n len) with n by lia. reflexivity.
  - replace (Z.min n len) with len by lia. unfold len.
    rewrite Nat2Z.id. rewrite !take_ge; [reflexivity | lia |lia].
Qed.

(** *** The first pass *)

Lemma hyphen_valid : is_invalid "-" = false.
Proof. reflexivity. Qed.

Lemma replace_invalid_valid s : valid (replace_invalid s).
Proof.
  unfold valid, replace_invalid. apply Forall_forall. intros c Hc.
  apply list_elem_of_fmap in Hc as [d [-> _]].
  destruct (is_invalid d) eqn:E; [reflexivity | assumption].
Qed.

Lemma replace_invalid_id s : valid s -> replace_invalid s = s.
Proof.
  unfold valid, replace_invalid. induction 1 as [|c t Hc _ IH]; [reflexivity|].
  simpl. rewrite Hc. f_equal. apply IH.
Qed.

(** *** The second pass *)

Lemma collapse_hyphens_cons c t :
  collapse_hyphens (c :: t) =
  match t with
  | d :: _ => if is_hyphen c && is_hyphen d then collapse_hyphens t
              else c :: collapse_hyphens t
  | [] => [c]
  end.
Proof. reflexivity. Qed.

(** What the second pass does, read from left to right: a character that is
    not a hyphen is copied, and a run of hyphens, however long, becomes one
    hyphen. *)
Lemma collapse_hyphens_other c s :
  is_hyphen c = false -> collapse_hyphens (c :: s) = c :: collapse_hyphens s.
Proof.
  intros Hc. rewrite collapse_hyphens_cons. destruct s as [|d s']; [reflexivity|].
  rewrite Hc. reflexivity.
Qed.

Lemma collapse_hyphens_run n c s :
  is_hyphen c = false ->
  collapse_hyphens (repeat "-"%char (S n) ++ c :: s) = "-"%char :: collapse_hyphens (c :: s).
Proof.
  intros Hc. induction n as [|n IH].
  - simpl repeat. simpl app. rewrite collapse_hyphens_cons. rewrite Hc.
    rewrite andb_false_r. reflexivity.
  - change (repeat "-"%char (S (S n)) ++ c :: s)
      with ("-"%char :: repeat "-"%char (S n) ++ c :: s).
    rewrite collapse_hyphens_cons. simpl repeat at 1. simpl app at 1. exact IH.
Qed.

Lemma collapse_hyphens_last_run n : collapse_hyphens (repeat "-"%char (S n)) = ["-"%char].
Proof.
  induction n as [|n IH]; [reflexivity|].
  change (repeat "-"%char (S (S n))) with ("-"%char :: repeat "-"%char (S n)).
  rewrite collapse_hyphens_cons. simpl repeat at 1. exact IH.
Qed.

(** The result starts with a hyphen only if the string does. *)
Lemma collapse_hyphens_head s :
  match collapse_hyphens s, s with
  | c :: _, d :: _ => is_hyphen c = true -> is_hyphen d = true
  | _ :: _, [] => False
  | [], _ => True
  end.
Proof.
  induction s as [|c t IH]; [exact I|].
  rewrite collapse_hyphens_cons. destruct t as [|d t']; [auto|].
  destruct (is_hyphen c && is_hyphen d) eqn:E.
  - destruct (collapse_hyphens (d :: t')); [exact I|].
    intros H. apply andb_true_iff in E. tauto.
  - auto.
Qed.

Lemma collapse_hyphens_valid s : valid s -> valid (collapse_hyphens s).
Proof.
  unfold valid. induction 1 as [|c t Hc Ht IH]; [constructor|].
  rewrite collapse_hyphens_cons. destruct t as [|d t']; [repeat constructor; assumption|].
  destruct (is_hyphen c && is_hyphen d); [assumption | constructor; assumption].
Qed.

Lemma collapse_hyphens_nodouble s : nodouble (collapse_hyphens s).
Proof.
  induction s as [|c t IH]; [exact I|].
  rewrite collapse_hyphens_cons. destruct t as [|d t']; [exact I|].
  destruct (is_hyphen c && is_hyphen d) eqn:E; [assumption|].
  pose proof (collapse_hyphens_head (d :: t')) as Hh.
  destruct (collapse_hyphens (d :: t')) as [|e r] eqn:Er; [exact I|].
  split; [|assumption].
  apply andb_false_iff. apply andb_false_iff in E.
  destruct E as [E|E]; [left; assumption|].
  right. destruct (is_hyphen e) eqn:Ee; [|reflexivity].
  rewrite Hh in E; [discriminate | reflexivity].
Qed.

Lemma collapse_hyphens_id s : nodouble s -> collapse_hyphens s = s.
Proof.
  induction s as [|c t IH]; [reflexivity|].
  intros H. rewrite collapse_hyphens_cons. destruct t as [|d t']; [reflexivity|].
  destruct H as [E H]. rewrite E. f_equal. apply IH, H.
Qed.

Lemma nodouble_tail c t : nodouble (c :: t) -> nodouble t.
Proof. destruct t; [intros; exact I | intros [_ H]; exact H]. Qed.

Lemma nodouble_suffix p s : nodouble (p ++ s) -> nodouble s.
Proof.
  induction p as [|c p IH]; [auto|]. intros H. apply IH.
  apply (nodouble_tail c). exact H.
Qed.

Lemma nodouble_take n s : nodouble s -> nodouble (take n s).
Proof.
  revert s. induction n as [|n IH]; intros s H; [exact I|].
  destruct s as [|c t]; [exact I|]. simpl.
  destruct t as [|d t']; [destruct n; exact I|].
  destruct H as [E H]. specialize (IH _ H).
  destruct n; [exact I|]. simpl in *. split; assumption.
Qed.

Lemma valid_take n s : valid s -> valid (take n s).
Proof. apply Forall_take. Qed.

(** *** The third pass *)

(** [trim_start] removes a prefix made of spaces and hyphens. *)
Lemma trim_start_suffix s :
  exists p, s = p ++ trim_start s /\ Forall (fun c => is_trim c = true) p.
Proof.
  induction s as [|c t [p [E Hp]]]; [exists []; split; [reflexivity|constructor]|].
  simpl. destruct (is_trim c) eqn:Ec.
  - exists (c :: p). split; [simpl; f_equal; exact E | constructor; assumption].
  - exists []. split; [reflexivity | constructor].
Qed.

Lemma trim_start_clean s : starts_clean (trim_start s).
Proof.
  induction s as [|c t IH]; [exact I|]. simpl.
  destruct (is_trim c) eqn:Ec; [exact IH | exact Ec].
Qed.

Lemma trim_start_id s : starts_clean s -> trim_start s = s.
Proof. destruct s as [|c t]; [reflexivity|]. simpl. intros ->. reflexivity. Qed.

(** [trim_end] removes a suffix made of spaces and hyphens. *)
Lemma trim_end_prefix s :
  exists q, s = trim_end s ++ q /\ Forall (fun c => is_trim c = true) q.
Proof.
  unfold trim_end. destruct (trim_start_suffix (rev s)) as [p [E Hp]].
  exists (rev p). split.
  - rewrite <- rev_app_distr, <- E. symmetry. apply rev_involutive.
  - apply Forall_rev, Hp.
Qed.

Lemma trim_end_clean s : ends_clean (trim_end s).
Proof.
  unfold ends_clean, trim_end. rewrite rev_involutive. apply trim_start_clean.
Qed.

Lemma trim_end_id s : ends_clean s -> trim_end s = s.
Proof.
  unfold ends_clean, trim_end. intros H. rewrite trim_start_id by exact H.
  apply rev_involutive.
Qed.

(** [trim_end] is a [take]. *)
Lemma trim_end_take s : trim_end s = take (length (trim_end s)) s.
Proof.
  destruct (trim_end_prefix s) as [q [E _]].
  transitivity (take (length (trim_end s)) (trim_end s ++ q)).
  - rewrite take_app_length. reflexivity.
  - rewrite <- E. reflexivity.
Qed.

(** A string that starts clean keeps its first character. *)
Lemma trim_end_keeps_head c t : is_trim c = false -> exists t', trim_end (c :: t) = c :: t'.
Proof.
  intros Hc. destruct (trim_end_prefix (c :: t)) as [q [E Hq]].
  destruct (trim_end (c :: t)) as [|d t'] eqn:Et.
  - simpl in E. subst q. inversion Hq; congruence.
  - exists t'. simpl in E. inversion E. reflexivity.
Qed.

Lemma trim_end_starts_clean s : starts_clean s -> starts_clean (trim_end s).
Proof.
  destruct s as [|c t]; [intros; exact I|]. simpl. intros Hc.
  destruct (trim_end_keeps_head c t Hc) as [t' ->]. exact Hc.
Qed.

Lemma starts_clean_take n s : starts_clean s -> starts_clean (take n s).
Proof. destruct n, s; simpl; auto. Qed.

(** *** What [sanitizeFilename] returns *)

Lemma untitled_sanitized : sanitized (js "untitled").
Proof.
  split.
  - unfold valid. repeat constructor.
  - simpl. repeat split.
  - reflexivity.
  - simpl. lia.
  - discriminate.
Qed.

Lemma trim_sanitary s :
  valid s -> nodouble s ->
  valid (trim s) /\ nodouble (trim s) /\ starts_clean (trim s) /\ ends_clean (trim s).
Proof.
  intros Hv Hn. unfold trim.
  destruct (trim_start_suffix s) as [p [E Hp]].
  assert (Hv' : valid (trim_start s)).
  { unfold valid in *. rewrite E in Hv. apply Forall_app in Hv. tauto. }
  assert (Hn' : nodouble (trim_start s)).
  { rewrite E in Hn. eapply nodouble_suffix, Hn. }
  rewrite trim_end_take. repeat split.
  - apply valid_take, Hv'.
  - apply nodouble_take, Hn'.
  - rewrite <- trim_end_take. apply trim_end_starts_clean, trim_start_clean.
  - rewrite <- trim_end_take. apply trim_end_clean.
Qed.

Lemma sanitizeFilename_sanitized x : sanitized (sanitizeFilename x).
Proof.
  unfold sanitizeFilename.
  set (s := trim (collapse_hyphens (replace_invalid x))).
  destruct (trim_sanitary (collapse_hyphens (replace_invalid x))) as (Hv & Hn & Hs & _).
  { apply collapse_hyphens_valid, replace_invalid_valid. }
  { apply collapse_hyphens_nodouble. }
  fold s in Hv, Hn, Hs.
  set (t := if 200 <? Z.of_nat (length s) then substring s 0 200 else s).
  assert (Ht : valid t /\ nodouble t /\ starts_clean t /\ (length t <= 200)%nat).
  { unfold t. destruct (200 <? Z.of_nat (length s)) eqn:E.
    - rewrite substring_0 by lia. repeat split.
      + apply valid_take, Hv.
      + apply nodouble_take, Hn.
      + apply starts_clean_take, Hs.
      + rewrite length_take. lia.
    - apply Z.ltb_ge in E. repeat split; try assumption. lia. }
  destruct Ht as (Hv' & Hn' & Hs' & Hl').
  destruct (decide (t = [])); [apply untitled_sanitized|].
  split; assumption.
Qed.

(** On such a string only the third pass can still change something: it
    removes the spaces and hyphens at the end. *)
Lemma sanitizeFilename_of_sanitized y : sanitized y -> sanitizeFilename y = trim_end y.
Proof.
  intros [Hv Hn Hs Hl Hne]. unfold sanitizeFilename.
  rewrite replace_invalid_id by exact Hv.
  rewrite collapse_hyphens_id by exact Hn.
  unfold trim. rewrite trim_start_id by exact Hs.
  assert (Hlen : (length (trim_end y) <= 200)%nat).
  { rewrite trim_end_take, length_take. lia. }
  replace (200 <? Z.of_nat (length (trim_end y))) with false
    by (symmetry; apply Z.ltb_ge; lia).
  destruct (decide (trim_end y = [])) as [E|]; [|reflexivity].
  exfalso. destruct y as [|c t]; [congruence|].
  destruct (trim_end_keeps_head c t Hs) as [t' Et]. congruence.
Qed.

Lemma sanitizeFilename_twice x :
  sanitizeFilename (sanitizeFilename x) = trim_end (sanitizeFilename x).
Proof. apply sanitizeFilename_of_sanitized, sanitizeFilename_sanitized. Qed.


(** The passes do not make a name longer. *)
Lemma collapse_hyphens_length s : (length (collapse_hyphens s) <= length s)%nat.
Proof.
  induction s as [|c t IH]; [reflexivity|].
  rewrite collapse_hyphens_cons. destruct t as [|d t']; [reflexivity|].
  destruct (is_hyphen c && is_hyphen d); simpl in *; lia.
Qed.

Lemma trim_length s : (length (trim s) <= length s)%nat.
Proof.
  unfold trim. destruct (trim_start_suffix s) as [p [E _]].
  destruct (trim_end_prefix (trim_start s)) as [q [E' _]].
  rewrite E at 2. rewrite E' at 2. rewrite !length_app. lia.
Qed.

(** A name that the fourth step does not cut ends clean. *)
Lemma sanitizeFilename_not_cut x :
  (length (trim (collapse_hyphens (replace_invalid x))) <= 200)%nat ->
  ends_clean (sanitizeFilename x).
Proof.
  intros Hs. unfold sanitizeFilename.
  set (s := trim (collapse_hyphens (replace_invalid x))) in *.
  replace (200 <? Z.of_nat (length s)) with false by (symmetry; apply Z.ltb_ge; lia).
  destruct (decide (s = [])); [reflexivity|].
  unfold s, trim. apply trim_end_clean.
Qed.

(** A name of at most 200 characters is not cut. *)
Lemma sanitizeFilename_short x :
  (length x <= 200)%nat -> ends_clean (sanitizeFilename x).
Proof.
  intros Hx. apply sanitizeFilename_not_cut.
  pose proof (trim_length (collapse_hyphens (replace_invalid x))).
  pose proof (collapse_hyphens_length (replace_invalid x)).
  unfold replace_invalid in *. rewrite length_map in *. lia.
Qed.

(** C6, amended.  Sanitizing twice is sanitizing once whenever the sanitized
    name does not end with a space or a hyphen; this is so for every name
    that is not cut to 200 characters. *)
Theorem sanitizeFilename_idempotent_unless_cut x :
  ends_clean (sanitizeFilename x) ->
  sanitizeFilename (sanitizeFilename x) = sanitizeFilename x.
Proof. intros H. rewrite sanitizeFilename_twice. apply trim_end_id, H. Qed.

Lemma sanitizeFilename_idempotent_unless_cut_witness :
  ends_clean (sanitizeFilename (js " --a//b??c-- ")) /\
  sanitizeFilename (sanitizeFilename (js " --a//b??c-- "))
    = sanitizeFilename (js " --a//b??c-- ").
Proof.
  split.
  - reflexivity.
  - apply sanitizeFilename_idempotent_unless_cut. reflexivity.
Defined.

(** The condition is needed: sanitizing twice is sanitizing once only if the
    sanitized name ends clean. *)
Lemma sanitizeFilename_idempotent_only_if x :
  sanitizeFilename (sanitizeFilename x) = sanitizeFilename x ->
  ends_clean (sanitizeFilename x).
Proof.
  rewrite sanitizeFilename_twice. intros E. rewrite <- E. apply trim_end_clean.
Qed.

(** C6 as claimed fails.  A name of 201 characters with a space at place
    200 is cut after the space; the second pass removes the space. *)
Lemma sanitizeFilename_not_idempotent :
  let x := repeat "a"%char 199 ++ js " b" in
  sanitizeFilename x = repeat "a"%char 199 ++ js " " /\
  sanitizeFilename (sanitizeFilename x) = repeat "a"%char 199 /\
  sanitizeFilename (sanitizeFilename x) <> sanitizeFilename x.
Proof.
  intros x. assert (E1 : sanitizeFilename x = repeat "a"%char 199 ++ js " ")
    by (vm_compute; reflexivity).
  assert (E2 : sanitizeFilename (repeat "a"%char 199 ++ js " ") = repeat "a"%char 199)
    by (vm_compute; reflexivity).
  rewrite E1, E2. repeat split.
  intros H. apply (f_equal length) in H. vm_compute in H. discriminate.
Qed.

(** *** Decimal numerals *)

Lemma to_int_not_nil z :
  Z.to_int z <> Decimal.Pos Decimal.Nil /\ Z.to_int z <> Decimal.Neg Decimal.Nil.
Proof.
  destruct z as [|p|p]; simpl; split; try discriminate;
    intros H; injection H as H; exact (DecimalPos.Unsigned.to_uint_nonnil p H).
Qed.

Lemma js_inj s t : js s = js t -> s = t.
Proof.
  unfold js. intros H. apply (f_equal string_of_list_ascii) in H.
  rewrite !string_of_list_ascii_of_string in H. exact H.
Qed.

(** Two integers with the same numeral are equal. *)
Lemma toString_inj n m : toString n = toString m -> n = m.
Proof.
  unfold toString. intros H. apply js_inj in H.
  apply DecimalZ.to_int_inj.
  destruct (to_int_not_nil n) as [Hn1 Hn2], (to_int_not_nil m) as [Hm1 Hm2].
  pose proof (NilZero.isi _ Hn1 Hn2) as En.
  pose proof (NilZero.isi _ Hm1 Hm2) as Em.
  rewrite H in En. congruence.
Qed.

(** *** [gcd] *)

(** Beyond [|b|] turns the fuel of [gcd_fuel] does not matter: the call
    with [b = 0] is reached. *)
Lemma gcd_fuel_enough fuel fuel' a b :
  (Z.abs_nat b < fuel)%nat -> (Z.abs_nat b < fuel')%nat ->
  gcd_fuel fuel a b = gcd_fuel fuel' a b.
Proof.
  revert fuel' a b. induction fuel as [|f IH]; intros fuel' a b H H'; [lia|].
  destruct fuel' as [|f']; [lia|]. simpl.
  destruct (b =? 0) eqn:E; [reflexivity|].
  apply Z.eqb_neq in E.
  pose proof (Z.rem_bound_abs a b E).
  apply IH; lia.
Qed.

Lemma gcd_eq a b : gcd a b = if b =? 0 then a else gcd b (Z.rem a b).
Proof.
  unfold gcd.
  change (gcd_fuel (S (Z.abs_nat b)) a b)
    with (if b =? 0 then a else gcd_fuel (Z.abs_nat b) b (Z.rem a b)).
  destruct (b =? 0) eqn:E; [reflexivity|].
  apply Z.eqb_neq in E. pose proof (Z.rem_bound_abs a b E).
  apply gcd_fuel_enough; lia.
Qed.

(** *** [getUniqueFilename] *)

Lemma numbered_inj nameWithoutExt ext : Inj eq eq (numbered nameWithoutExt ext).
Proof.
  intros j k H. unfold numbered in H.
  apply app_inv_head in H. simpl in H. injection H as H.
  apply toString_inj. eapply app_inv_tail. exact H.
Qed.

(** The loop returns a free name as soon as one of the names it can still
    reach is free. *)
Lemma getUniqueFilename_loop_free (fuel : nat) (existingNames : gset jsstring)
    (nameWithoutExt ext uniqueName : jsstring) (counter : Z) :
  uniqueName ∉ existingNames \/
  (exists j, counter <= j < counter + Z.of_nat fuel /\
             numbered nameWithoutExt ext j ∉ existingNames) ->
  getUniqueFilename_loop fuel existingNames nameWithoutExt ext uniqueName counter
    ∉ existingNames.
Proof.
  revert uniqueName counter.
  induction fuel as [|f IH]; intros uniqueName counter H; simpl.
  - destruct (decide (uniqueName ∈ existingNames)) as [Hin|Hout]; [|exact Hout].
    destruct H as [H|[j [Hj _]]]; [contradiction | lia].
  - destruct (decide (uniqueName ∈ existingNames)) as [Hin|Hout]; [|exact Hout].
    apply IH.
    destruct H as [H|[j [Hj Hfree]]]; [contradiction|].
    destruct (decide (j = counter)) as [->|Hne]; [left; exact Hfree|].
    right. exists j. split; [lia | exact Hfree].
Qed.

(** Among [size existingNames + 1] numbered names one is free. *)
Lemma numbered_free (existingNames : gset jsstring) (nameWithoutExt ext : jsstring) :
  exists j, 1 <= j < 1 + Z.of_nat (S (size existingNames)) /\
            numbered nameWithoutExt ext j ∉ existingNames.
Proof.
  set (n := S (size existingNames)).
  set (cands := numbered nameWithoutExt ext <$> seqZ 1 (Z.of_nat n)).
  destruct (decide (Forall (fun c => c ∈ existingNames) cands)) as [Hall|Hex].
  - exfalso.
    assert (Hsub : list_to_set cands ⊆ existingNames).
    { intros c Hc. apply elem_of_list_to_set in Hc.
      rewrite Forall_forall in Hall. apply Hall, Hc. }
    apply subseteq_size in Hsub.
    rewrite size_list_to_set in Hsub.
    + unfold cands in Hsub. rewrite length_fmap, length_seqZ in Hsub. lia.
    + apply NoDup_fmap_2; [apply numbered_inj | apply NoDup_seqZ].
  - apply not_Forall_Exists in Hex; [|intros c; apply _].
    apply Exists_exists in Hex as [c [Hc Hfree]].
    apply list_elem_of_fmap in Hc as [j [-> Hj]].
    apply elem_of_seqZ in Hj. exists j. split; [lia | exact Hfree].
Qed.

(** [getUniqueFilename] leaves its loop through the loop's test: the name
    it returns is not in the set. *)
Lemma getUniqueFilename_free (preferredName : jsstring) (existingNames : gset jsstring) :
  getUniqueFilename preferredName existingNames ∉ existingNames.
Proof.
  unfold getUniqueFilename. apply getUniqueFilename_loop_free. right.
  apply numbered_free.
Qed.

(** A free name is kept. *)
Lemma getUniqueFilename_keeps (preferredName : jsstring) (existingNames : gset jsstring) :
  preferredName ∉ existingNames ->
  getUniqueFilename preferredName existingNames = preferredName.
Proof.
  intros H. unfold getUniqueFilename. simpl.
  destruct (decide (preferredName ∈ existingNames)); [contradiction | reflexivity].
Qed.

(** *** The functions at work *)

Example sanitizeFilename_example :
  sanitizeFilename (js " --my/photo??2024: final-- ") = js "my-photo-2024- final".
Proof. reflexivity. Qed.

Example sanitizeFilename_empty : sanitizeFilename (js " -- - ") = js "untitled".
Proof. reflexivity. Qed.

(** A dollar in the replacement text is read by [replace]: a file named
    [a$&b.png] puts the placeholder back into its own name. *)
Example replace_all_dollar :
  replace_all (js "{name}") (js "a$&b") (js "{name}_{index}") = js "a{name}b_{index}".
Proof. reflexivity. Qed.

Example parseFilenameTemplate_example :
  parseFilenameTemplate (js "{name}_{width}x{height}_{ratio}_{index}.{ext}")
    {| originalName := js "my.photo.jpeg"; outputWidth := 1200; outputHeight := 800;
       outputFormat := png; presetName := None; timestamp := 17; index := 0 |}
  = js "my.photo_1200x800_3x2_1.png".
Proof. vm_compute. reflexivity. Qed.

Example getUniqueFilename_example :
  getUniqueFilename (js "a.png") {[ js "a.png"; js "a(1).png" ]} = js "a(2).png".
Proof. vm_compute. reflexivity. Qed.

End FilenameFacts.

(** ** Flood-fill background removal *)

Module FloodFillFacts.
Import FloodFill.
Local Open Scope Z_scope.

(** *** Typed arrays *)

Lemma get_Some (a : list Z) i v : get a i = Some v -> 0 <= i < Z.of_nat (length a).
Proof.
  unfold get. destruct (i <? 0) eqn:E; [discriminate|].
  apply Z.ltb_ge in E. intros H. apply lookup_lt_Some in H. lia.
Qed.

Lemma get_in_range (a : list Z) i : 0 <= i < Z.of_nat (length a) -> exists v, get a i = Some v.
Proof.
  intros H. unfold get. replace (i <? 0) with false by (symmetry; apply Z.ltb_ge; lia).
  apply lookup_lt_is_Some. lia.
Qed.

Lemma length_set (a : list Z) i v : length (set a i v) = length a.
Proof. unfold set. destruct (i <? 0); [reflexivity | apply length_insert]. Qed.

Lemma get_set_eq (a : list Z) i v :
  0 <= i < Z.of_nat (length a) -> get (set a i v) i = Some v.
Proof.
  intros H. unfold get, set.
  replace (i <? 0) with false by (symmetry; apply Z.ltb_ge; lia).
  apply list_lookup_insert_eq. lia.
Qed.

Lemma get_set_ne (a : list Z) i j v : i <> j -> get (set a i v) j = get a j.
Proof.
  intros H. unfold get, set.
  destruct (j <? 0) eqn:Ej; [reflexivity|].
  destruct (i <? 0) eqn:Ei; [reflexivity|].
  apply Z.ltb_ge in Ei, Ej. apply list_lookup_insert_ne. lia.
Qed.

Lemma zeros_set_1 mask i : get mask i = Some 0 -> S (zeros (set mask i 1)) = zeros mask.
Proof.
  intros H. pose proof (get_Some _ _ _ H) as Hr.
  unfold get in H. unfold set.
  replace (i <? 0) with false in * by (symmetry; apply Z.ltb_ge; lia).
  unfold zeros. rewrite insert_take_drop by lia.
  rewrite <- (take_drop_middle mask (Z.to_nat i) 0 H) at 3.
  rewrite !filter_app, !length_app.
  rewrite (filter_cons_True _ 0) by reflexivity.
  rewrite (filter_cons_False _ 1) by discriminate.
  simpl. lia.
Qed.

(** *** The flood fill stops *)

(** A visit either leaves the state alone or pushes one pixel and marks one
    pixel that was not visited. *)
Lemma visit_cases width height data bg tolerance queue mask n :
  visit width height data bg tolerance (queue, mask) n = (queue, mask) \/
  (exists nx ny, n = (nx, ny) /\
     0 <= nx < width /\ 0 <= ny < height /\
     get mask (ny * width + nx) = Some 0 /\
     colorDistance_below (get data ((ny * width + nx) * 4),
                          get data ((ny * width + nx) * 4 + 1),
                          get data ((ny * width + nx) * 4 + 2)) bg tolerance = true /\
     visit width height data bg tolerance (queue, mask) n
       = (queue ++ [(nx, ny)], set mask (ny * width + nx) 1)).
Proof.
  destruct n as [nx ny]. unfold visit.
  destruct ((0 <=? nx) && (nx <? width) && (0 <=? ny) && (ny <? height)) eqn:Hb;
    [|left; reflexivity].
  destruct (get mask (ny * width + nx)) as [[| |]|] eqn:Hm; try (left; reflexivity).
  destruct (colorDistance_below _ bg tolerance) eqn:Hc; [|left; reflexivity].
  right. exists nx, ny.
  repeat (apply andb_true_iff in Hb as [Hb ?]).
  repeat split; try lia; assumption.
Qed.

Lemma visit_measure width height data bg tolerance queue mask n :
  let '(queue', mask') := visit width height data bg tolerance (queue, mask) n in
  (length queue' + zeros mask' = length queue + zeros mask)%nat /\
  (length queue <= length queue')%nat.
Proof.
  destruct (visit_cases width height data bg tolerance queue mask n)
    as [->|(nx & ny & _ & _ & _ & Hm & _ & ->)]; [split; reflexivity|].
  pose proof (zeros_set_1 _ _ Hm). rewrite length_app. simpl length. lia.
Qed.

Lemma visits_measure width height data bg tolerance neighbors queue mask :
  let '(queue', mask') :=
    fold_left (visit width height data bg tolerance) neighbors (queue, mask) in
  (length queue' + zeros mask' = length queue + zeros mask)%nat /\
  (length queue <= length queue')%nat.
Proof.
  revert queue mask. induction neighbors as [|n rest IH]; intros queue mask;
    [split; reflexivity|].
  cbn [fold_left]. pose proof (visit_measure width height data bg tolerance queue mask n) as H.
  destruct (visit width height data bg tolerance (queue, mask) n) as [q1 m1].
  specialize (IH q1 m1).
  destruct (fold_left _ rest (q1, m1)) as [q2 m2]. lia.
Qed.

(** With more fuel than there are pixels waiting in the queue or not visited,
    the loop stops because [head < queue.length] fails. *)
Lemma flood_stops fuel width height data bg tolerance queue head mask :
  (length queue - head + zeros mask < fuel)%nat ->
  let '(queue', head', _) := flood fuel width height data bg tolerance queue head mask in
  queue' !! head' = None.
Proof.
  revert queue head mask. induction fuel as [|fuel IH]; intros queue head mask Hf; [lia|].
  cbn [flood]. destruct (queue !! head) as [[x y]|] eqn:Hq; [|exact Hq].
  pose proof (visits_measure width height data bg tolerance
                [(x, y - 1); (x, y + 1); (x - 1, y); (x + 1, y)] queue mask) as Hm.
  destruct (fold_left _ _ (queue, mask)) as [q1 m1].
  apply lookup_lt_Some in Hq.
  apply IH. lia.
Qed.

(** *** The mask is applied to the alpha bytes only *)

Lemma faded_refl d : faded d d.
Proof. split; [reflexivity|]. intros k v H. exists v. split; [exact H | lia]. Qed.

Lemma faded_trans d1 d2 d3 : faded d1 d2 -> faded d2 d3 -> faded d1 d3.
Proof.
  intros [L1 H1] [L2 H2]. split; [congruence|].
  intros k v Hk. destruct (H1 k v Hk) as (v' & Hk' & Hle & Heq).
  destruct (H2 k v' Hk') as (v'' & Hk'' & Hle' & Heq').
  exists v''. split; [exact Hk''|]. split; [lia|]. intros Hm.
  rewrite Heq' by exact Hm. apply Heq, Hm.
Qed.

(** Writing a smaller value into an alpha byte. *)
Lemma faded_set d i a v :
  get d (i * 4 + 3) = Some a -> v <= a -> faded d (set d (i * 4 + 3) v).
Proof.
  intros Ha Hv. pose proof (get_Some _ _ _ Ha) as Hr.
  split; [apply length_set|].
  intros k w Hk. unfold set, get in *.
  replace (i * 4 + 3 <? 0) with false in * by (symmetry; apply Z.ltb_ge; lia).
  destruct (decide (k = Z.to_nat (i * 4 + 3))) as [->|Hne].
  - exists v. rewrite list_lookup_insert_eq by lia.
    split; [reflexivity|]. split; [congruence|].
    intros Hm. exfalso. apply Hm. rewrite Z2Nat.id by lia.
    rewrite Z.add_comm, Z.mod_add by lia. reflexivity.
  - exists w. rewrite list_lookup_insert_ne by congruence.
    split; [exact Hk | lia].
Qed.

Lemma set_out_of_range (a : list Z) i v : get a i = None -> set a i v = a.
Proof.
  unfold get, set. destruct (i <? 0); [reflexivity|].
  intros H. apply list_insert_ge, lookup_ge_None, H.
Qed.

(** A turn of the last pass leaves the data alone or writes 0 or the half
    into the alpha byte of pixel [i]. *)
Lemma apply_step_cases mask d i :
  apply_step mask d i = d \/
  (exists a v, get d (i * 4 + 3) = Some a /\ (v = 0 \/ v = a / 2) /\
               apply_step mask d i = set d (i * 4 + 3) v).
Proof.
  unfold apply_step.
  destruct (get mask i) as [[|p|p]|]; try (left; reflexivity).
  destruct p as [[p|p|]|[p|p|]|]; try (left; reflexivity).
  - destruct (get d (i * 4 + 3)) as [a|] eqn:Ha; [|left; reflexivity].
    right. exists a, (a / 2). auto.
  - destruct (get d (i * 4 + 3)) as [a|] eqn:Ha.
    + right. exists a, 0. auto.
    + left. apply set_out_of_range, Ha.
Qed.

Lemma apply_step_faded mask d i :
  Forall (fun v => 0 <= v) d ->
  Forall (fun v => 0 <= v) (apply_step mask d i) /\ faded d (apply_step mask d i).
Proof.
  intros Hd.
  destruct (apply_step_cases mask d i) as [->|(a & v & Ha & Hv & ->)];
    [split; [exact Hd | apply faded_refl]|].
  assert (0 <= a).
  { unfold get in Ha. destruct (_ <? 0); [discriminate|].
    rewrite Forall_lookup in Hd. eapply Hd, Ha. }
  assert (0 <= v <= a).
  { destruct Hv as [->| ->]; [lia|].
    split; [apply Z.div_pos; lia | apply Z.div_le_upper_bound; lia]. }
  split; [|eapply faded_set; [exact Ha | lia]].
  unfold set. destruct (_ <? 0); [exact Hd|].
  apply Forall_insert; [exact Hd | lia].
Qed.

Lemma apply_steps_faded mask idxs d :
  Forall (fun v => 0 <= v) d ->
  faded d (fold_left (apply_step mask) idxs d).
Proof.
  revert d. induction idxs as [|i rest IH]; intros d Hd; [apply faded_refl|].
  cbn [fold_left]. destruct (apply_step_faded mask d i Hd) as [Hd' Hf].
  eapply faded_trans; [exact Hf | apply IH, Hd'].
Qed.

(** The data written back differ from the data read in alpha bytes only,
    and no alpha byte has grown. *)
Lemma removeImageBackground_faded imageData :
  Forall (fun v => 0 <= v) (data imageData) ->
  faded (data imageData) (removeImageBackground imageData).
Proof. intros H. unfold removeImageBackground. apply apply_steps_faded, H. Qed.

Lemma wf_nonneg imageData : wf_ImageData imageData -> Forall (fun v => 0 <= v) (data imageData).
Proof. intros [_ _ _ H]. eapply Forall_impl; [exact H|]. simpl. intros; lia. Qed.

(** C10.  For every image as [getImageData] returns it and every pixel [i] of
    it, [removeImageBackground] leaves the red, green and blue byte of the
    pixel as they are, and the alpha byte it leaves is at most the alpha
    byte it found. *)
Theorem removeImageBackground_alpha_only imageData i :
  wf_ImageData imageData ->
  0 <= i < width imageData * height imageData ->
  let out := removeImageBackground imageData in
  length out = length (data imageData) /\
  red out i = red (data imageData) i /\
  green out i = green (data imageData) i /\
  blue out i = blue (data imageData) i /\
  exists a a', alpha (data imageData) i = Some a /\ alpha out i = Some a' /\ 0 <= a' <= a.
Proof.
  intros Hwf Hi out.
  pose proof (wf_nonneg _ Hwf) as Hnn.
  destruct (removeImageBackground_faded imageData Hnn) as [Hlen Hf]. fold out in Hlen, Hf.
  pose proof (wf_length _ Hwf) as Hl.
  assert (Hsame : forall j, 0 <= j < 3 -> get out (i * 4 + j) = get (data imageData) (i * 4 + j)).
  { intros j Hj. unfold get.
    replace (i * 4 + j <? 0) with false by (symmetry; apply Z.ltb_ge; lia).
    destruct (lookup_lt_is_Some_2 (data imageData) (Z.to_nat (i * 4 + j))) as [v Hv]; [lia|].
    destruct (Hf _ _ Hv) as (v' & Hv' & _ & Heq).
    rewrite Hv, Hv'. f_equal. apply Heq.
    rewrite Z2Nat.id by lia. rewrite Z.add_comm, Z.mod_add by lia.
    rewrite Z.mod_small; lia. }
  split; [exact Hlen|].
  split; [unfold red; rewrite <- (Z.add_0_r (i * 4)); apply Hsame; lia|].
  split; [apply Hsame; lia|]. split; [apply Hsame; lia|].
  unfold alpha, get.
  replace (i * 4 + 3 <? 0) with false by (symmetry; apply Z.ltb_ge; lia).
  destruct (lookup_lt_is_Some_2 (data imageData) (Z.to_nat (i * 4 + 3))) as [v Hv]; [lia|].
  destruct (Hf _ _ Hv) as (v' & Hv' & Hle & _).
  exists v, v'. split; [exact Hv|]. split; [exact Hv'|]. split; [|exact Hle].
  assert (Hnn' : Forall (fun v => 0 <= v) out).
  { unfold out, removeImageBackground.
    generalize (seqZ 0 (Z.of_nat (length (backgroundMask imageData)))).
    generalize (backgroundMask imageData). intros mask idxs.
    revert Hnn. generalize (data imageData).
    induction idxs as [|k rest IH]; intros d Hd; [exact Hd|].
    cbn [fold_left]. apply IH. apply apply_step_faded, Hd. }
  rewrite Forall_lookup in Hnn'. eapply Hnn', Hv'.
Qed.

(** *** A picture of one colour *)

Section OneColour.
Variable imageData : ImageData.
Variables r g b : Z.
Hypothesis Hwf : wf_ImageData imageData.
Hypothesis Huni : uniform imageData r g b.

Let w := width imageData.
Let h := height imageData.
Let d := data imageData.
Let c : color := (Some r, Some g, Some b).

Local Abbreviation inb := (inside w h).
Local Abbreviation idx := (index w).
Local Abbreviation grows := (grows_in w h).
Local Abbreviation flooding := (flooding_in w h).

Lemma w_pos : 0 < w.
Proof. apply (wf_width _ Hwf). Qed.

Lemma h_pos : 0 < h.
Proof. apply (wf_height _ Hwf). Qed.

(** The colour read at pixel [p]. *)
Lemma pixel_colour p :
  0 <= p < w * h -> (get d (p * 4), get d (p * 4 + 1), get d (p * 4 + 2)) = c.
Proof.
  intros Hp. destruct (Huni p Hp) as (Hr & Hg & Hb).
  unfold red, green, blue in *. fold d in Hr, Hg, Hb. rewrite Hr, Hg, Hb. reflexivity.
Qed.

(** Every sample of [getEdgeColor] is the first byte of a pixel. *)
Lemma samplePoints_pixels :
  Forall (fun s => exists p, 0 <= p < w * h /\ s = p * 4) (samplePoints w h).
Proof.
  pose proof w_pos. pose proof h_pos.
  unfold samplePoints. repeat rewrite Forall_app. repeat split;
    apply Forall_forall; intros s Hs; apply list_elem_of_fmap in Hs as [i [-> Hi]];
    apply elem_of_seqZ in Hi.
  - exists i. split; [nia | reflexivity].
  - exists ((h - 1) * w + i). split; [nia | ring].
  - exists (i * w). split; [nia | ring].
  - exists (i * w + (w - 1)). split; [nia | ring].
Qed.

Lemma edge_step_colour st s :
  (exists p, 0 <= p < w * h /\ s = p * 4) ->
  0 <= maxCount st ->
  (forall k v, colorCounts st !! k = Some v -> 0 <= v) ->
  (dominantColor st = c \/ maxCount st = 0) ->
  dominantColor (edge_step d st s) = c /\ 0 <= maxCount (edge_step d st s) /\
  (forall k v, colorCounts (edge_step d st s) !! k = Some v -> 0 <= v).
Proof.
  intros [p [Hp ->]] Hmax Hcounts Hdom. unfold edge_step.
  rewrite (pixel_colour p Hp). cbv zeta.
  match goal with |- context [maxCount st <? ?n] => set (count := n) end.
  match goal with |- context [<[c := count]> ?m] => set (counts := <[c := count]> m) end.
  assert (Hc : 1 <= count).
  { unfold count.
    match goal with |- context [default 0 ?o] => destruct o as [v|] eqn:E end; simpl.
    - pose proof (Hcounts _ _ E). lia.
    - lia. }
  assert (Hcounts' : forall k v, counts !! k = Some v -> 0 <= v).
  { intros k v. unfold counts. destruct (decide (c = k)) as [<-|Hne].
    - rewrite lookup_insert_eq. intros [= <-]. lia.
    - rewrite lookup_insert_ne by exact Hne. apply Hcounts. }
  destruct (maxCount st <? count) eqn:E; simpl.
  - split; [reflexivity|]. split; [lia | exact Hcounts'].
  - apply Z.ltb_ge in E. split; [|split; [exact Hmax | exact Hcounts']].
    destruct Hdom as [Hd|Hz]; [exact Hd | lia].
Qed.

Lemma edge_steps_colour samples st :
  Forall (fun s => exists p, 0 <= p < w * h /\ s = p * 4) samples ->
  0 <= maxCount st ->
  (forall k v, colorCounts st !! k = Some v -> 0 <= v) ->
  (dominantColor st = c \/ (maxCount st = 0 /\ samples <> [])) ->
  dominantColor (fold_left (edge_step d) samples st) = c.
Proof.
  revert st. induction samples as [|s rest IH]; intros st Hs Hmax Hcounts Hdom.
  - destruct Hdom as [H|[_ H]]; [exact H | congruence].
  - cbn [fold_left]. inversion Hs as [|? ? Hs1 Hs2]; subst.
    destruct (edge_step_colour st s Hs1 Hmax Hcounts) as (Hd' & Hmax' & Hcounts').
    { destruct Hdom as [H|[H _]]; [left; exact H | right; exact H]. }
    apply IH; auto.
Qed.

(** The colour of the picture is the colour [getEdgeColor] finds. *)
Lemma getEdgeColor_uniform : getEdgeColor imageData = c.
Proof.
  unfold getEdgeColor. fold w h d. apply edge_steps_colour.
  - apply samplePoints_pixels.
  - simpl. lia.
  - intros k v. simpl. rewrite lookup_empty. discriminate.
  - right. split; [reflexivity|].
    unfold samplePoints. pose proof w_pos.
    rewrite (seqZ_cons 0 w) by lia. discriminate.
Qed.

Lemma colour_close : colorDistance_below c c 20 = true.
Proof.
  unfold colorDistance_below, c. rewrite !Z.sub_diag. reflexivity.
Qed.

Lemma idx_range x y : inb x y -> 0 <= idx x y < w * h.
Proof. unfold inside, index. nia. Qed.

Lemma idx_inj x y x' y' : inb x y -> inb x' y' -> idx x y = idx x' y' -> (x, y) = (x', y').
Proof.
  unfold inside, index. intros H H' E.
  assert (y = y') by nia. subst y'. f_equal. lia.
Qed.

Lemma binary_set mask j : binary mask -> binary (set mask j 1).
Proof.
  intros H. unfold set. destruct (j <? 0); [exact H|].
  apply Forall_insert; [exact H | right; reflexivity].
Qed.

Lemma get_set_1 mask j k : get mask k = Some 1 -> get (set mask j 1) k = Some 1.
Proof.
  intros H. destruct (decide (j = k)) as [->|Hne].
  - apply get_set_eq. eapply get_Some, H.
  - rewrite get_set_ne by exact Hne. exact H.
Qed.

Lemma grows_refl queue mask : grows queue mask queue mask.
Proof.
  split; [reflexivity|]. split; [auto|]. split; [auto|].
  exists []. split; [symmetry; apply app_nil_r|].
  split; [intros x y H; inversion H | auto].
Qed.

Lemma grows_trans q1 m1 q2 m2 q3 m3 :
  grows q1 m1 q2 m2 -> grows q2 m2 q3 m3 -> grows q1 m1 q3 m3.
Proof.
  intros (L1 & B1 & M1 & e1 & -> & I1 & K1) (L2 & B2 & M2 & e2 & -> & I2 & K2).
  split; [congruence|]. split; [auto|]. split; [auto|].
  exists (e1 ++ e2). split; [symmetry; apply app_assoc|]. split.
  - intros x y H. apply elem_of_app in H as [H|H].
    + destruct (I1 x y H) as [Hin Hm]. split; [exact Hin | apply M2, Hm].
    + apply I2, H.
  - intros x y Hin Hm. destruct (K2 x y Hin Hm) as [H|H].
    + destruct (K1 x y Hin H) as [H'|H']; [left; exact H'|].
      right. apply elem_of_app. left. exact H'.
    + right. apply elem_of_app. right. exact H.
Qed.

(** A visit in the picture of one colour: the neighbour, if inside, is
    marked afterwards. *)
Lemma visit_uniform queue mask nx ny :
  Z.of_nat (length mask) = w * h -> binary mask ->
  let '(queue', mask') := visit w h d c 20 (queue, mask) (nx, ny) in
  grows queue mask queue' mask' /\ (inb nx ny -> get mask' (idx nx ny) = Some 1).
Proof.
  intros Hlen Hbin.
  destruct (visit_cases w h d c 20 queue mask (nx, ny))
    as [E|(nx' & ny' & [= <- <-] & Hx & Hy & Hm & _ & E)]; rewrite E.
  - split; [apply grows_refl|]. intros Hin.
    unfold visit in E. destruct Hin as [Hx Hy].
    replace ((0 <=? nx) && (nx <? w) && (0 <=? ny) && (ny <? h)) with true in E
      by (symmetry; repeat (apply andb_true_iff; split); lia).
    fold (idx nx ny) in *.
    destruct (get_in_range mask (idx nx ny)) as [v Hv].
    { rewrite Hlen. apply idx_range. split; assumption. }
    rewrite Hv in E |- *.
    assert (Hv01 : v = 0 \/ v = 1).
    { unfold get in Hv. destruct (_ <? 0); [discriminate|].
      unfold binary in Hbin. rewrite Forall_lookup in Hbin. eapply Hbin, Hv. }
    destruct Hv01 as [-> | ->]; [|reflexivity].
    exfalso. rewrite (pixel_colour (idx nx ny)) in E
      by (apply idx_range; split; assumption).
    rewrite colour_close in E. injection E as Eq _.
    apply (f_equal (@length _)) in Eq. rewrite length_app in Eq. simpl in Eq. lia.
  - fold (idx nx ny) in *. split.
    + split; [apply length_set|]. split; [apply binary_set|].
      split; [intros j; apply get_set_1|].
      exists [(nx, ny)]. split; [reflexivity|]. split.
      * intros x y H. apply list_elem_of_singleton in H. injection H as -> ->.
        split; [split; assumption|]. apply get_set_eq. eapply get_Some, Hm.
      * intros x y Hin H. destruct (decide (idx nx ny = idx x y)) as [Eq|Hne].
        -- right. apply list_elem_of_singleton. symmetry.
           apply idx_inj; [split; assumption | exact Hin | exact Eq].
        -- left. rewrite get_set_ne in H by exact Hne. exact H.
    + intros _. apply get_set_eq. eapply get_Some, Hm.
Qed.

Lemma grows_length q m q' m' : grows q m q' m' -> length m' = length m.
Proof. intros [H _]. exact H. Qed.

Lemma grows_binary q m q' m' : grows q m q' m' -> binary m -> binary m'.
Proof. intros (_ & H & _). exact H. Qed.

Lemma grows_marked q m q' m' j : grows q m q' m' -> get m j = Some 1 -> get m' j = Some 1.
Proof. intros (_ & _ & H & _). apply H. Qed.

(** After the visits of a list of neighbours each of them that is inside is
    marked. *)
Lemma visits_uniform neighbors queue mask :
  Z.of_nat (length mask) = w * h -> binary mask ->
  let '(queue', mask') := fold_left (visit w h d c 20) neighbors (queue, mask) in
  grows queue mask queue' mask' /\
  (forall nx ny, (nx, ny) ∈ neighbors -> inb nx ny -> get mask' (idx nx ny) = Some 1).
Proof.
  revert queue mask. induction neighbors as [|[nx ny] rest IH]; intros queue mask Hlen Hbin.
  - split; [apply grows_refl|]. intros nx ny H. inversion H.
  - cbn [fold_left]. pose proof (visit_uniform queue mask nx ny Hlen Hbin) as H1.
    destruct (visit w h d c 20 (queue, mask) (nx, ny)) as [q1 m1].
    destruct H1 as [G1 V1].
    specialize (IH q1 m1).
    destruct (fold_left _ rest (q1, m1)) as [q2 m2].
    destruct IH as [G2 V2].
    { rewrite (grows_length _ _ _ _ G1). exact Hlen. }
    { eapply grows_binary; eassumption. }
    split; [eapply grows_trans; eassumption|].
    intros x y Hin Hb. apply elem_of_cons in Hin as [[= -> ->]|Hin].
    + eapply grows_marked; [exact G2 | apply V1, Hb].
    + apply V2; assumption.
Qed.

Lemma flood_flooding fuel queue head mask :
  flooding queue head mask ->
  let '(queue', head', mask') := flood fuel w h d c 20 queue head mask in
  flooding queue' head' mask'.
Proof.
  revert queue head mask. induction fuel as [|fuel IH]; intros queue head mask Hinv;
    [exact Hinv|].
  cbn [flood]. destruct (queue !! head) as [[x y]|] eqn:Hq; [|exact Hinv].
  destruct Hinv as [Hlen Hbin Hqueue Hdone Hmarked Hleft].
  pose proof (visits_uniform [(x, y - 1); (x, y + 1); (x - 1, y); (x + 1, y)]
                queue mask Hlen Hbin) as Hv.
  destruct (fold_left _ _ (queue, mask)) as [q1 m1].
  destruct Hv as [G V]. apply IH.
  destruct G as (L & B & M & more & -> & I & K).
  split.
  - rewrite L. exact Hlen.
  - auto.
  - intros x' y' H. apply elem_of_app in H as [H|H]; [|apply I, H].
    destruct (Hqueue x' y' H) as [Hin Hm]. split; [exact Hin | apply M, Hm].
  - intros k x' y' Hk Hl nx ny Hn Hb.
    assert (Hk' : (k < length queue)%nat) by (apply lookup_lt_Some in Hq; lia).
    rewrite lookup_app_l in Hl by exact Hk'.
    destruct (decide (k = head)) as [->|Hne].
    + rewrite Hq in Hl. injection Hl as <- <-. apply V; assumption.
    + apply M. eapply Hdone; [|exact Hl|exact Hn|exact Hb]. lia.
  - intros x' y' Hb Hm. apply elem_of_app.
    destruct (K x' y' Hb Hm) as [H|H]; [left; apply Hmarked; assumption | right; exact H].
  - intros y' Hy. apply elem_of_app. left. apply Hleft, Hy.
Qed.

(** Once the loop has stopped with an empty rest of the queue, the whole
    mask is marked. *)
Lemma flooded_all queue head mask :
  flooding queue head mask -> queue !! head = None ->
  forall x y, inb x y -> get mask (idx x y) = Some 1.
Proof.
  intros [Hlen Hbin Hqueue Hdone Hmarked Hleft] Hend.
  apply lookup_ge_None in Hend.
  assert (Hrow : forall n y, 0 <= y < h -> Z.of_nat n < w ->
                             get mask (idx (Z.of_nat n) y) = Some 1).
  { induction n as [|n IH]; intros y Hy Hn.
    - apply Hqueue, Hleft, Hy.
    - assert (Hprev : get mask (idx (Z.of_nat n) y) = Some 1) by (apply IH; lia).
      assert (Hb : inb (Z.of_nat n) y) by (split; lia).
      pose proof (Hmarked _ _ Hb Hprev) as Hin.
      apply list_elem_of_lookup in Hin as [k Hk].
      pose proof (lookup_lt_Some _ _ _ Hk).
      eapply (Hdone k _ _ ltac:(lia) Hk (Z.of_nat (S n)) y).
      + replace (Z.of_nat (S n)) with (Z.of_nat n + 1) by lia.
        do 3 apply list_elem_of_further. apply list_elem_of_here.
      + split; lia. }
  intros x y [Hx Hy]. rewrite <- (Z2Nat.id x) by lia. apply Hrow; [exact Hy | lia].
Qed.

(** *** The seeds *)

Lemma edge_queue_inside x y : (x, y) ∈ edge_queue w h -> inb x y.
Proof.
  pose proof w_pos as Hw. pose proof h_pos as Hh.
  unfold edge_queue. intros H. apply elem_of_app in H as [H|H];
    apply list_elem_of_In, in_flat_map in H as [i [Hi H]];
    apply list_elem_of_In, elem_of_seqZ in Hi;
    simpl in H; destruct H as [[= <- <-]|[[= <- <-]|[]]]; unfold inside; lia.
Qed.

Lemma edge_queue_left y : 0 <= y < h -> (0, y) ∈ edge_queue w h.
Proof.
  pose proof w_pos. intros Hy. unfold edge_queue. apply elem_of_app.
  destruct (decide (y = 0 \/ y = h - 1)) as [Hc|Hc].
  - left. apply list_elem_of_In, in_flat_map. exists 0. split.
    + apply list_elem_of_In, elem_of_seqZ. lia.
    + simpl. destruct Hc as [-> | ->]; auto.
  - right. apply list_elem_of_In, in_flat_map. exists y. split.
    + apply list_elem_of_In, elem_of_seqZ. lia.
    + simpl. auto.
Qed.

Lemma mark_queue_length queue mask : length (mark_queue w queue mask) = length mask.
Proof.
  revert mask. induction queue as [|[x y] rest IH]; intros mask; [reflexivity|].
  unfold mark_queue in *. cbn [fold_left]. rewrite IH. apply length_set.
Qed.

Lemma mark_queue_binary queue mask : binary mask -> binary (mark_queue w queue mask).
Proof.
  revert mask. induction queue as [|[x y] rest IH]; intros mask H; [exact H|].
  unfold mark_queue in *. cbn [fold_left]. apply IH, binary_set, H.
Qed.

Lemma mark_queue_keeps queue mask j :
  get mask j = Some 1 -> get (mark_queue w queue mask) j = Some 1.
Proof.
  revert mask. induction queue as [|[x y] rest IH]; intros mask H; [exact H|].
  unfold mark_queue in *. cbn [fold_left]. apply IH, get_set_1, H.
Qed.

Lemma mark_queue_marks queue mask x y :
  (x, y) ∈ queue -> 0 <= idx x y < Z.of_nat (length mask) ->
  get (mark_queue w queue mask) (idx x y) = Some 1.
Proof.
  revert mask. induction queue as [|[x' y'] rest IH]; intros mask Hin Hr; [inversion Hin|].
  unfold mark_queue in *. cbn [fold_left].
  apply elem_of_cons in Hin as [[= <- <-]|Hin].
  - apply (mark_queue_keeps rest). apply get_set_eq. exact Hr.
  - apply IH; [exact Hin | rewrite length_set; exact Hr].
Qed.

Lemma mark_queue_marked queue mask j :
  get (mark_queue w queue mask) j = Some 1 ->
  get mask j = Some 1 \/ exists x y, (x, y) ∈ queue /\ j = idx x y.
Proof.
  revert mask. induction queue as [|[x y] rest IH]; intros mask H; [left; exact H|].
  unfold mark_queue in *. cbn [fold_left] in H.
  destruct (IH _ H) as [H'|(x' & y' & Hin & ->)].
  - destruct (decide (y * w + x = j)) as [<-|Hne].
    + right. exists x, y. split; [apply list_elem_of_here | reflexivity].
    + left. rewrite get_set_ne in H' by exact Hne. exact H'.
  - right. exists x', y'. split; [apply list_elem_of_further, Hin | reflexivity].
Qed.

Lemma get_replicate_0 n j v : get (replicate n 0) j = Some v -> v = 0.
Proof.
  unfold get. destruct (j <? 0); [discriminate|].
  intros H. apply lookup_replicate in H as [-> _]. reflexivity.
Qed.

(** The state in which the flood fill starts. *)
Lemma flooding_start :
  flooding (edge_queue w h) 0
           (mark_queue w (edge_queue w h) (replicate (Z.to_nat (w * h)) 0)).
Proof.
  pose proof w_pos. pose proof h_pos.
  assert (Hlen : Z.of_nat (length (replicate (Z.to_nat (w * h)) 0)) = w * h).
  { rewrite length_replicate. nia. }
  split.
  - rewrite mark_queue_length. exact Hlen.
  - apply mark_queue_binary. apply Forall_replicate. left. reflexivity.
  - intros x y Hin. pose proof (edge_queue_inside x y Hin) as Hb.
    split; [exact Hb|]. apply mark_queue_marks; [exact Hin|].
    rewrite Hlen. apply idx_range, Hb.
  - intros k x y Hk. lia.
  - intros x y Hb Hm. apply mark_queue_marked in Hm as [Hm|(x' & y' & Hin & E)].
    + apply get_replicate_0 in Hm. discriminate.
    + apply idx_inj in E; [|exact Hb|apply edge_queue_inside, Hin].
      injection E as -> ->. exact Hin.
  - apply edge_queue_left.
Qed.

(** *** C8 *)

Lemma ones_feather_step n i : feather_step w h (replicate n 1) i = replicate n 1.
Proof.
  unfold feather_step. destruct (get (replicate n 1) i) as [v|] eqn:E; [|reflexivity].
  unfold get in E. destruct (i <? 0); [discriminate|].
  apply lookup_replicate in E as [-> _]. reflexivity.
Qed.

Lemma ones_feather n idxs :
  fold_left (feather_step w h) idxs (replicate n 1) = replicate n 1.
Proof.
  induction idxs as [|i rest IH]; [reflexivity|].
  cbn [fold_left]. rewrite ones_feather_step. exact IH.
Qed.

(** In a picture of one colour every pixel is background. *)
Lemma backgroundMask_uniform :
  backgroundMask imageData = replicate (Z.to_nat (w * h)) 1.
Proof.
  unfold backgroundMask. fold w h d. rewrite getEdgeColor_uniform. fold c.
  set (queue := edge_queue w h).
  set (mask1 := mark_queue w queue (replicate (Z.to_nat (w * h)) 0)).
  pose proof (flood_flooding (S (length queue + length mask1)) queue 0 mask1 flooding_start)
    as Hinv.
  pose proof (flood_stops (S (length queue + length mask1)) w h d c 20 queue 0 mask1) as Hstop.
  destruct (flood _ w h d c 20 queue 0 mask1) as [[q2 head2] mask2].
  assert (Hend : q2 !! head2 = None).
  { apply Hstop. unfold zeros. pose proof (length_filter (fun v => v = 0) mask1). lia. }
  assert (Hones : mask2 = replicate (Z.to_nat (w * h)) 1).
  { pose proof (flooding_length _ _ _ _ _ Hinv) as Hlen.
    pose proof w_pos.
    apply list_eq. intros k.
    destruct (decide (k < Z.to_nat (w * h))%nat) as [Hk|Hk].
    - rewrite lookup_replicate_2 by exact Hk.
      pose proof (flooded_all _ _ _ Hinv Hend (Z.of_nat k mod w) (Z.of_nat k / w)) as Hm.
      assert (Hb : inb (Z.of_nat k mod w) (Z.of_nat k / w)).
      { split; [apply Z.mod_pos_bound; lia|].
        split; [apply Z.div_pos; lia | apply Z.div_lt_upper_bound; lia]. }
      specialize (Hm Hb). unfold index in Hm.
      replace (Z.of_nat k / w * w + Z.of_nat k mod w) with (Z.of_nat k) in Hm
        by (rewrite (Z.div_mod (Z.of_nat k) w) at 1; lia).
      unfold get in Hm. replace (Z.of_nat k <? 0) with false in Hm
        by (symmetry; apply Z.ltb_ge; lia).
      rewrite Nat2Z.id in Hm. exact Hm.
    - rewrite lookup_ge_None_2 by lia.
      symmetry. apply lookup_replicate_None. lia. }
  rewrite Hones. apply ones_feather.
Qed.
End OneColour.

Lemma apply_step_ones n data i :
  0 <= i < Z.of_nat n -> apply_step (replicate n 1) data i = set data (i * 4 + 3) 0.
Proof.
  intros Hi. unfold apply_step, get at 1.
  replace (i <? 0) with false by (symmetry; apply Z.ltb_ge; lia).
  rewrite lookup_replicate_2 by lia. reflexivity.
Qed.

Lemma ones_apply_keeps n idxs data j :
  Forall (fun i => 0 <= i < Z.of_nat n) idxs ->
  get data j = Some 0 ->
  get (fold_left (apply_step (replicate n 1)) idxs data) j = Some 0.
Proof.
  intros Hidx. revert data. induction Hidx as [|i rest Hi _ IH]; intros data H; [exact H|].
  cbn [fold_left]. apply IH. rewrite apply_step_ones by exact Hi.
  destruct (decide (i * 4 + 3 = j)) as [<-|Hne].
  - apply get_set_eq. eapply get_Some, H.
  - rewrite get_set_ne by exact Hne. exact H.
Qed.

Lemma ones_apply_length n idxs data :
  Forall (fun i => 0 <= i < Z.of_nat n) idxs ->
  length (fold_left (apply_step (replicate n 1)) idxs data) = length data.
Proof.
  intros Hidx. revert data. induction Hidx as [|i rest Hi _ IH]; intros data; [reflexivity|].
  cbn [fold_left]. rewrite IH, apply_step_ones by exact Hi. apply length_set.
Qed.

(** When all of the mask is background every alpha byte the last pass comes
    by is set to 0. *)
Lemma ones_apply n idxs data i :
  Forall (fun i => 0 <= i < Z.of_nat n) idxs ->
  i ∈ idxs -> i * 4 + 3 < Z.of_nat (length data) ->
  get (fold_left (apply_step (replicate n 1)) idxs data) (i * 4 + 3) = Some 0.
Proof.
  intros Hidx. revert data. induction Hidx as [|k rest Hk Hrest IH]; intros data Hin Hlen;
    [inversion Hin|].
  cbn [fold_left]. apply elem_of_cons in Hin as [->|Hin].
  - apply ones_apply_keeps; [exact Hrest|].
    rewrite apply_step_ones by exact Hk. apply get_set_eq. lia.
  - apply IH; [exact Hin|]. rewrite apply_step_ones by exact Hk.
    rewrite length_set. exact Hlen.
Qed.

Lemma one_colour_3x3_wf : wf_ImageData one_colour_3x3.
Proof. split; [reflexivity | reflexivity | reflexivity | repeat constructor; lia]. Qed.

Lemma framed_3x3_wf : wf_ImageData framed_3x3.
Proof. split; [reflexivity | reflexivity | reflexivity | repeat constructor; lia]. Qed.

Lemma removeImageBackground_alpha_only_witness :
  wf_ImageData framed_3x3 /\ 0 <= 4 < width framed_3x3 * height framed_3x3 /\
  let out := removeImageBackground framed_3x3 in
  length out = length (data framed_3x3) /\
  red out 4 = red (data framed_3x3) 4 /\
  green out 4 = green (data framed_3x3) 4 /\
  blue out 4 = blue (data framed_3x3) 4 /\
  exists a a', alpha (data framed_3x3) 4 = Some a /\ alpha out 4 = Some a' /\ 0 <= a' <= a.
Proof.
  split; [exact framed_3x3_wf|]. split; [simpl; lia|].
  apply removeImageBackground_alpha_only; [exact framed_3x3_wf | simpl; lia].
Defined.

(** The light pixel of the framed picture becomes an edge: its alpha 201
    is halved to 100, its colour stays. *)
Example framed_3x3_centre :
  backgroundMask framed_3x3 = [1; 1; 1; 1; 2; 1; 1; 1; 1] /\
  alpha (removeImageBackground framed_3x3) 4 = Some 100 /\
  red (removeImageBackground framed_3x3) 4 = Some 250.
Proof. vm_compute. repeat split. Qed.

(** C8.  For every image as [getImageData] returns it whose pixels all have
    the same colour, [removeImageBackground] marks every pixel as background
    (none as edge, none as foreground) and sets the alpha byte of every
    pixel to 0. *)
Theorem removeImageBackground_one_colour imageData r g b :
  wf_ImageData imageData ->
  uniform imageData r g b ->
  backgroundMask imageData
    = replicate (Z.to_nat (width imageData * height imageData)) 1 /\
  forall i, 0 <= i < width imageData * height imageData ->
            alpha (removeImageBackground imageData) i = Some 0.
Proof.
  intros Hwf Huni.
  pose proof (backgroundMask_uniform imageData r g b Hwf Huni) as Hmask.
  split; [exact Hmask|].
  intros i Hi. unfold alpha, removeImageBackground. rewrite Hmask.
  rewrite length_replicate.
  pose proof (wf_length _ Hwf).
  apply ones_apply.
  - apply Forall_forall. intros k Hk. apply elem_of_seqZ in Hk. lia.
  - apply elem_of_seqZ. lia.
  - lia.
Qed.
Lemma one_colour_3x3_uniform : uniform one_colour_3x3 10 20 30.
Proof.
  intros i Hi. simpl in Hi.
  assert (E : i = 0 \/ i = 1 \/ i = 2 \/ i = 3 \/ i = 4 \/ i = 5 \/ i = 6 \/ i = 7 \/ i = 8)
    by lia.
  destruct E as [->|[->|[->|[->|[->|[->|[->|[->| ->]]]]]]]]; repeat split.
Qed.

(** The pixel in the middle of the 3x3 picture is not on the border (the
    flood fill does not start from it) and has alpha 255 before. *)
Lemma one_colour_3x3_centre :
  ((1, 1) ∉ edge_queue (width one_colour_3x3) (height one_colour_3x3)) /\
  alpha (data one_colour_3x3) 4 = Some 255.
Proof.
  split; [|reflexivity].
  vm_compute. intros H.
  repeat (apply elem_of_cons in H as [H|H]; [discriminate H|]).
  inversion H.
Qed.

Lemma removeImageBackground_one_colour_witness :
  wf_ImageData one_colour_3x3 /\ uniform one_colour_3x3 10 20 30 /\
  (((1, 1) ∉ edge_queue (width one_colour_3x3) (height one_colour_3x3)) /\
   alpha (data one_colour_3x3) 4 = Some 255) /\
  backgroundMask one_colour_3x3 = [1; 1; 1; 1; 1; 1; 1; 1; 1] /\
  forall i, 0 <= i < 9 -> alpha (removeImageBackground one_colour_3x3) i = Some 0.
Proof.
  split; [exact one_colour_3x3_wf|]. split; [exact one_colour_3x3_uniform|].
  split; [exact one_colour_3x3_centre|].
  apply (removeImageBackground_one_colour one_colour_3x3 10 20 30);
    [exact one_colour_3x3_wf | exact one_colour_3x3_uniform].
Defined.

End FloodFillFacts.

(** ** The workers *)

Module WorkerFacts.
Import Geometry CornerPath JSString FilenameUtils Host Scenario.
Local Open Scope Z_scope.

(** *** Effects *)

Lemma fst_bind {A B} (m : Try A) (f : A -> Try B) :
  exists es, fst (bind m f) = fst m ++ es.
Proof.
  destruct m as [es [a| |]]; simpl.
  - destruct (f a) as [es' c]. exists es'. reflexivity.
  - exists []. symmetry. apply app_nil_r.
  - exists []. symmetry. apply app_nil_r.
Qed.

Lemma quiet_app es es' : quiet es -> quiet es' -> quiet (es ++ es').
Proof. apply Forall_app_2. Qed.

Lemma quiet_bind {A B} (m : Try A) (f : A -> Try B) :
  quiet (fst m) -> (forall a, quiet (fst (f a))) -> quiet (fst (bind m f)).
Proof.
  destruct m as [es [a| |]]; simpl; intros Hm Hf; try exact Hm.
  specialize (Hf a). destruct (f a) as [es' c']. simpl in *.
  apply quiet_app; assumption.
Qed.

Lemma quiet_ret {A} (a : A) : quiet (fst (ret a)).
Proof. constructor. Qed.

Lemma quiet_await {A} e (answer : option A) : quiet_effect e -> quiet (fst (await e answer)).
Proof. intros H. repeat constructor. exact H. Qed.

Lemma quiet_try {A} (answer : option A) : quiet (fst (try_ answer)).
Proof. constructor. Qed.

Lemma quiet_continue_unless b : quiet (fst (continue_unless b)).
Proof. constructor. Qed.

Lemma quiet_not_done es : quiet es -> Forall not_done es.
Proof.
  intros H. eapply Forall_impl; [exact H|].
  intros [| | | | |[]|]; simpl; auto.
Qed.

Lemma quiet_progress es : quiet es -> progress_posted es = [].
Proof.
  unfold progress_posted. induction 1 as [|e es He _ IH]; [reflexivity|].
  destruct e as [| | | | |[]|]; simpl in *; try exact IH; contradiction.
Qed.

Lemma progress_posted_app es es' :
  progress_posted (es ++ es') = progress_posted es ++ progress_posted es'.
Proof.
  unfold progress_posted, posted. rewrite omap_app. apply filter_app.
Qed.

Lemma posted_app es es' : posted (es ++ es') = posted es ++ posted es'.
Proof. apply omap_app. Qed.

(** *** image.worker.ts *)

Section ImageWorkerLoop.
Import ImageWorker.

Lemma ImageWorker_quiet_ticks i (ticks : list (jsstring * Z * Z)) :
  quiet (call_removeBackground i ::
         map (fun '(key, current, total) =>
                postMessage (model_load_progress key current total)) ticks).
Proof.
  constructor; [exact I|]. apply Forall_forall. intros e He.
  apply list_elem_of_fmap in He as [[[key current] total] [-> _]]. exact I.
Qed.

(** Rendering posts neither [progress] nor [done]. *)
Lemma ImageWorker_render_quiet answers options i image :
  quiet (fst (render answers options i image)).
Proof.
  unfold render.
  apply quiet_bind.
  - destruct (wants_removeBackground options); [|apply quiet_ret].
    destruct (removeBackground answers i (file image)) as [ticks answer].
    apply quiet_bind; [apply ImageWorker_quiet_ticks|]. intros _. apply quiet_try.
  - intros processedFile.
    apply quiet_bind; [apply quiet_await; exact I|]. intros imageBitmap.
    apply quiet_bind; [apply quiet_try|]. intros canvas.
    apply quiet_bind; [apply quiet_continue_unless|]. intros _.
    apply quiet_bind; [apply quiet_await; exact I|]. intros [blob|]; constructor.
Qed.

(** Rendering starts with that call. *)
Lemma ImageWorker_render_starts answers options i image :
  exists es, fst (render answers options i image) = first_call options i :: es.
Proof.
  unfold render, first_call.
  destruct (wants_removeBackground options).
  - destruct (removeBackground answers i (file image)) as [ticks answer].
    match goal with |- context [bind (bind ?m ?f) ?g] =>
      destruct (fst_bind (bind m f) g) as [es1 E1]; destruct (fst_bind m f) as [es2 E2]
    end.
    rewrite E1, E2. simpl. eexists. reflexivity.
  - match goal with |- context [bind (ret ?a) ?g] =>
      change (bind (ret a) g) with (let '(es', c) := g a in ([] ++ es', c))
    end.
    match goal with |- context [let '(es', c) := ?m in _] =>
      destruct m as [es' c'] eqn:E
    end.
    simpl.
    match type of E with bind ?m ?f = _ => destruct (fst_bind m f) as [es1 E1] end.
    rewrite E in E1. simpl in E1. rewrite E1. eexists. reflexivity.
Qed.

(** One turn of the loop: what it adds to the results and to the effects. *)
Lemma ImageWorker_step_spec answers options totalCount st i image :
  let st' := step answers options totalCount st i image in
  exists tail new,
    effects st' = effects st ++ tail /\
    finalResults st' = finalResults st ++ new /\
    processedCount st' = processedCount st + Z.of_nat (length new) /\
    Forall not_done tail /\
    first_call options i ∈ tail /\
    match rendered answers options i image with
    | Some _ =>
        progress_posted tail
          = [progress (processedCount st + 1) totalCount (name (file image))] /\
        exists r, new = [r] /\ result_of answers options r (i, image)
    | None => progress_posted tail = [] /\ new = []
    end.
Proof.
  intros st'. subst st'. unfold step, rendered.
  pose proof (ImageWorker_render_quiet answers options i image) as Hq.
  destruct (ImageWorker_render_starts answers options i image) as [es0 Hd].
  destruct (render answers options i image) as [es c] eqn:E. simpl in Hq, Hd.
  assert (Hin : first_call options i ∈ es) by (rewrite Hd; apply list_elem_of_here).
  destruct c as [[[blob canvas] format]| |]; simpl.
  - eexists (es ++ [_; _]), [_]. split; [reflexivity|]. split; [reflexivity|].
    split; [reflexivity|].
    split; [apply Forall_app_2; [apply quiet_not_done, Hq | repeat constructor]|].
    split; [apply elem_of_app; left; exact Hin|].
    split.
    + rewrite progress_posted_app, (quiet_progress es Hq). reflexivity.
    + eexists. split; [reflexivity|].
      exists canvas, format, (Date_now answers (clock st)), (processedCount st + 1).
      unfold rendered. rewrite E. repeat split; reflexivity.
  - exists es, []. rewrite app_nil_r. simpl.
    repeat split; auto using quiet_not_done, quiet_progress. lia.
  - exists (es ++ [console_error (name (file image))]), []. rewrite app_nil_r.
    split; [reflexivity|]. split; [reflexivity|]. split; [simpl; lia|].
    split; [apply Forall_app_2; [apply quiet_not_done, Hq | repeat constructor]|].
    split; [apply elem_of_app; left; exact Hin|].
    split; [|reflexivity].
    rewrite progress_posted_app, (quiet_progress es Hq). reflexivity.
Qed.

(** The loop: what it adds to the results and to the effects. *)
Lemma ImageWorker_loop_spec answers options totalCount images : forall i st,
  let st' := loop answers options totalCount i images st in
  exists tail new,
    effects st' = effects st ++ tail /\
    finalResults st' = finalResults st ++ new /\
    processedCount st' = processedCount st + Z.of_nat (length new) /\
    Forall not_done tail /\
    (forall j, (i <= j < i + length images)%nat -> first_call options j ∈ tail) /\
    progress_posted tail
      = running_progress totalCount (processedCount st) (successes answers options i images) /\
    Forall2 (result_of answers options) new (successes answers options i images).
Proof.
  induction images as [|image rest IH]; intros i st.
  - exists [], []. simpl. rewrite !app_nil_r.
    repeat split; try constructor; try lia.
  - cbn [loop successes].
    destruct (ImageWorker_step_spec answers options totalCount st i image)
      as (t1 & n1 & E1 & R1 & C1 & D1 & S1 & H1).
    destruct (IH (S i) (step answers options totalCount st i image))
      as (t2 & n2 & E2 & R2 & C2 & D2 & S2 & P2 & F2).
    exists (t1 ++ t2), (n1 ++ n2).
    split; [rewrite E2, E1; symmetry; apply app_assoc|].
    split; [rewrite R2, R1; symmetry; apply app_assoc|].
    split; [rewrite C2, C1, length_app; lia|].
    split; [apply Forall_app_2; assumption|].
    split.
    { intros j Hj. apply elem_of_app. destruct (decide (j = i)) as [->|Hne].
      - left. exact S1.
      - right. apply S2. simpl in Hj. lia. }
    rewrite progress_posted_app, P2, C1.
    destruct (rendered answers options i image) as [x|].
    + destruct H1 as (-> & r & -> & Hr). split; [|constructor; assumption].
      cbn [running_progress length app]. repeat f_equal.
    + destruct H1 as (-> & ->). split; [|exact F2].
      simpl. rewrite Z.add_0_r. reflexivity.
Qed.
End ImageWorkerLoop.

(** *** imageProcessor.worker.ts *)

Section ImageProcessorWorkerLoop.
Import ImageProcessorWorker.

(** Rendering starts with the call of [createImageBitmap]. *)
Lemma ImageProcessorWorker_render_decodes answers options i image :
  exists es, fst (render answers options i image) = call_createImageBitmap i :: es.
Proof.
  unfold render, bind at 1, await at 1.
  destruct (createImageBitmap answers i (file_blob (file image))) as [bitmap|].
  - match goal with |- context [let '(es', c) := ?m in _] => destruct m as [es' c'] end.
    exists es'. reflexivity.
  - exists []. reflexivity.
Qed.

(** Rendering posts neither [progress] nor [done]. *)
Lemma ImageProcessorWorker_render_quiet answers options i image :
  quiet (fst (render answers options i image)).
Proof.
  unfold render.
  apply quiet_bind; [apply quiet_await; exact I|]. intros bitmap.
  apply quiet_bind; [apply quiet_try|]. intros canvas.
  apply quiet_bind; [apply quiet_continue_unless|]. intros _.
  apply quiet_bind.
  - destruct (default false (opt_removeBackground options)); [|apply quiet_ret].
    apply quiet_bind; [apply quiet_await; exact I|]. intros pixels. apply quiet_ret.
  - intros [canvas' format].
    apply quiet_bind; [apply quiet_await; exact I|]. intros blob. apply quiet_ret.
Qed.

(** One turn of the loop: what it adds to the results and to the effects. *)
Lemma ImageProcessorWorker_step_spec answers options totalCount timestamp st i image :
  let st' := step answers options totalCount timestamp st i image in
  exists tail new,
    effects st' = effects st ++ tail /\
    results st' = results st ++ new /\
    Forall not_done tail /\
    call_createImageBitmap i ∈ tail /\
    match rendered answers options i image with
    | Some _ =>
        progress_posted tail
          = [progress (Z.of_nat i + 1) totalCount (name (file image))] /\
        exists r, new = [r] /\ result_of answers options timestamp r (i, image)
    | None => progress_posted tail = [] /\ new = []
    end.
Proof.
  intros st'. subst st'. unfold step, rendered.
  pose proof (ImageProcessorWorker_render_quiet answers options i image) as Hq.
  destruct (ImageProcessorWorker_render_decodes answers options i image) as [es0 Hd].
  destruct (render answers options i image) as [es c] eqn:E. simpl in Hq, Hd.
  assert (Hin : call_createImageBitmap i ∈ es) by (rewrite Hd; apply list_elem_of_here).
  destruct c as [[[[blob|] canvas] format]| |]; simpl.
  - eexists (es ++ [_]), [_]. split; [reflexivity|]. split; [reflexivity|].
    split; [apply Forall_app_2; [apply quiet_not_done, Hq | repeat constructor]|].
    split; [apply elem_of_app; left; exact Hin|].
    split.
    + rewrite progress_posted_app, (quiet_progress es Hq). reflexivity.
    + eexists. split; [reflexivity|].
      exists canvas, format, (generatedFilenames st). unfold rendered. rewrite E.
      repeat split; reflexivity.
  - exists es, []. rewrite app_nil_r. repeat split; auto using quiet_not_done, quiet_progress.
  - exists es, []. rewrite app_nil_r. repeat split; auto using quiet_not_done, quiet_progress.
  - exists (es ++ [console_error (name (file image))]), []. rewrite app_nil_r.
    split; [reflexivity|]. split; [reflexivity|].
    split; [apply Forall_app_2; [apply quiet_not_done, Hq | repeat constructor]|].
    split; [apply elem_of_app; left; exact Hin|].
    split; [|reflexivity].
    rewrite progress_posted_app, (quiet_progress es Hq). reflexivity.
Qed.

(** The loop: what it adds to the results and to the effects. *)
Lemma ImageProcessorWorker_loop_spec answers options totalCount timestamp images : forall i st,
  let st' := loop answers options totalCount timestamp i images st in
  exists tail new,
    effects st' = effects st ++ tail /\
    results st' = results st ++ new /\
    Forall not_done tail /\
    (forall j, (i <= j < i + length images)%nat -> call_createImageBitmap j ∈ tail) /\
    progress_posted tail
      = map (fun s => progress (Z.of_nat (fst s) + 1) totalCount (name (file (snd s))))
            (successes answers options i images) /\
    Forall2 (result_of answers options timestamp) new (successes answers options i images).
Proof.
  induction images as [|image rest IH]; intros i st.
  - exists [], []. simpl. rewrite !app_nil_r. repeat split; try constructor.
    intros j Hj. lia.
  - cbn [loop successes].
    destruct (ImageProcessorWorker_step_spec answers options totalCount timestamp st i image)
      as (t1 & n1 & E1 & R1 & D1 & C1 & H1).
    destruct (IH (S i) (step answers options totalCount timestamp st i image))
      as (t2 & n2 & E2 & R2 & D2 & C2 & P2 & F2).
    exists (t1 ++ t2), (n1 ++ n2).
    split; [rewrite E2, E1; symmetry; apply app_assoc|].
    split; [rewrite R2, R1; symmetry; apply app_assoc|].
    split; [apply Forall_app_2; assumption|].
    split.
    { intros j Hj. apply elem_of_app. destruct (decide (j = i)) as [->|Hne].
      - left. exact C1.
      - right. apply C2. simpl in Hj. lia. }
    rewrite progress_posted_app, P2.
    destruct (rendered answers options i image) as [x|].
    + destruct H1 as (-> & r & -> & Hr). split; [reflexivity|].
      constructor; assumption.
    + destruct H1 as (-> & ->). split; [reflexivity | exact F2].
Qed.
End ImageProcessorWorkerLoop.

(** *** What a batch posts *)


(** One picture [photo.jpg], 512x512, cover, PNG, the template
    [{name}_{index}.{ext}]: image.worker.ts posts one [progress] message and a
    [done] message with one result, 512 by 512, named [photo_1.png]. *)
Example ImageWorker_one_picture :
  let options :=
    {| ImageWorker.resize :=
         Some {| resize_width := 512; resize_height := 512; fit := cover |};
       ImageWorker.borderRadius := None;
       ImageWorker.format := png;
       ImageWorker.quality := None;
       ImageWorker.opt_removeBackground := None;
       ImageWorker.filenameTemplate := Some (js "{name}_{index}.{ext}");
       ImageWorker.presetName := None |} in
  ImageWorker.onmessage second_fails [entry "photo.jpg" 0] options
  = [ call_createImageBitmap 0; call_convertToBlob 0; call_Date_now;
      postMessage (progress 1 1 (js "photo.jpg"));
      postMessage (done [ {| blob := encoded 0; filename := js "photo_1.png";
                             width := 512; height := 512; size := 1000;
                             originalId := js "id-photo.jpg" |} ]) ].
Proof. vm_compute. reflexivity. Qed.

(** What image.worker.ts does for a batch: effects without a [done] message,
    then the [done] message with the results of the images that succeeded. *)
Lemma ImageWorker_onmessage_spec answers images options :
  exists before results,
    ImageWorker.onmessage answers images options
      = before ++ [postMessage (done results)] /\
    Forall not_done before /\
    Forall2 (ImageWorker.result_of answers options) results
            (ImageWorker.successes answers options 0 images).
Proof.
  unfold ImageWorker.onmessage.
  destruct (ImageWorker_loop_spec answers options (Z.of_nat (length images)) images 0
              ImageWorker.initial) as (tail & new & E & R & _ & D & _ & _ & F).
  rewrite E, R. simpl. exists tail, new. auto.
Qed.

(** The same for imageProcessor.worker.ts. *)
Lemma ImageProcessorWorker_onmessage_spec answers images options :
  exists before results,
    ImageProcessorWorker.onmessage answers images options
      = before ++ [postMessage (done results)] /\
    Forall not_done before /\
    Forall2 (ImageProcessorWorker.result_of answers options (Date_now answers 0)) results
            (ImageProcessorWorker.successes answers options 0 images).
Proof.
  unfold ImageProcessorWorker.onmessage.
  destruct (ImageProcessorWorker_loop_spec answers options (Z.of_nat (length images))
              (Date_now answers 0) images 0 ImageProcessorWorker.initial)
    as (tail & new & E & R & D & _ & _ & F).
  rewrite E, R. simpl. exists (call_Date_now :: tail), new.
  split; [reflexivity|]. split; [|exact F].
  constructor; [exact I | exact D].
Qed.

(** C3.  For every batch, every options and all surroundings, what either
    worker does ends with the posting of one [done] message; nothing before
    it is a [done] message, nothing comes after it; and the results it
    carries are, in the order of the batch, those of the images whose turn
    ended with a blob: none when every image failed. *)
Theorem onmessage_ends_with_done answers images options1 options2 :
  (exists before results,
     ImageWorker.onmessage answers images options1
       = before ++ [postMessage (done results)] /\
     Forall not_done before /\
     Forall2 (ImageWorker.result_of answers options1) results
             (ImageWorker.successes answers options1 0 images)) /\
  (exists before results,
     ImageProcessorWorker.onmessage answers images options2
       = before ++ [postMessage (done results)] /\
     Forall not_done before /\
     Forall2 (ImageProcessorWorker.result_of answers options2 (Date_now answers 0)) results
             (ImageProcessorWorker.successes answers options2 0 images)).
Proof.
  split.
  - apply ImageWorker_onmessage_spec.
  - apply ImageProcessorWorker_onmessage_spec.
Qed.

(** When no image succeeds the [done] message carries the empty list. *)
Lemma onmessage_all_failed answers images options2 :
  ImageProcessorWorker.successes answers options2 0 images = [] ->
  done_results (ImageProcessorWorker.onmessage answers images options2) = Some [].
Proof.
  intros Hs.
  destruct (ImageProcessorWorker_onmessage_spec answers images options2)
    as (before & results & E & _ & F).
  rewrite Hs in F. inversion F; subst.
  rewrite E. unfold done_results. rewrite last_snoc. reflexivity.
Qed.

(** In image.worker.ts the [progress] messages count the images that have
    succeeded so far, and name the file as it was sent. *)
Lemma ImageWorker_progress_counts answers images options :
  progress_posted (ImageWorker.onmessage answers images options)
  = ImageWorker.running_progress (Z.of_nat (length images)) 0
      (ImageWorker.successes answers options 0 images).
Proof.
  unfold ImageWorker.onmessage.
  destruct (ImageWorker_loop_spec answers options (Z.of_nat (length images)) images 0
              ImageWorker.initial) as (tail & new & E & _ & _ & _ & _ & P & _).
  rewrite E, progress_posted_app, progress_posted_app, P. simpl.
  apply app_nil_r.
Qed.

(** In imageProcessor.worker.ts the [progress] messages carry the position in
    the batch of the image, plus one. *)
Lemma ImageProcessorWorker_progress_positions answers images options :
  progress_posted (ImageProcessorWorker.onmessage answers images options)
  = map (fun s => progress (Z.of_nat (fst s) + 1) (Z.of_nat (length images))
                           (name (file (snd s))))
        (ImageProcessorWorker.successes answers options 0 images).
Proof.
  unfold ImageProcessorWorker.onmessage.
  destruct (ImageProcessorWorker_loop_spec answers options (Z.of_nat (length images))
              (Date_now answers 0) images 0 ImageProcessorWorker.initial)
    as (tail & new & E & _ & _ & _ & P & _).
  rewrite E, progress_posted_app, progress_posted_app, P. simpl.
  apply app_nil_r.
Qed.

(** C4.  Claimed: each [progress] message carries the running count of the
    images processed successfully so far.  In a batch of three whose second
    image cannot be decoded, imageProcessor.worker.ts posts two [progress]
    messages and two results, but the messages count 1 and 3; image.worker.ts
    counts 1 and 2. *)
Theorem ImageProcessorWorker_progress_skips_a_count :
  let run := ImageProcessorWorker.onmessage second_fails three_images (options2 512 512) in
  progress_posted run = [progress 1 3 (js "a.png"); progress 3 3 (js "c.png")] /\
  (length <$> done_results run) = Some 2%nat /\
  progress_posted (ImageWorker.onmessage second_fails three_images options1)
    = [progress 1 3 (js "a.png"); progress 2 3 (js "c.png")].
Proof. vm_compute. repeat split. Qed.

(** C5 as claimed fails.  With a target of 0x0 and one image, the image is
    decoded, its encoding is tried and fails, the failure is logged for that
    image, and the batch ends with [done] and no result: nothing has failed
    before the image was touched. *)
Lemma zero_target_is_not_refused :
  let options := options2 0 0 in
  let run := ImageProcessorWorker.onmessage second_fails [entry "a.png" 0] options in
  resize_width (ImageProcessorWorker.resize options) = 0 /\
  resize_height (ImageProcessorWorker.resize options) = 0 /\
  run = [ call_Date_now; call_createImageBitmap 0; call_convertToBlob 0;
          console_error (js "a.png"); postMessage (done []) ] /\
  call_createImageBitmap 0 ∈ run /\
  done_results run = Some [].
Proof.
  assert (E : ImageProcessorWorker.onmessage second_fails [entry "a.png" 0] (options2 0 0)
              = [ call_Date_now; call_createImageBitmap 0; call_convertToBlob 0;
                  console_error (js "a.png"); postMessage (done []) ])
    by (vm_compute; reflexivity).
  cbv zeta. rewrite E. repeat split.
  apply list_elem_of_further, list_elem_of_here.
Qed.

(** In imageProcessor.worker.ts the clock is read once, before the loop:
    every name is made with that reading. *)
Lemma ImageProcessorWorker_one_timestamp answers images options :
  exists results,
    done_results (ImageProcessorWorker.onmessage answers images options) = Some results /\
    Forall (fun r => exists metadata names,
              FilenameUtils.timestamp metadata = Date_now answers 0 /\
              filename r = getUniqueFilename
                             (parseFilenameTemplate
                                (ImageProcessorWorker.filenameTemplate options) metadata)
                             names) results.
Proof.
  destruct (ImageProcessorWorker_onmessage_spec answers images options)
    as (before & results & E & _ & F).
  exists results. rewrite E. unfold done_results. rewrite last_snoc.
  split; [reflexivity|]. clear E.
  induction F as [|r [i image] rs ss Hr _ IH]; [constructor|].
  constructor; [|exact IH].
  destruct Hr as (canvas & format & names & _ & _ & _ & _ & _ & Hn).
  eexists _, names. split; [|exact Hn]. reflexivity.
Qed.

(** C9.  Claimed: all images of a batch get the same time stamp in their
    names.  [generateFileName] of image.worker.ts reads the clock itself, once
    for each image: with the template "{timestamp}" and a clock that advances
    between the two readings, the two results of a batch are named after two
    different times.  imageProcessor.worker.ts names both after the one time
    read before its loop. *)
Theorem generateFileName_reads_the_clock_again :
  (map filename <$> done_results (ImageWorker.onmessage second_fails three_images options1))
    = Some [js "1700000000000.png"; js "1700000000001.png"] /\
  (map filename <$>
     done_results (ImageProcessorWorker.onmessage second_fails three_images (options2 512 512)))
    = Some [js "1700000000000"; js "1700000000000(1)"].
Proof. vm_compute. repeat split. Qed.
End WorkerFacts.

(** ** Fit geometry: every fit option *)

Module FitFacts.
Import Geometry.
Import PrimFloat.
Import DoubleGeometry.
Local Open Scope float_scope.

(** The doubles of the two draw calls that the model in exact rationals is
    evaluated at: the same rectangles. *)
Example resizeAndFit_in_doubles :
  resizeAndFit 100 200 100 100 cover = mkDraw (-50) 0 200 200 0 0 100 100 /\
  resizeAndFit 100 200 100 100 crop = mkDraw 0 50 100 100 0 0 100 100 /\
  calculateDrawDimensions 1200 800 512 512 cover = mkDraw 200 0 800 800 0 0 512 512.
Proof. vm_compute. repeat split. Qed.

(** Doubles round.  An image drawn with [cover] onto a canvas of its own
    size, 30x110, is not drawn as a whole: the quotient 30 / (30 / 110) is
    110.00000000000001, and the source rectangle starts above the image. *)
Example calculateDrawDimensions_rounds :
  let d := calculateDrawDimensions 30 110 30 110 cover in
  sHeight d = 0x1.b800000000001p+6 /\ sy d = -0x1p-47 /\
  (sy d <? 0) = true /\ (110 <? sHeight d) = true.
Proof. vm_compute. repeat split. Qed.




End FitFacts.

(** ** Rounded corners of image.worker.ts *)

Module PathFacts.
Import Geometry CornerPath PathShapes CornerFacts.
Local Open Scope Q_scope.

Lemma clamped_range width height radius :
  0 <= width -> 0 <= height -> 0 <= radius ->
  0 <= clamped width height radius /\
  clamped width height radius <= radius /\
  clamped width height radius + clamped width height radius <= width /\
  clamped width height radius + clamped width height radius <= height.
Proof.
  intros Hw Hh Hr. unfold clamped.
  assert (Ew : width / 2 == width * (1 # 2)) by (field; lra).
  assert (Eh : height / 2 == height * (1 # 2)) by (field; lra).
  destruct (Math_min_spec radius (width / 2)) as [[H2 E2]|[H2 E2]];
    destruct (Math_min_spec (Math_min radius (width / 2)) (height / 2)) as [[H3 E3]|[H3 E3]];
    rewrite E3; rewrite ?E2; rewrite E2 in H3; rewrite Ew, Eh in *; lra.
Qed.

(** X5.  [drawRoundedRectPath] never leaves the canvas: for a canvas of sizes
    that are not negative and any radius that is not negative, every point of
    the path it builds (end points and control points of the curves) lies on
    the canvas. *)
Theorem drawRoundedRectPath_on_canvas width height radius :
  0 <= width -> 0 <= height -> 0 <= radius ->
  Forall (cmd_on_canvas width height) (drawRoundedRectPath width height radius).
Proof.
  intros Hw Hh Hr.
  destruct (clamped_range width height radius Hw Hh Hr) as (H0 & H1 & H2 & H3).
  unfold drawRoundedRectPath. fold (clamped width height radius).
  set (r := clamped width height radius) in *.
  repeat constructor; simpl; lra.
Qed.

Lemma drawRoundedRectPath_on_canvas_witness :
  Forall (cmd_on_canvas 100 60) (drawRoundedRectPath 100 60 80).
Proof. apply (drawRoundedRectPath_on_canvas 100 60 80); vm_compute; discriminate. Defined.

End PathFacts.

(** ** File names: templates, free names, extensions *)

Module NamingFacts.
Import JSString FilenameUtils NameShapes FilenameFacts.
Local Open Scope Z_scope.

(** *** What [sanitizeFilename] returns *)

(** X6.  Whatever the input, [sanitizeFilename] returns a name that is not
    empty, has at most 200 characters, holds none of the reserved characters,
    has no two hyphens in a row and does not start with a space or a hyphen;
    so does [parseFilenameTemplate], which ends with [sanitizeFilename]. *)
Theorem filenames_sanitized :
  (forall filename, sanitized (sanitizeFilename filename)) /\
  (forall template metadata, sanitized (parseFilenameTemplate template metadata)).
Proof.
  split; [apply sanitizeFilename_sanitized|].
  intros template metadata. unfold parseFilenameTemplate. apply sanitizeFilename_sanitized.
Qed.

(** X7.  The names [sanitizeFilename] leaves as they are, are the names of
    the shape it returns that do not end with a space or a hyphen. *)
Theorem sanitizeFilename_fixed_points s :
  sanitizeFilename s = s <-> sanitized s /\ ends_clean s.
Proof.
  split.
  - intros E. split.
    + rewrite <- E. apply sanitizeFilename_sanitized.
    + rewrite <- E. apply sanitizeFilename_idempotent_only_if. rewrite !E. reflexivity.
  - intros [Hs He]. rewrite (sanitizeFilename_of_sanitized s Hs). apply trim_end_id, He.
Qed.

Lemma collapse_hyphens_Forall (P : ascii -> Prop) s :
  Forall P s -> Forall P (collapse_hyphens s).
Proof.
  induction s as [|c t IH]; intros H; [constructor|].
  rewrite collapse_hyphens_cons. inversion H; subst.
  destruct t as [|d t']; [constructor; [assumption|constructor]|].
  destruct (is_hyphen c && is_hyphen d); [apply IH; assumption|].
  constructor; [assumption | apply IH; assumption].
Qed.

Lemma trim_start_all s : Forall (fun c => is_trim c = true) s -> trim_start s = [].
Proof.
  induction 1 as [|c t Hc _ IH]; [reflexivity|]. simpl. rewrite Hc. exact IH.
Qed.

(** X8.  A name made of reserved characters, hyphens and spaces only (the
    empty name among them) becomes [untitled]. *)
Theorem sanitizeFilename_untitled x :
  Forall (fun c => is_invalid c || is_trim c = true) x ->
  sanitizeFilename x = js "untitled".
Proof.
  intros H.
  assert (H1 : Forall (fun c => is_trim c = true) (replace_invalid x)).
  { unfold replace_invalid. apply Forall_map. eapply Forall_impl; [exact H|].
    intros c Hc. simpl in *. destruct (is_invalid c); [reflexivity | exact Hc]. }
  apply (collapse_hyphens_Forall (fun c => is_trim c = true)) in H1.
  unfold sanitizeFilename, trim. rewrite (trim_start_all _ H1). reflexivity.
Qed.

Lemma sanitizeFilename_untitled_witness :
  sanitizeFilename (js " ?? -- ") = js "untitled".
Proof.
  apply (sanitizeFilename_untitled (js " ?? -- ")).
  vm_compute. repeat constructor.
Defined.

(** *** Replacing *)

Lemma replace_from_no_match c p replacement s : forall before,
  c ∉ s -> replace_from (c :: p) replacement 0 before s = s.
Proof.
  induction s as [|x t IH]; intros before H; [reflexivity|].
  apply not_elem_of_cons in H as [Hx Ht].
  cbn [replace_from startsWith].
  destruct (Ascii.eqb c x) eqn:E; [apply Ascii.eqb_eq in E; congruence|].
  simpl. f_equal. apply IH, Ht.
Qed.

Lemma replace_all_no_match c p replacement s :
  c ∉ s -> replace_all (c :: p) replacement s = s.
Proof. apply replace_from_no_match. Qed.

Lemma getSubstitution_literal replacement matched before after :
  "$"%char ∉ replacement ->
  getSubstitution replacement matched before after = replacement.
Proof.
  induction replacement as [|c r IH]; intros H; [reflexivity|].
  apply not_elem_of_cons in H as [Hc Hr].
  cbn [getSubstitution].
  destruct (Ascii.eqb c "$") eqn:E; [apply Ascii.eqb_eq in E; congruence|].
  f_equal. apply IH, Hr.
Qed.

(** *** Decimal digits *)

Lemma string_of_uint_digits d :
  Forall digit_or_minus (js (NilEmpty.string_of_uint d)).
Proof.
  unfold digit_or_minus.
  induction d; simpl; constructor; try assumption; vm_compute;
    repeat (first [apply list_elem_of_here | apply list_elem_of_further]).
Qed.

Lemma toString_digits n : Forall digit_or_minus (toString n).
Proof.
  unfold toString, NilZero.string_of_int.
  destruct (Z.to_int n) as [d|d].
  - unfold NilZero.string_of_uint.
    destruct d; first [apply string_of_uint_digits | apply (string_of_uint_digits (Decimal.D0 Decimal.Nil))].
  - simpl. constructor; [apply list_elem_of_here|].
    unfold NilZero.string_of_uint.
    destruct d; first [apply string_of_uint_digits | apply (string_of_uint_digits (Decimal.D0 Decimal.Nil))].
Qed.

Lemma digits_no_special s c :
  Forall digit_or_minus s -> c ∉ js "-0123456789" -> c ∉ s.
Proof.
  intros H Hc Hin. eapply Forall_forall in H; [|exact Hin]. exact (Hc H).
Qed.


(** *** The greatest common divisor *)

Lemma gcd_abs_aux n : forall a b, (Z.abs_nat b < n)%nat -> Z.abs (gcd a b) = Z.gcd a b.
Proof.
  induction n as [|n IH]; intros a b Hn; [lia|].
  rewrite gcd_eq. destruct (b =? 0) eqn:E.
  - apply Z.eqb_eq in E. subst b. symmetry. apply Z.gcd_0_r.
  - apply Z.eqb_neq in E.
    rewrite IH by (pose proof (Z.rem_bound_abs a b E); lia).
    rewrite (Z.gcd_comm b), Z.gcd_rem by assumption. apply Z.gcd_comm.
Qed.

Lemma gcd_nonneg_aux n : forall a b,
  (Z.abs_nat b < n)%nat -> 0 <= a -> 0 <= b -> 0 <= gcd a b.
Proof.
  induction n as [|n IH]; intros a b Hn Ha Hb; [lia|].
  rewrite gcd_eq. destruct (b =? 0) eqn:E; [assumption|].
  apply Z.eqb_neq in E.
  apply IH; [pose proof (Z.rem_bound_abs a b E); lia | assumption |].
  apply Z.rem_nonneg; assumption.
Qed.

(** *** Splitting a name at its dots *)

Lemma split_not_nil c s : split c s <> [].
Proof.
  destruct s as [|x t]; simpl; [discriminate|].
  destruct (Ascii.eqb x c); [discriminate|].
  destruct (split c t); discriminate.
Qed.

Lemma split_no_sep c s : c ∉ s -> split c s = [s].
Proof.
  induction s as [|x t IH]; intros H; [reflexivity|].
  apply not_elem_of_cons in H as [Hx Ht]. simpl.
  destruct (Ascii.eqb x c) eqn:E; [apply Ascii.eqb_eq in E; congruence|].
  rewrite (IH Ht). reflexivity.
Qed.

Lemma split_at_sep c a b : split c (a ++ c :: b) = split c a ++ split c b.
Proof.
  induction a as [|x t IH]; simpl.
  - rewrite Ascii.eqb_refl. reflexivity.
  - destruct (Ascii.eqb x c); [rewrite IH; reflexivity|].
    rewrite IH.
    destruct (split c t) as [|h r] eqn:E; [exfalso; exact (split_not_nil c t E)|].
    reflexivity.
Qed.

Lemma join_head c x h r : join c ((x :: h) :: r) = x :: join c (h :: r).
Proof. destruct r; reflexivity. Qed.

Lemma join_split c s : join c (split c s) = s.
Proof.
  induction s as [|x t IH]; [reflexivity|]. simpl.
  destruct (Ascii.eqb x c) eqn:E.
  - apply Ascii.eqb_eq in E. subst x.
    destruct (split c t) as [|h r] eqn:E'; [exfalso; exact (split_not_nil c t E')|].
    change (join c ([] :: h :: r)) with (c :: join c (h :: r)).
    rewrite IH. reflexivity.
  - destruct (split c t) as [|h r] eqn:E'; [exfalso; exact (split_not_nil c t E')|].
    rewrite join_head, IH. reflexivity.
Qed.

(** [{name}] of image.worker.ts: the text before the last dot. *)
Lemma stem_before_last_dot stem ext :
  "."%char ∉ ext ->
  join "." (slice_0_m1 (split "." (stem ++ "."%char :: ext))) = stem.
Proof.
  intros H. rewrite split_at_sep, (split_no_sep _ _ H).
  unfold slice_0_m1. rewrite removelast_last. apply join_split.
Qed.

(** Without a dot there is no such text. *)
Lemma stem_without_dot name :
  "."%char ∉ name -> join "." (slice_0_m1 (split "." name)) = [].
Proof. intros H. rewrite (split_no_sep _ _ H). reflexivity. Qed.

(** *** The last dot *)

Lemma lastIndexOf_from_spec c s : forall i last,
  (lastIndexOf_from c i last s = last /\ c ∉ s) \/
  (exists a b, s = a ++ (c :: b) /\ (c ∉ b) /\
     lastIndexOf_from c i last s = i + Z.of_nat (length a)).
Proof.
  induction s as [|x t IH]; intros i last.
  - left. split; [reflexivity | apply not_elem_of_nil].
  - cbn [lastIndexOf_from].
    destruct (IH (i + 1) (if Ascii.eqb x c then i else last))
      as [[E Hn]|(a & b & -> & Hb & E)].
    + destruct (Ascii.eqb x c) eqn:Ex.
      * apply Ascii.eqb_eq in Ex. subst x. right. exists [], t.
        split; [reflexivity|]. split; [assumption|]. rewrite E. simpl. lia.
      * left. split; [assumption|]. apply not_elem_of_cons. split; [|assumption].
        intros ->. rewrite Ascii.eqb_refl in Ex. discriminate.
    + right. exists (x :: a), b. split; [reflexivity|]. split; [assumption|].
      rewrite E. simpl length. lia.
Qed.

Lemma lastIndexOf_spec c s :
  (lastIndexOf c s = -1 /\ c ∉ s) \/
  (exists a b, s = a ++ (c :: b) /\ (c ∉ b) /\ lastIndexOf c s = Z.of_nat (length a)).
Proof.
  unfold lastIndexOf.
  destruct (lastIndexOf_from_spec c s 0 (-1)) as [H|(a & b & H1 & H2 & H3)];
    [left; exact H | right; exists a, b; auto].
Qed.


Lemma last_sep_unique (c : ascii) a : forall a' b b',
  a ++ c :: b = a' ++ c :: b' -> c ∉ b -> c ∉ b' -> a = a' /\ b = b'.
Proof.
  induction a as [|x t IH]; intros [|x' t'] b b' E Hb Hb'; simpl in E.
  - inversion E. auto.
  - inversion E; subst. exfalso. apply Hb. apply elem_of_app. right. apply list_elem_of_here.
  - inversion E; subst. exfalso. apply Hb'. apply elem_of_app. right. apply list_elem_of_here.
  - inversion E; subst. destruct (IH t' b b' H1 Hb Hb') as [-> ->]. auto.
Qed.

Lemma cut_at_dot stem ext :
  stem <> [] -> "."%char ∉ ext ->
  cut_at (stem ++ "."%char :: ext) = Z.of_nat (length stem).
Proof.
  intros Hs He. unfold cut_at.
  destruct (lastIndexOf_spec "." (stem ++ "."%char :: ext))
    as [[_ Hn]|(a & b & E & Hb & ->)].
  - exfalso. apply Hn. apply elem_of_app. right. apply list_elem_of_here.
  - destruct (last_sep_unique _ _ _ _ _ E He Hb) as [<- _].
    destruct stem; [congruence|]. simpl length.
    destruct (0 <? Z.of_nat (S (length stem))) eqn:L; [reflexivity|].
    apply Z.ltb_ge in L. lia.
Qed.

Lemma cut_at_range name : 0 <= cut_at name <= Z.of_nat (length name).
Proof.
  unfold cut_at.
  destruct (lastIndexOf_spec "." name) as [[-> _]|(a & b & -> & _ & ->)].
  - simpl. lia.
  - rewrite length_app. simpl length.
    destruct (0 <? Z.of_nat (length a)) eqn:L; lia.
Qed.

Lemma substring_parts name :
  substring name 0 (cut_at name) ++ substring_from name (cut_at name) = name.
Proof.
  pose proof (cut_at_range name) as H.
  rewrite substring_0 by lia.
  unfold substring_from, substring.
  set (len := Z.of_nat (length name)) in *. set (cut := cut_at name) in *.
  replace (Z.max 0 (Z.min cut len)) with cut by lia.
  replace (Z.max 0 (Z.min len len)) with len by lia.
  replace (Z.min cut len) with cut by lia.
  replace (Z.max cut len) with len by lia.
  rewrite (take_ge (drop _ _)) by (rewrite length_drop; lia).
  apply take_drop.
Qed.


(** *** The loop of [getUniqueFilename] *)

Lemma getUniqueFilename_loop_least (existingNames : gset jsstring)
    (nameWithoutExt ext : jsstring) (fuel : nat) : forall (uniqueName : jsstring) (counter : Z),
  uniqueName ∈ existingNames ->
  (exists j, counter <= j < counter + Z.of_nat fuel /\
             numbered nameWithoutExt ext j ∉ existingNames) ->
  exists k, counter <= k /\
    getUniqueFilename_loop fuel existingNames nameWithoutExt ext uniqueName counter
      = numbered nameWithoutExt ext k /\
    (numbered nameWithoutExt ext k ∉ existingNames) /\
    forall j, counter <= j < k -> numbered nameWithoutExt ext j ∈ existingNames.
Proof.
  induction fuel as [|fuel IH]; intros uniqueName counter Hin (j & Hj & Hfree); [lia|].
  cbn [getUniqueFilename_loop].
  destruct (decide (uniqueName ∈ existingNames)) as [_|Hn]; [|contradiction].
  destruct (decide (numbered nameWithoutExt ext counter ∈ existingNames)) as [Hc|Hc].
  - destruct (IH (numbered nameWithoutExt ext counter) (counter + 1) Hc)
      as (k & Hk & E & Hf & Hall).
    { exists j. split; [|assumption].
      assert (j <> counter) by (intros ->; contradiction). lia. }
    exists k. split; [lia|]. split; [exact E|]. split; [exact Hf|].
    intros i Hi. destruct (decide (i = counter)) as [->|Hne]; [assumption|].
    apply Hall. lia.
  - exists counter. split; [lia|]. split.
    + destruct fuel; cbn [getUniqueFilename_loop];
        destruct (decide (numbered nameWithoutExt ext counter ∈ existingNames));
        try contradiction; reflexivity.
    + split; [assumption|]. intros i Hi. lia.
Qed.

(** A character that is not in a string written out. *)
Ltac absent :=
  vm_compute; intros H;
  repeat (apply elem_of_cons in H as [H|H]; [discriminate H|]);
  apply elem_of_nil in H; exact H.

Lemma gcd_nonneg_eq a b : 0 <= a -> 0 <= b -> gcd a b = Z.gcd a b.
Proof.
  intros Ha Hb.
  pose proof (gcd_abs_aux (S (Z.abs_nat b)) a b ltac:(lia)).
  pose proof (gcd_nonneg_aux (S (Z.abs_nat b)) a b ltac:(lia) Ha Hb). lia.
Qed.

(** X9.  A template without an opening brace has no variable: the name
    [parseFilenameTemplate] makes of it is the sanitized template, whatever
    the image. *)
Theorem parseFilenameTemplate_plain template metadata :
  "{"%char ∉ template ->
  parseFilenameTemplate template metadata = sanitizeFilename template.
Proof.
  intros H.
  assert (E : forall p r, replace_all (js (String "{" p)) r template = template)
    by (intros; apply replace_all_no_match, H).
  unfold parseFilenameTemplate. rewrite !E. reflexivity.
Qed.

Lemma parseFilenameTemplate_plain_witness :
  parseFilenameTemplate (js "holiday")
    {| originalName := js "a.png"; outputWidth := 1; outputHeight := 1;
       outputFormat := png; presetName := None; timestamp := 0; index := 0 |}
  = sanitizeFilename (js "holiday").
Proof. apply parseFilenameTemplate_plain. absent. Defined.

(** X10.  [getUniqueFilename] returns a name that is not in the set.  It is
    the preferred name when that is free; otherwise it is the preferred name
    with [(counter)] put in before its extension (the text from the last dot
    on, when that dot is not the first character), for the least counter
    from 1 on whose name is free. *)
Theorem getUniqueFilename_least (preferredName : jsstring) (existingNames : gset jsstring) :
  let uniqueName := getUniqueFilename preferredName existingNames in
  let nameWithoutExt := substring preferredName 0 (cut_at preferredName) in
  let ext := substring_from preferredName (cut_at preferredName) in
  nameWithoutExt ++ ext = preferredName /\
  (uniqueName ∉ existingNames) /\
  (preferredName ∉ existingNames -> uniqueName = preferredName) /\
  (preferredName ∈ existingNames ->
     exists counter, 1 <= counter /\
       uniqueName = nameWithoutExt ++ js "(" ++ toString counter ++ js ")" ++ ext /\
       forall j, 1 <= j < counter ->
         nameWithoutExt ++ js "(" ++ toString j ++ js ")" ++ ext ∈ existingNames).
Proof.
  intros uniqueName nameWithoutExt ext.
  split; [apply substring_parts|].
  split; [apply getUniqueFilename_free|].
  split; [apply getUniqueFilename_keeps|].
  intros Hin.
  destruct (getUniqueFilename_loop_least existingNames nameWithoutExt ext
              (S (size existingNames)) preferredName 1 Hin
              (numbered_free existingNames nameWithoutExt ext))
    as (k & Hk & E & _ & Hall).
  exists k. split; [exact Hk|]. split; [exact E | exact Hall].
Qed.

(** X11.  [gcd] computes the greatest common divisor: up to its sign for any
    two integers, and exactly when neither is negative. *)
Theorem gcd_is_greatest_common_divisor a b :
  Z.abs (gcd a b) = Z.gcd a b /\
  (0 <= a -> 0 <= b -> gcd a b = Z.gcd a b).
Proof.
  split; [apply (gcd_abs_aux (S (Z.abs_nat b))); lia | apply gcd_nonneg_eq].
Qed.

(** *** One variable *)

Lemma ratio_text_plain a b c :
  c ∉ js "-0123456789x" -> c ∉ toString a ++ js "x" ++ toString b.
Proof.
  intros Hc Hin.
  assert (Hd : c ∉ js "-0123456789").
  { intros H. apply Hc. vm_compute in H |- *.
    repeat (apply elem_of_cons in H as [->|H];
            [repeat (first [apply list_elem_of_here | apply list_elem_of_further])|]).
    apply elem_of_nil in H. contradiction. }
  apply elem_of_app in Hin as [Hin|Hin];
    [exact (digits_no_special _ _ (toString_digits a) Hd Hin)|].
  apply elem_of_cons in Hin as [->|Hin].
  - apply Hc. vm_compute. do 11 apply list_elem_of_further. apply list_elem_of_here.
  - exact (digits_no_special _ _ (toString_digits b) Hd Hin).
Qed.

Lemma not_in_digits_x (c : ascii) :
  (if existsb (Ascii.eqb c) (js "-0123456789x") then False else True) ->
  c ∉ js "-0123456789x".
Proof.
  intros H Hin. destruct (existsb _ _) eqn:E; [exact H|].
  assert (E' : existsb (Ascii.eqb c) (js "-0123456789x") = true).
  { apply existsb_exists. exists c. split; [|apply Ascii.eqb_refl].
    apply list_elem_of_In. exact Hin. }
  congruence.
Qed.

(** X12.  The variable [{ratio}] of [parseFilenameTemplate]: for a width and
    a height that are positive it stands for the aspect ratio in lowest
    terms, [w/g] and [h/g] with [g] their greatest common divisor, joined by
    an [x]; when the width or the height is 0 it stands for nothing, and the
    template [{ratio}] gives [untitled]. *)
Theorem parseFilenameTemplate_ratio metadata :
  let w := outputWidth metadata in
  let h := outputHeight metadata in
  (w = 0 \/ h = 0 -> parseFilenameTemplate (js "{ratio}") metadata = js "untitled") /\
  (0 < w -> 0 < h ->
     (Z.gcd w h | w) /\ (Z.gcd w h | h) /\ Z.gcd (w / Z.gcd w h) (h / Z.gcd w h) = 1 /\
     parseFilenameTemplate (js "{ratio}") metadata
       = sanitizeFilename (toString (w / Z.gcd w h) ++ js "x" ++ toString (h / Z.gcd w h))).
Proof.
  intros w h. split.
  - intros Hz. unfold parseFilenameTemplate. fold w h.
    assert (E : negb (w =? 0) && negb (h =? 0) = false).
    { destruct Hz as [-> | ->]; [reflexivity|]. apply andb_false_r. }
    rewrite E. reflexivity.
  - intros Hw Hh.
    assert (Hg : Z.gcd w h <> 0) by (intros E0; apply Z.gcd_eq_0_l in E0; lia).
    split; [apply Z.gcd_divide_l|]. split; [apply Z.gcd_divide_r|].
    split; [apply Z.gcd_div_gcd; [exact Hg | reflexivity]|].
    unfold parseFilenameTemplate. fold w h.
    assert (E : negb (w =? 0) && negb (h =? 0) = true).
    { apply andb_true_intro. split; apply negb_true_iff, Z.eqb_neq; lia. }
    rewrite E, (gcd_nonneg_eq w h) by lia.
    set (ratio := toString (w / Z.gcd w h) ++ js "x" ++ toString (h / Z.gcd w h)).
    assert (Hplain : forall c,
              (if existsb (Ascii.eqb c) (js "-0123456789x") then False else True) ->
              c ∉ ratio).
    { intros c Hc. apply ratio_text_plain, not_in_digits_x, Hc. }
    change (replace_all (js "{name}") _ (js "{ratio}")) with (js "{ratio}").
    change (replace_all (js "{ext}") _ (js "{ratio}")) with (js "{ratio}").
    change (replace_all (js "{index}") _ (js "{ratio}")) with (js "{ratio}").
    change (replace_all (js "{width}") _ (js "{ratio}")) with (js "{ratio}").
    change (replace_all (js "{height}") _ (js "{ratio}")) with (js "{ratio}").
    change (replace_all (js "{ratio}") ratio (js "{ratio}"))
      with (getSubstitution ratio (js "{ratio}") [] [] ++ []).
    rewrite app_nil_r, getSubstitution_literal by (apply Hplain; exact I).
    assert (Eb : forall p r, replace_all (js (String "{" p)) r ratio = ratio).
    { intros. apply replace_all_no_match, Hplain. exact I. }
    rewrite !Eb. reflexivity.
Qed.

(** A picture of 1920 by 1080: the ratio is 16x9. *)
Lemma parseFilenameTemplate_ratio_witness :
  parseFilenameTemplate (js "{ratio}")
    {| originalName := js "a.png"; outputWidth := 1920; outputHeight := 1080;
       outputFormat := png; presetName := None; timestamp := 0; index := 0 |}
  = sanitizeFilename (toString (1920 / Z.gcd 1920 1080) ++ js "x"
                        ++ toString (1080 / Z.gcd 1920 1080)) /\
  toString (1920 / Z.gcd 1920 1080) ++ js "x" ++ toString (1080 / Z.gcd 1920 1080)
  = js "16x9".
Proof.
  split; [|reflexivity].
  apply (parseFilenameTemplate_ratio
           {| originalName := js "a.png"; outputWidth := 1920; outputHeight := 1080;
              outputFormat := png; presetName := None; timestamp := 0; index := 0 |});
    reflexivity.
Defined.

(** *** The name of the file in the name of the result *)

Lemma endsWith_app p s : endsWith p (s ++ p) = true.
Proof.
  unfold endsWith. rewrite rev_app_distr.
  induction (rev p) as [|c t IH]; [reflexivity|]. simpl.
  rewrite Ascii.eqb_refl. exact IH.
Qed.

Section Name.
Import Host ImageWorker.

(** X13.  [generateFileName] of image.worker.ts takes [{name}] from the text
    before the last dot of the file name: for a file name without a dot the
    name plays no part, the result is what the empty file name gives. *)
Theorem generateFileName_without_dot answers now originalName originalId index template
    format width height presetName :
  "."%char ∉ originalName ->
  generateFileName answers now originalName originalId index template format
    width height presetName
  = generateFileName answers now [] originalId index template format
      width height presetName.
Proof.
  intros H. unfold generateFileName. rewrite (stem_without_dot _ H). reflexivity.
Qed.

Lemma generateFileName_without_dot_witness :
  generateFileName Scenario.second_fails 0 (js "README") (js "id") 1 None png 512 512 None
  = generateFileName Scenario.second_fails 0 [] (js "id") 1 None png 512 512 None /\
  generateFileName Scenario.second_fails 0 (js "README") (js "id") 1 None png 512 512 None
  = js "_1.png".
Proof.
  split; [|reflexivity].
  apply generateFileName_without_dot. absent.
Defined.

(** X14.  With the template [{name}], [generateFileName] of image.worker.ts
    names the result after the text before the last dot of the file name,
    followed by a dot and the format, unless that text ends with them
    already (the text holding no dollar and no opening brace, which
    [replace] would read as a pattern or as a variable). *)
Theorem generateFileName_name answers now stem ext originalId index format
    width height presetName :
  "."%char ∉ ext -> "$"%char ∉ stem -> "{"%char ∉ stem ->
  generateFileName answers now (stem ++ "."%char :: ext) originalId index
    (Some (js "{name}")) format width height presetName
  = if endsWith (js "." ++ format_string format) stem then stem
    else stem ++ js "." ++ format_string format.
Proof.
  intros He Hd Hb. unfold generateFileName. rewrite (stem_before_last_dot _ _ He).
  change (default (js "{name}_{index}") (Some (js "{name}"))) with (js "{name}").
  change (replace_all (js "{name}") stem (js "{name}"))
    with (getSubstitution stem (js "{name}") [] [] ++ []).
  rewrite app_nil_r, getSubstitution_literal by assumption.
  assert (Eb : forall p r, replace_all (js (String "{" p)) r stem = stem)
    by (intros; apply replace_all_no_match, Hb).
  rewrite !Eb. reflexivity.
Qed.

Lemma generateFileName_name_witness :
  generateFileName Scenario.second_fails 0 (js "my.photo" ++ "."%char :: js "jpeg")
    (js "id") 1 (Some (js "{name}")) webp 512 512 None
  = js "my.photo.webp".
Proof.
  apply (generateFileName_name Scenario.second_fails 0 (js "my.photo") (js "jpeg")
           (js "id") 1 webp 512 512 None); absent.
Defined.

End Name.

(** X15.  With the template [{name}], [parseFilenameTemplate] names the
    result after the sanitized text before the last dot of the file name,
    and after the whole sanitized file name when it has no dot (the file
    name holding no dollar and no opening brace). *)
Theorem parseFilenameTemplate_name metadata :
  let name := originalName metadata in
  "$"%char ∉ name -> "{"%char ∉ name ->
  (forall stem ext, name = stem ++ "."%char :: ext -> stem <> [] -> "."%char ∉ ext ->
     parseFilenameTemplate (js "{name}") metadata = sanitizeFilename stem) /\
  ("."%char ∉ name ->
     parseFilenameTemplate (js "{name}") metadata = sanitizeFilename name).
Proof.
  intros name Hd Hb.
  assert (Hparse : forall stem, stem = substring name 0 (cut_at name) ->
            "$"%char ∉ stem -> "{"%char ∉ stem ->
            parseFilenameTemplate (js "{name}") metadata = sanitizeFilename stem).
  { intros stem Es Hds Hbs. unfold parseFilenameTemplate. fold name.
    change (if 0 <? lastIndexOf "." name then lastIndexOf "." name
            else Z.of_nat (length name)) with (cut_at name).
    rewrite <- Es.
    change (replace_all (js "{name}") stem (js "{name}"))
      with (getSubstitution stem (js "{name}") [] [] ++ []).
    rewrite app_nil_r, getSubstitution_literal by assumption.
    assert (Eb : forall p r, replace_all (js (String "{" p)) r stem = stem)
      by (intros; apply replace_all_no_match, Hbs).
    rewrite !Eb. reflexivity. }
  split.
  - intros stem ext E Hs He. apply Hparse.
    + rewrite E, (cut_at_dot _ _ Hs He), substring_0 by lia.
      rewrite Nat2Z.id, take_app_length. reflexivity.
    + intros H. apply Hd. rewrite E. apply elem_of_app. left. exact H.
    + intros H. apply Hb. rewrite E. apply elem_of_app. left. exact H.
  - intros Hn. apply Hparse; try assumption.
    unfold cut_at.
    destruct (lastIndexOf_spec "." name) as [[-> _]|(a & b & E & _ & _)].
    + simpl. rewrite substring_0 by lia. rewrite Nat2Z.id, firstn_all. reflexivity.
    + exfalso. apply Hn. rewrite E. apply elem_of_app. right. apply list_elem_of_here.
Qed.

Lemma parseFilenameTemplate_name_witness :
  parseFilenameTemplate (js "{name}")
    {| originalName := js "README"; outputWidth := 512; outputHeight := 512;
       outputFormat := png; presetName := None; timestamp := 0; index := 0 |}
  = sanitizeFilename (js "README").
Proof.
  apply (parseFilenameTemplate_name
           {| originalName := js "README"; outputWidth := 512; outputHeight := 512;
              outputFormat := png; presetName := None; timestamp := 0; index := 0 |});
    absent.
Defined.

End NamingFacts.

(** ** The results of a batch *)

Module BatchFacts.
Import Geometry CornerPath JSString FilenameUtils Host Scenario.
Import BatchShapes FilenameFacts WorkerFacts NamingFacts.
Local Open Scope Z_scope.

Lemma new_OffscreenCanvas_Some width height canvas :
  new_OffscreenCanvas width height = Some canvas ->
  canvas_width canvas = width /\ canvas_height canvas = height /\
  0 <= width /\ 0 <= height.
Proof.
  unfold new_OffscreenCanvas.
  destruct ((width <? 0) || (height <? 0)) eqn:E; [discriminate|].
  intros [= <-]. simpl. apply orb_false_elim in E as [E1 E2].
  apply Z.ltb_ge in E1, E2. auto.
Qed.

Lemma sublist_map {A B} (f : A -> B) (l k : list A) :
  l `sublist_of` k -> map f l `sublist_of` map f k.
Proof.
  induction 1; cbn [map]; [constructor | apply sublist_skip | apply sublist_cons]; assumption.
Qed.

(** *** Computations that end normally *)

Lemma bind_Normal {A B} (m : Try A) (f : A -> Try B) es b :
  bind m f = (es, Normal b) ->
  exists es1 a es2, m = (es1, Normal a) /\ f a = (es2, Normal b) /\ es = es1 ++ es2.
Proof.
  destruct m as [es1 [a| |]]; simpl; try discriminate.
  destruct (f a) as [es2 c] eqn:E. intros [= <- ->].
  exists es1, a, es2. auto.
Qed.

Lemma await_Normal {A} e (answer : option A) es a :
  await e answer = (es, Normal a) -> answer = Some a /\ es = [e].
Proof. unfold await. destruct answer; intros [= <- <-] || discriminate. auto. Qed.

Lemma try_Normal {A} (answer : option A) es a :
  try_ answer = (es, Normal a) -> answer = Some a /\ es = [].
Proof. unfold try_. destruct answer; intros [= <- <-] || discriminate. auto. Qed.

Lemma continue_unless_Normal b es u :
  continue_unless b = (es, Normal u) -> b = true /\ es = [].
Proof. unfold continue_unless. destruct b; intros [= <-] || discriminate. auto. Qed.

Lemma ret_Normal {A} (a : A) es b : ret a = (es, Normal b) -> a = b /\ es = [].
Proof. unfold ret. intros [= <- <-]. auto. Qed.

Section Second.
Import ImageProcessorWorker.

Lemma ImageProcessorWorker_rendered_inv answers options i image blob canvas fmt :
  rendered answers options i image = Some (blob, canvas, fmt) ->
  canvas_width canvas = resize_width (resize options) /\
  canvas_height canvas = resize_height (resize options) /\
  0 <= canvas_width canvas /\ 0 <= canvas_height canvas /\
  fmt = format_used options /\
  convertToBlob answers i canvas (js "image/" ++ format_string fmt)
    (quality_fraction (quality options)) = Some (Some blob).
Proof.
  unfold rendered. destruct (render answers options i image) as [es c] eqn:E.
  destruct c as [[[[b|] cv] f]| |]; try discriminate. intros [= -> -> ->].
  unfold render in E.
  apply bind_Normal in E as (? & bitmap & ? & _ & E & _).
  apply bind_Normal in E as (? & c0 & ? & Ec & E & _).
  apply try_Normal in Ec as [Ec _].
  apply new_OffscreenCanvas_Some in Ec as (Ew & Eh & Hw & Hh).
  apply bind_Normal in E as (? & ? & ? & _ & E & _).
  apply bind_Normal in E as (? & [c1 f1] & ? & Ed & E & _).
  apply bind_Normal in E as (? & b1 & ? & Eb & E & _).
  apply ret_Normal in E as [[= -> <- <-] _].
  apply await_Normal in Eb as [Eb _].
  assert (Hd : canvas_width c1 = canvas_width c0 /\ canvas_height c1 = canvas_height c0 /\
               f1 = format_used options).
  { unfold format_used. destruct (default false (opt_removeBackground options)).
    - apply bind_Normal in Ed as (? & pixels & ? & _ & Ed & _).
      apply ret_Normal in Ed as [[= <- <-] _]. auto.
    - apply ret_Normal in Ed as [[= <- <-] _]. auto. }
  destruct Hd as (Hw1 & Hh1 & ->).
  split; [|split; [|split; [|split; [|split; [reflexivity | exact Eb]]]]];
    destruct (0 <? borderRadius options); simpl; lia.
Qed.

Lemma ImageProcessorWorker_successes_sublist answers options images : forall i,
  map snd (successes answers options i images) `sublist_of` images.
Proof.
  induction images as [|image rest IH]; intros i; [constructor|].
  cbn [successes]. destruct (rendered answers options i image).
  - cbn [map snd]. apply sublist_skip, IH.
  - apply sublist_cons, IH.
Qed.

Lemma ImageProcessorWorker_step_names answers options totalCount timestamp st i image :
  names_differ st -> names_differ (step answers options totalCount timestamp st i image).
Proof.
  intros [Hn Hs]. unfold step.
  destruct (render answers options i image) as [es [[[[b|] cv] f]| |]]; try (split; assumption).
  unfold names_differ. cbn [results generatedFilenames].
  match goal with |- context [getUniqueFilename ?base ?set] =>
    pose proof (getUniqueFilename_free base set) as Hfree;
    set (finalFilename := getUniqueFilename base set) in *
  end.
  split.
  - rewrite map_app. apply NoDup_app. split; [exact Hn|]. split.
    + intros n Hin Hin'. cbn in Hin'. apply list_elem_of_singleton in Hin'. subst n.
      apply Hfree, Hs, Hin.
    + cbn. apply NoDup_singleton.
  - intros n Hin. rewrite map_app in Hin. apply elem_of_app in Hin as [Hin|Hin].
    + apply elem_of_union_r, Hs, Hin.
    + cbn in Hin. apply list_elem_of_singleton in Hin. subst n.
      apply elem_of_union_l, elem_of_singleton. reflexivity.
Qed.

Lemma ImageProcessorWorker_loop_names answers options totalCount timestamp images :
  forall i st, names_differ st ->
    names_differ (loop answers options totalCount timestamp i images st).
Proof.
  induction images as [|image rest IH]; intros i st H; [exact H|].
  cbn [loop]. apply IH, ImageProcessorWorker_step_names, H.
Qed.

Lemma ImageProcessorWorker_done answers images options :
  done_results (onmessage answers images options)
  = Some (results (loop answers options (Z.of_nat (length images)) (Date_now answers 0)
                        0 images initial)).
Proof. unfold onmessage, done_results. rewrite last_snoc. reflexivity. Qed.

(** X16.  The names of the results of a batch of imageProcessor.worker.ts
    differ from one another, whatever the template and the files: each name
    is checked against the names given before it. *)
Theorem ImageProcessorWorker_names_differ answers images options :
  exists results,
    done_results (onmessage answers images options) = Some results /\
    NoDup (map filename results).
Proof.
  eexists. split; [apply ImageProcessorWorker_done|].
  apply ImageProcessorWorker_loop_names.
  split; [constructor | intros n Hn; cbn in Hn; inversion Hn].
Qed.

(** What imageProcessor.worker.ts reports of each result. *)
Lemma ImageProcessorWorker_results_spec answers images options :
  exists results,
    done_results (onmessage answers images options) = Some results /\
    map originalId results `sublist_of` map id images /\
    Forall (fun r =>
              width r = resize_width (resize options) /\
              height r = resize_height (resize options) /\
              0 <= width r /\ 0 <= height r /\
              size r = blob_size (blob r) /\
              exists i canvas,
                convertToBlob answers i canvas
                  (js "image/" ++ format_string (format_used options))
                  (quality_fraction (quality options)) = Some (Some (blob r)))
           results.
Proof.
  destruct (ImageProcessorWorker_onmessage_spec answers images options)
    as (before & results & E & _ & F).
  exists results. split; [rewrite E; unfold done_results; rewrite last_snoc; reflexivity|].
  clear E.
  pose proof (ImageProcessorWorker_successes_sublist answers options images 0) as Hsub.
  revert F Hsub. generalize (successes answers options 0 images). intros ss F Hsub.
  split.
  - assert (Em : map originalId results = map id (map snd ss)).
    { clear Hsub. induction F as [|r [i image] rs ss' Hr _ IH]; [reflexivity|].
      cbn [map snd]. rewrite IH.
      destruct Hr as (canvas & fmt & names & _ & -> & _). reflexivity. }
    rewrite Em. apply sublist_map, Hsub.
  - clear Hsub. induction F as [|r [i image] rs ss' Hr _ IH]; constructor; [|exact IH].
    destruct Hr as (canvas & fmt & names & Hrend & _ & Hw & Hh & Hsz & _).
    apply ImageProcessorWorker_rendered_inv in Hrend as (Ew & Eh & H0w & H0h & -> & Hb).
    rewrite Hw, Hh. repeat split; try assumption. exists i, canvas. exact Hb.
Qed.

(** X17.  The results of a batch of imageProcessor.worker.ts: their ids are
    ids of images of the batch, in the order of the batch; each result has
    the width and height asked for, which are not negative, the size of its
    blob, and a blob that [convertToBlob] returned for the format asked for
    (PNG instead of JPEG when the background is removed) and the quality
    asked for. *)
Theorem ImageProcessorWorker_results answers images options :
  exists results,
    done_results (onmessage answers images options) = Some results /\
    map originalId results `sublist_of` map id images /\
    Forall (fun r =>
              width r = resize_width (resize options) /\
              height r = resize_height (resize options) /\
              0 <= width r /\ 0 <= height r /\
              size r = blob_size (blob r) /\
              exists i canvas,
                convertToBlob answers i canvas
                  (js "image/" ++ format_string (format_used options))
                  (quality_fraction (quality options)) = Some (Some (blob r)))
           results.
Proof. apply ImageProcessorWorker_results_spec. Qed.

End Second.

Section First.
Import ImageWorker.

Lemma ImageWorker_rendered_inv answers options i image blob canvas fmt :
  rendered answers options i image = Some (blob, canvas, fmt) ->
  fmt = effectiveFormat options /\
  0 <= canvas_width canvas /\ 0 <= canvas_height canvas /\
  (forall r, resize options = Some r ->
     canvas_width canvas = resize_width r /\ canvas_height canvas = resize_height r) /\
  (resize options = None ->
     exists file bitmap, createImageBitmap answers i file = Some bitmap /\
       canvas_width canvas = bitmap_width bitmap /\
       canvas_height canvas = bitmap_height bitmap) /\
  convertToBlob answers i canvas (js "image/" ++ format_string fmt)
    (if is_png fmt then None else quality_fraction (quality options)) = Some (Some blob).
Proof.
  unfold rendered. destruct (render answers options i image) as [es c] eqn:E.
  destruct c as [[[b cv] f]| |]; try discriminate. intros [= -> -> ->].
  unfold render in E.
  apply bind_Normal in E as (? & processedFile & ? & _ & E & _).
  apply bind_Normal in E as (? & bitmap & ? & Ebm & E & _).
  apply await_Normal in Ebm as [Ebm _].
  apply bind_Normal in E as (? & c0 & ? & Ec & E & _).
  apply try_Normal in Ec as [Ec _].
  apply new_OffscreenCanvas_Some in Ec as (Ew & Eh & Hw & Hh).
  apply bind_Normal in E as (? & ? & ? & _ & E & _).
  apply bind_Normal in E as (? & [b1|] & ? & Eb & E & _); [|discriminate].
  apply ret_Normal in E as [E _].
  apply await_Normal in Eb as [Eb _].
  fold (effectiveFormat options) in *.
  match type of E with (_, ?c, _) = _ => set (cv := c) in * end.
  assert (Hc : canvas_width cv = canvas_width c0 /\ canvas_height cv = canvas_height c0).
  { subst cv.
    destruct (is_jpeg (effectiveFormat options)); destruct (borderRadius options) as [r|];
      try destruct (0 <? r); auto. }
  clearbody cv. injection E as -> -> <-.
  destruct Hc as [Hcw Hch].
  rewrite <- Ew, <- Hcw in Hw. rewrite <- Eh, <- Hch in Hh.
  rewrite <- Hcw in Ew. rewrite <- Hch in Eh.
  split; [reflexivity|]. split; [exact Hw|]. split; [exact Hh|].
  split; [|split; [|exact Eb]].
  - intros r Hr. rewrite Hr in *. auto.
  - intros Hr. rewrite Hr in *. exists processedFile, bitmap. auto.
Qed.

Lemma ImageWorker_successes_sublist answers options images : forall i,
  map snd (successes answers options i images) `sublist_of` images.
Proof.
  induction images as [|image rest IH]; intros i; [constructor|].
  cbn [successes]. destruct (rendered answers options i image).
  - cbn [map snd]. apply sublist_skip, IH.
  - apply sublist_cons, IH.
Qed.

Lemma generateFileName_extension answers now originalName originalId index template
    format width height presetName :
  endsWith (js "." ++ format_string format)
    (generateFileName answers now originalName originalId index template format
       width height presetName) = true.
Proof.
  unfold generateFileName.
  match goal with |- context [if endsWith ?p ?s then _ else _] =>
    destruct (endsWith p s) eqn:E; [exact E | apply endsWith_app]
  end.
Qed.

(** What image.worker.ts reports of each result. *)
Lemma ImageWorker_results_spec answers images options :
  exists results,
    done_results (onmessage answers images options) = Some results /\
    map originalId results `sublist_of` map id images /\
    Forall (fun r =>
              endsWith (js "." ++ format_string (effectiveFormat options)) (filename r) = true /\
              size r = blob_size (blob r) /\
              0 <= width r /\ 0 <= height r /\
              (forall rs, resize options = Some rs ->
                 width r = resize_width rs /\ height r = resize_height rs) /\
              exists i canvas,
                convertToBlob answers i canvas
                  (js "image/" ++ format_string (effectiveFormat options))
                  (if is_png (effectiveFormat options) then None
                   else quality_fraction (quality options)) = Some (Some (blob r)))
           results.
Proof.
  destruct (ImageWorker_onmessage_spec answers images options)
    as (before & results & E & _ & F).
  exists results. split; [rewrite E; unfold done_results; rewrite last_snoc; reflexivity|].
  clear E.
  pose proof (ImageWorker_successes_sublist answers options images 0) as Hsub.
  revert F Hsub. generalize (successes answers options 0 images). intros ss F Hsub.
  split.
  - assert (Em : map originalId results = map id (map snd ss)).
    { clear Hsub. induction F as [|r [i image] rs ss' Hr _ IH]; [reflexivity|].
      cbn [map snd]. rewrite IH.
      destruct Hr as (canvas & fmt & now & index & _ & -> & _). reflexivity. }
    rewrite Em. apply sublist_map, Hsub.
  - clear Hsub. induction F as [|r [i image] rs ss' Hr _ IH]; constructor; [|exact IH].
    destruct Hr as (canvas & fmt & now & index & Hrend & _ & Hw & Hh & Hsz & Hn).
    apply ImageWorker_rendered_inv in Hrend as (-> & H0w & H0h & Hrs & _ & Hb).
    rewrite Hw, Hh, Hn.
    split; [apply generateFileName_extension|].
    repeat split; try assumption; try (apply Hrs; assumption).
    exists i, canvas. exact Hb.
Qed.

(** X18.  The results of a batch of image.worker.ts: their ids are ids of
    images of the batch, in the order of the batch; each result carries a
    name that ends with a dot and the format encoded to (PNG instead of JPEG
    when the background is removed), the size of its blob, a width and a
    height that are not negative and are those asked for when [resize] is
    given, and a blob that [convertToBlob] returned for that format, without
    a quality for PNG. *)
Theorem ImageWorker_results answers images options :
  exists results,
    done_results (onmessage answers images options) = Some results /\
    map originalId results `sublist_of` map id images /\
    Forall (fun r =>
              endsWith (js "." ++ format_string (effectiveFormat options)) (filename r) = true /\
              size r = blob_size (blob r) /\
              0 <= width r /\ 0 <= height r /\
              (forall rs, resize options = Some rs ->
                 width r = resize_width rs /\ height r = resize_height rs) /\
              exists i canvas,
                convertToBlob answers i canvas
                  (js "image/" ++ format_string (effectiveFormat options))
                  (if is_png (effectiveFormat options) then None
                   else quality_fraction (quality options)) = Some (Some (blob r)))
           results.
Proof. apply ImageWorker_results_spec. Qed.

End First.
End BatchFacts.

(** ** A target without pixels *)

Module ZeroTargetFacts.
Import Geometry JSString FilenameUtils Host Scenario.
Import BatchShapes WorkerFacts BatchFacts.
Local Open Scope Z_scope.

Lemma ImageProcessorWorker_no_success answers options images : forall i,
  (forall j image, ImageProcessorWorker.rendered answers options j image = None) ->
  ImageProcessorWorker.successes answers options i images = [].
Proof.
  induction images as [|image rest IH]; intros i H; [reflexivity|].
  cbn [ImageProcessorWorker.successes]. rewrite H. apply IH, H.
Qed.

Lemma ImageWorker_no_success answers options images : forall i,
  (forall j image, ImageWorker.rendered answers options j image = None) ->
  ImageWorker.successes answers options i images = [].
Proof.
  induction images as [|image rest IH]; intros i H; [reflexivity|].
  cbn [ImageWorker.successes]. rewrite H. apply IH, H.
Qed.

(** No image of imageProcessor.worker.ts ends with a blob when the target
    has no pixels and such a canvas is not encoded. *)
Lemma ImageProcessorWorker_zero_target answers options j image :
  no_blob_of_empty_canvas answers ->
  resize_width (ImageProcessorWorker.resize options) = 0 \/
  resize_height (ImageProcessorWorker.resize options) = 0 ->
  ImageProcessorWorker.rendered answers options j image = None.
Proof.
  intros Hno Hzero.
  destruct (ImageProcessorWorker.rendered answers options j image) as [[[b cv] f]|] eqn:E;
    [|reflexivity].
  apply ImageProcessorWorker_rendered_inv in E as (Ew & Eh & _ & _ & _ & Hb).
  exfalso. apply (Hno _ _ _ _ _ (ltac:(rewrite Ew, Eh; exact Hzero)) Hb).
Qed.

Lemma ImageWorker_zero_target answers options rs j image :
  no_blob_of_empty_canvas answers ->
  ImageWorker.resize options = Some rs ->
  resize_width rs = 0 \/ resize_height rs = 0 ->
  ImageWorker.rendered answers options j image = None.
Proof.
  intros Hno Hrs Hzero.
  destruct (ImageWorker.rendered answers options j image) as [[[b cv] f]|] eqn:E;
    [|reflexivity].
  apply ImageWorker_rendered_inv in E as (_ & _ & _ & Hsz & _ & Hb).
  destruct (Hsz _ Hrs) as [Ew Eh].
  exfalso. apply (Hno _ _ _ _ _ (ltac:(rewrite Ew, Eh; exact Hzero)) Hb).
Qed.

Lemma second_fails_no_blob_of_empty_canvas : no_blob_of_empty_canvas second_fails.
Proof.
  intros i canvas type quality blob Hzero. cbn [convertToBlob second_fails].
  destruct Hzero as [-> | ->]; cbn; rewrite ?orb_true_r; discriminate.
Qed.

(** C5, amended.  Neither width nor height is checked before the loop: for
    every batch, every options (a target of width or height zero as well)
    and all surroundings, imageProcessor.worker.ts calls [createImageBitmap]
    for each image of the batch, image.worker.ts starts on each image of the
    batch (with the external background removal when that is asked for, with
    [createImageBitmap] otherwise), and what either worker does ends with the
    [done] message.  What stays of the claim: with a target of width or
    height zero no result is produced, the [done] message of either worker
    carries no result, where [convertToBlob] returns no blob for a canvas
    without pixels. *)
Theorem workers_start_on_every_image answers images options1 options2 :
  ((forall j, (j < length images)%nat ->
      call_createImageBitmap j ∈ ImageProcessorWorker.onmessage answers images options2) /\
   exists results,
     done_results (ImageProcessorWorker.onmessage answers images options2) = Some results /\
     (no_blob_of_empty_canvas answers ->
      resize_width (ImageProcessorWorker.resize options2) = 0 \/
      resize_height (ImageProcessorWorker.resize options2) = 0 ->
      results = [])) /\
  ((forall j, (j < length images)%nat ->
      ImageWorker.first_call options1 j ∈ ImageWorker.onmessage answers images options1) /\
   exists results,
     done_results (ImageWorker.onmessage answers images options1) = Some results /\
     (no_blob_of_empty_canvas answers ->
      forall rs, ImageWorker.resize options1 = Some rs ->
                 resize_width rs = 0 \/ resize_height rs = 0 ->
                 results = [])).
Proof.
  split.
  - split.
    + unfold ImageProcessorWorker.onmessage.
      destruct (ImageProcessorWorker_loop_spec answers options2 (Z.of_nat (length images))
                  (Date_now answers 0) images 0 ImageProcessorWorker.initial)
        as (tail & new & E & R & _ & C & _ & _).
      rewrite E. intros j Hj. apply elem_of_app. left. apply elem_of_app. right.
      apply C. lia.
    + destruct (ImageProcessorWorker_onmessage_spec answers images options2)
        as (before & results & E & _ & F).
      exists results. split; [rewrite E; unfold done_results; rewrite last_snoc; reflexivity|].
      intros Hno Hzero.
      rewrite ImageProcessorWorker_no_success in F
        by (intros; apply ImageProcessorWorker_zero_target; assumption).
      inversion F. reflexivity.
  - split.
    + unfold ImageWorker.onmessage.
      destruct (ImageWorker_loop_spec answers options1 (Z.of_nat (length images)) images 0
                  ImageWorker.initial) as (tail & new & E & R & _ & _ & C & _ & _).
      rewrite E. intros j Hj. apply elem_of_app. left. apply elem_of_app. right.
      apply C. lia.
    + destruct (ImageWorker_onmessage_spec answers images options1)
        as (before & results & E & _ & F).
      exists results. split; [rewrite E; unfold done_results; rewrite last_snoc; reflexivity|].
      intros Hno rs Hrs Hzero.
      rewrite ImageWorker_no_success in F
        by (intros; eapply ImageWorker_zero_target; eassumption).
      inversion F. reflexivity.
Qed.

(** Three images and a target of 0x512 or 512x0: every image is started on,
    none gives a result. *)
Lemma workers_start_on_every_image_witness :
  no_blob_of_empty_canvas second_fails /\
  done_results (ImageProcessorWorker.onmessage second_fails three_images (options2 0 512))
    = Some [] /\
  done_results (ImageWorker.onmessage second_fails three_images (options1_sized 512 0))
    = Some [].
Proof.
  pose proof second_fails_no_blob_of_empty_canvas as Hno.
  destruct (workers_start_on_every_image second_fails three_images
              (options1_sized 512 0) (options2 0 512))
    as [[_ (r2 & E2 & H2)] [_ (r1 & E1 & H1)]].
  split; [exact Hno|]. split.
  - rewrite E2. f_equal. apply (H2 Hno). left. reflexivity.
  - rewrite E1. f_equal. apply (H1 Hno _ eq_refl). right. reflexivity.
Defined.

End ZeroTargetFacts.

(** ** Flood-fill background removal on any picture *)

Module MaskFacts.
Import FloodFill FloodFillFacts MaskShapes.
Local Open Scope Z_scope.

Section AnyPicture.
Variable imageData : ImageData.
Hypothesis Hwf : wf_ImageData imageData.

Let w := width imageData.
Let h := height imageData.
Let d := data imageData.
Let bg := getEdgeColor imageData.

Local Abbreviation inb := (inside w h).
Local Abbreviation idx := (index w).
Local Abbreviation grows := (grows_in w h).
Local Abbreviation like := (like_background imageData).
Local Abbreviation spreading := (spreading_in imageData).

(** A visit: the neighbour, if inside and like the background, is marked
    afterwards; nothing else is marked or pushed. *)
Lemma visit_any queue mask nx ny :
  Z.of_nat (length mask) = w * h -> binary mask ->
  let '(queue', mask') := visit w h d bg 20 (queue, mask) (nx, ny) in
  grows queue mask queue' mask' /\
  (inb nx ny -> like nx ny -> get mask' (idx nx ny) = Some 1) /\
  (exists more, queue' = queue ++ more /\
     forall p, p ∈ more -> p = (nx, ny) /\ inb nx ny /\ like nx ny).
Proof.
  intros Hlen Hbin.
  destruct (visit_cases w h d bg 20 queue mask (nx, ny))
    as [E|(nx' & ny' & [= <- <-] & Hx & Hy & Hm & Hc & E)]; rewrite E.
  - split; [apply grows_refl|]. split.
    + intros Hin Hl.
      unfold visit in E. destruct Hin as [Hx Hy].
      replace ((0 <=? nx) && (nx <? w) && (0 <=? ny) && (ny <? h)) with true in E
        by (symmetry; repeat (apply andb_true_iff; split); lia).
      fold (idx nx ny) in *.
      destruct (get_in_range mask (idx nx ny)) as [v Hv].
      { rewrite Hlen. apply (idx_range imageData). split; assumption. }
      rewrite Hv in E |- *.
      assert (Hv01 : v = 0 \/ v = 1).
      { unfold get in Hv. destruct (_ <? 0); [discriminate|].
        unfold binary in Hbin. rewrite Forall_lookup in Hbin. eapply Hbin, Hv. }
      destruct Hv01 as [-> | ->]; [|reflexivity].
      exfalso. unfold like_background, pixel in Hl. fold w d bg in Hl.
      rewrite Hl in E. injection E as Eq _.
      apply (f_equal (@length _)) in Eq. rewrite length_app in Eq. simpl in Eq. lia.
    + exists []. split; [symmetry; apply app_nil_r|]. intros p Hp. inversion Hp.
  - fold (idx nx ny) in *. split; [|split].
    + split; [apply length_set|]. split; [apply binary_set|].
      split; [intros j; apply get_set_1|].
      exists [(nx, ny)]. split; [reflexivity|]. split.
      * intros x y H. apply list_elem_of_singleton in H. injection H as -> ->.
        split; [split; assumption|]. apply get_set_eq. eapply get_Some, Hm.
      * intros x y Hin H. destruct (decide (idx nx ny = idx x y)) as [Eq|Hne].
        -- right. apply list_elem_of_singleton. symmetry.
           apply (idx_inj imageData); [split; assumption | exact Hin | exact Eq].
        -- left. rewrite get_set_ne in H by exact Hne. exact H.
    + intros _ _. apply get_set_eq. eapply get_Some, Hm.
    + exists [(nx, ny)]. split; [reflexivity|].
      intros p Hp. apply list_elem_of_singleton in Hp. subst p.
      split; [reflexivity|]. split; [split; assumption|]. exact Hc.
Qed.

Lemma visits_any neighbors queue mask :
  Z.of_nat (length mask) = w * h -> binary mask ->
  let '(queue', mask') := fold_left (visit w h d bg 20) neighbors (queue, mask) in
  grows queue mask queue' mask' /\
  (forall nx ny, (nx, ny) ∈ neighbors -> inb nx ny -> like nx ny ->
                 get mask' (idx nx ny) = Some 1) /\
  (exists more, queue' = queue ++ more /\
     forall nx ny, (nx, ny) ∈ more -> (nx, ny) ∈ neighbors /\ inb nx ny /\ like nx ny).
Proof.
  revert queue mask. induction neighbors as [|[nx ny] rest IH]; intros queue mask Hlen Hbin.
  - split; [apply grows_refl|]. split; [intros nx ny H; inversion H|].
    exists []. split; [symmetry; apply app_nil_r|]. intros nx ny H. inversion H.
  - cbn [fold_left]. pose proof (visit_any queue mask nx ny Hlen Hbin) as H1.
    destruct (visit w h d bg 20 (queue, mask) (nx, ny)) as [q1 m1].
    destruct H1 as (G1 & V1 & more1 & -> & N1).
    specialize (IH (queue ++ more1) m1).
    destruct (fold_left _ rest (queue ++ more1, m1)) as [q2 m2].
    destruct IH as (G2 & V2 & more2 & -> & N2).
    { rewrite (grows_length _ _ _ _ _ G1). exact Hlen. }
    { eapply grows_binary; eassumption. }
    split; [eapply grows_trans; eassumption|]. split.
    + intros x y Hin Hb Hl. apply elem_of_cons in Hin as [[= -> ->]|Hin].
      * eapply grows_marked; [exact G2 | apply V1; assumption].
      * apply V2; assumption.
    + exists (more1 ++ more2). split; [symmetry; apply app_assoc|].
      intros x y Hin. apply elem_of_app in Hin as [Hin|Hin].
      * destruct (N1 _ Hin) as ([= -> ->] & Hb & Hl).
        split; [apply list_elem_of_here | split; assumption].
      * destruct (N2 _ _ Hin) as (Hr & Hb & Hl).
        split; [apply list_elem_of_further, Hr | split; assumption].
Qed.

Lemma flood_spreading fuel queue head mask :
  spreading queue head mask ->
  let '(queue', head', mask') := flood fuel w h d bg 20 queue head mask in
  spreading queue' head' mask'.
Proof.
  revert queue head mask. induction fuel as [|fuel IH]; intros queue head mask Hinv;
    [exact Hinv|].
  cbn [flood]. destruct (queue !! head) as [[x y]|] eqn:Hq; [|exact Hinv].
  destruct Hinv as [Hlen Hbin Hqueue Hdone Hmarked Hreached Hborder].
  pose proof (visits_any [(x, y - 1); (x, y + 1); (x - 1, y); (x + 1, y)]
                queue mask Hlen Hbin) as Hv.
  destruct (fold_left _ _ (queue, mask)) as [q1 m1].
  destruct Hv as (G & V & more' & Eq' & N). apply IH.
  destruct G as (L & B & M & more & -> & I & K).
  apply app_inv_head in Eq'. subst more'.
  split.
  - rewrite L. exact Hlen.
  - auto.
  - intros x' y' H. apply elem_of_app in H as [H|H]; [|apply I, H].
    destruct (Hqueue x' y' H) as [Hin Hm]. split; [exact Hin | apply M, Hm].
  - intros k x' y' Hk Hl nx ny Hn Hb Hlike.
    assert (Hk' : (k < length queue)%nat) by (apply lookup_lt_Some in Hq; lia).
    rewrite lookup_app_l in Hl by exact Hk'.
    destruct (decide (k = head)) as [->|Hne].
    + rewrite Hq in Hl. injection Hl as <- <-. apply V; assumption.
    + apply M. eapply Hdone; [|exact Hl|exact Hn|exact Hb|exact Hlike]. lia.
  - intros x' y' Hb Hm. apply elem_of_app.
    destruct (K x' y' Hb Hm) as [H|H]; [left; apply Hmarked; assumption | right; exact H].
  - intros x' y' H. apply elem_of_app in H as [H|H]; [apply Hreached, H|].
    destruct (N _ _ H) as (Hn & Hb & Hl).
    eapply reached_step; [|exact Hn|exact Hb|exact Hl].
    apply Hreached. eapply list_elem_of_lookup_2, Hq.
  - intros x' y' Hb. apply elem_of_app. left. apply Hborder, Hb.
Qed.


(** *** The seeds *)

Lemma edge_queue_border x y : (x, y) ∈ edge_queue w h <-> on_border w h x y.
Proof.
  pose proof (wf_width _ Hwf) as Hw. pose proof (wf_height _ Hwf) as Hh. fold w h in Hw, Hh.
  unfold edge_queue, on_border, inside. split.
  - intros H. apply elem_of_app in H as [H|H];
      apply list_elem_of_In, in_flat_map in H as [i [Hi H]];
      apply list_elem_of_In, elem_of_seqZ in Hi;
      simpl in H; destruct H as [[= <- <-]|[[= <- <-]|[]]]; lia.
  - intros [[Hx Hy] Hb]. apply elem_of_app.
    destruct (decide (y = 0 \/ y = h - 1)) as [Hc|Hc].
    + left. apply list_elem_of_In, in_flat_map. exists x. split.
      * apply list_elem_of_In, elem_of_seqZ. lia.
      * simpl. destruct Hc as [-> | ->]; auto.
    + right. apply list_elem_of_In, in_flat_map. exists y. split.
      * apply list_elem_of_In, elem_of_seqZ. lia.
      * simpl. destruct Hb as [-> |[-> |[?|?]]]; auto; lia.
Qed.

(** The state in which the flood fill starts. *)
Lemma spreading_start :
  spreading (edge_queue w h) 0
            (mark_queue w (edge_queue w h) (replicate (Z.to_nat (w * h)) 0)).
Proof.
  pose proof (wf_width _ Hwf) as Hw. pose proof (wf_height _ Hwf) as Hh. fold w h in Hw, Hh.
  assert (Hlen : Z.of_nat (length (replicate (Z.to_nat (w * h)) 0)) = w * h).
  { rewrite length_replicate. nia. }
  split.
  - rewrite (mark_queue_length imageData). exact Hlen.
  - apply (mark_queue_binary imageData). apply Forall_replicate. left. reflexivity.
  - intros x y Hin. pose proof (edge_queue_inside imageData Hwf x y Hin) as Hb.
    split; [exact Hb|]. apply (mark_queue_marks imageData); [exact Hin|].
    rewrite Hlen. apply (idx_range imageData), Hb.
  - intros k x y Hk. lia.
  - intros x y Hb Hm. apply (mark_queue_marked imageData) in Hm as [Hm|(x' & y' & Hin & E)].
    + apply get_replicate_0 in Hm. discriminate.
    + apply (idx_inj imageData) in E; [|exact Hb|apply (edge_queue_inside imageData Hwf), Hin].
      injection E as -> ->. exact Hin.
  - intros x y Hin. apply reached_border, edge_queue_border, Hin.
  - intros x y Hb. apply edge_queue_border, Hb.
Qed.

Local Abbreviation M := (flooded imageData).

Lemma backgroundMask_flooded :
  backgroundMask imageData
  = fold_left (feather_step w h) (seqZ 0 (Z.of_nat (length M))) M.
Proof.
  unfold backgroundMask, flooded. fold w h d bg.
  destruct (flood _ w h d bg 20 _ 0 _) as [[q2 h2] m2]. reflexivity.
Qed.

Lemma reached_inside x y : reached imageData x y -> inb x y.
Proof. intros [x' y' [Hb _]|]; assumption. Qed.

(** The flood fill marks the pixels it can reach, and no other. *)
Lemma flooded_reached :
  Z.of_nat (length M) = w * h /\ binary M /\
  forall x y, inb x y -> (get M (idx x y) = Some 1 <-> reached imageData x y).
Proof.
  unfold flooded. fold w h d bg.
  set (queue := edge_queue w h).
  set (mask1 := mark_queue w queue (replicate (Z.to_nat (w * h)) 0)).
  pose proof (flood_spreading (S (length queue + length mask1)) queue 0 mask1 spreading_start)
    as Hinv.
  pose proof (flood_stops (S (length queue + length mask1)) w h d bg 20 queue 0 mask1) as Hstop.
  destruct (flood _ w h d bg 20 queue 0 mask1) as [[q2 head2] mask2].
  assert (Hend : q2 !! head2 = None).
  { apply Hstop. unfold zeros. pose proof (length_filter (fun v => v = 0) mask1). lia. }
  apply lookup_ge_None in Hend.
  destruct Hinv as [Hlen Hbin Hqueue Hdone Hmarked Hreached Hborder]. cbn [snd].
  split; [exact Hlen|]. split; [exact Hbin|].
  intros x y Hb. split.
  - intros Hm. apply Hreached, Hmarked; assumption.
  - intros Hr. clear Hb. induction Hr as [x y Hb|x y nx ny Hr IH Hn Hb Hl].
    + apply Hqueue, Hborder, Hb.
    + assert (Hin : (x, y) ∈ q2) by (apply Hmarked; [apply reached_inside, Hr | exact IH]).
      apply list_elem_of_lookup in Hin as [k Hk].
      pose proof (lookup_lt_Some _ _ _ Hk).
      eapply (Hdone k x y ltac:(lia) Hk nx ny); assumption.
Qed.

(** *** The feathering pass *)

Lemma feather_pixel_cases mask i neighbors :
  (feather_pixel w h mask i neighbors = mask /\
   forall nx ny, (nx, ny) ∈ neighbors -> inb nx ny -> get mask (idx nx ny) <> Some 1) \/
  (feather_pixel w h mask i neighbors = set mask i 2 /\
   exists nx ny, ((nx, ny) ∈ neighbors) /\ inb nx ny /\ get mask (idx nx ny) = Some 1).
Proof.
  induction neighbors as [|[nx ny] rest IH].
  - left. split; [reflexivity|]. intros nx ny H. inversion H.
  - cbn [feather_pixel].
    destruct ((0 <=? nx) && (nx <? w) && (0 <=? ny) && (ny <? h)) eqn:Hb.
    + repeat (apply andb_true_iff in Hb as [Hb ?]).
      assert (Hin : inb nx ny) by (unfold inside; lia).
      fold (idx nx ny).
      destruct (decide (get mask (idx nx ny) = Some 1)) as [E|Hne].
      * right. rewrite E. split; [reflexivity|].
        exists nx, ny. split; [apply list_elem_of_here | split; assumption].
      * assert (E : match get mask (idx nx ny) with
                    | Some 1 => set mask i 2
                    | _ => feather_pixel w h mask i rest
                    end = feather_pixel w h mask i rest).
        { destruct (get mask (idx nx ny)) as [[|p|p]|]; try reflexivity.
          destruct p; try reflexivity. congruence. }
        rewrite E. destruct IH as [[E' H']|[E' (x & y & Hr & Hi & Hm)]].
        -- left. split; [exact E'|]. intros x y Hxy Hi.
           apply elem_of_cons in Hxy as [[= -> ->]|Hxy]; [exact Hne | apply H'; assumption].
        -- right. split; [exact E'|]. exists x, y.
           split; [apply list_elem_of_further, Hr | split; assumption].
    + destruct IH as [[E' H']|[E' (x & y & Hr & Hi & Hm)]].
      * left. split; [exact E'|]. intros x y Hxy Hi.
        apply elem_of_cons in Hxy as [[= -> ->]|Hxy]; [|apply H'; assumption].
        exfalso. destruct Hi as [Hx Hy].
        assert ((0 <=? nx) && (nx <? w) && (0 <=? ny) && (ny <? h) = true)
          by (repeat (apply andb_true_iff; split); lia).
        congruence.
      * right. split; [exact E'|]. exists x, y.
        split; [apply list_elem_of_further, Hr | split; assumption].
Qed.

Lemma idx_coordinates x y : inb x y -> Z.rem (idx x y) w = x /\ idx x y / w = y.
Proof.
  intros [Hx Hy]. unfold index.
  rewrite Z.rem_mod_nonneg by nia.
  rewrite Z.add_comm.
  rewrite Z.mod_add, Z.div_add by lia.
  rewrite Z.mod_small, Z.div_small by lia. lia.
Qed.

Lemma neighbours_feather x y p :
  p ∈ [(x - 1, y); (x + 1, y); (x, y - 1); (x, y + 1)] <-> p ∈ neighbours x y.
Proof.
  unfold neighbours. rewrite !elem_of_cons, !elem_of_nil. tauto.
Qed.

(** One turn of the feathering pass at pixel [(x, y)]. *)
Lemma feather_step_cases mask x y :
  inb x y ->
  (feather_step w h mask (idx x y) = mask /\
   (get mask (idx x y) = Some 0 -> ~ beside_background w h mask x y)) \/
  (feather_step w h mask (idx x y) = set mask (idx x y) 2 /\
   get mask (idx x y) = Some 0 /\ beside_background w h mask x y).
Proof.
  intros Hb. unfold feather_step.
  destruct (idx_coordinates x y Hb) as [-> ->].
  destruct (decide (get mask (idx x y) = Some 0)) as [E|Hne].
  - rewrite E.
    destruct (feather_pixel_cases mask (idx x y)
                [(x - 1, y); (x + 1, y); (x, y - 1); (x, y + 1)])
      as [[E' H']|[E' (nx & ny & Hr & Hi & Hm)]]; rewrite E'.
    + left. split; [reflexivity|]. intros _ (nx & ny & Hn & Hi & Hm).
      apply (H' nx ny); [apply neighbours_feather, Hn | exact Hi | exact Hm].
    + right. split; [reflexivity|]. split; [reflexivity|].
      exists nx, ny. split; [apply neighbours_feather, Hr | split; assumption].
  - left. split; [|intros E; contradiction].
    destruct (get mask (idx x y)) as [[|p|p]|]; try reflexivity. congruence.
Qed.


Lemma pixel_of_index j :
  0 <= j < w * h -> exists x y, inb x y /\ j = idx x y.
Proof.
  intros Hj. pose proof (wf_width _ Hwf) as Hw. fold w in Hw.
  exists (j mod w), (j / w). split.
  - split; [apply Z.mod_pos_bound; lia|].
    split; [apply Z.div_pos; lia | apply Z.div_lt_upper_bound; lia].
  - unfold index. rewrite (Z.div_mod j w) at 1 by lia. lia.
Qed.

(** Whether a pixel is beside the background depends on the marks 1 only. *)
Lemma beside_background_same mask mask' x y :
  (forall j, get mask j = Some 1 <-> get mask' j = Some 1) ->
  beside_background w h mask x y <-> beside_background w h mask' x y.
Proof.
  intros H. unfold beside_background.
  split; intros (nx & ny & Hn & Hi & Hm); exists nx, ny;
    (split; [exact Hn | split; [exact Hi | apply H, Hm]]).
Qed.

Local Abbreviation feathered := (MaskShapes.feathered imageData).

Lemma feather_prefix (k : nat) :
  Z.of_nat k <= w * h ->
  let mask := fold_left (feather_step w h) (seqZ 0 (Z.of_nat k)) M in
  length mask = length M /\
  (forall j, get mask j = Some 1 <-> get M j = Some 1) /\
  (forall x y, inb x y ->
     (idx x y < Z.of_nat k -> feathered mask x y) /\
     (Z.of_nat k <= idx x y -> get mask (idx x y) = get M (idx x y))).
Proof.
  induction k as [|k IH]; intros Hk mask.
  - subst mask. cbn [fold_left seqZ]. split; [reflexivity|]. split; [tauto|].
    intros x y Hb. pose proof (idx_range imageData x y Hb) as Hr. fold w h in Hr.
    split; [lia | reflexivity].
  - subst mask. rewrite seqZ_S, fold_left_app. cbn [fold_left]. rewrite Z.add_0_l.
    destruct (IH ltac:(lia)) as (L & O & P). clear IH.
    set (mask := fold_left (feather_step w h) (seqZ 0 (Z.of_nat k)) M) in *.
    destruct (pixel_of_index (Z.of_nat k) ltac:(lia)) as (x0 & y0 & Hb0 & E0).
    rewrite E0 in *.
    destruct (P x0 y0 Hb0) as [_ Hsame]. specialize (Hsame ltac:(lia)).
    destruct (feather_step_cases mask x0 y0 Hb0) as [[E Hno]|(E & Hz & Hbes)]; rewrite E;
      unfold MaskShapes.feathered in *; cbv zeta in *; unfold w, h in *.
    + split; [exact L|]. split; [exact O|].
      intros x y Hb. destruct (P x y Hb) as [Hlt Hge]. split; [|intros; apply Hge; lia].
      intros Hlt'. destruct (decide (idx x y = idx x0 y0)) as [Eq|Hne]; unfold w in *;
        [|apply Hlt; lia].
      apply (idx_inj imageData) in Eq; [|assumption..]. injection Eq as -> ->.
      right. split; [|exact Hsame].
      intros [Hz Hbes]. apply Hno; [congruence|].
      apply (beside_background_same mask (flooded imageData)); assumption.
    + split; [rewrite length_set; exact L|].
      assert (Hr : 0 <= idx x0 y0 < Z.of_nat (length mask)) by (eapply get_Some, Hz).
      split.
      * intros j. destruct (decide (index (width imageData) x0 y0 = j)) as [<-|Hne].
        -- rewrite get_set_eq by exact Hr. rewrite <- Hsame, Hz. split; discriminate.
        -- rewrite get_set_ne by exact Hne. apply O.
      * intros x y Hb. destruct (P x y Hb) as [Hlt Hge].
        destruct (decide (idx x y = idx x0 y0)) as [Eq|Hne]; unfold w in *.
        -- apply (idx_inj imageData) in Eq; [|assumption..]. injection Eq as -> ->.
           split; [|lia]. intros _. left.
           split; [congruence|]. split; [|apply get_set_eq, Hr].
           apply (beside_background_same mask (flooded imageData)); assumption.
        -- rewrite get_set_ne by congruence.
           split; [intros; apply Hlt; lia | intros; apply Hge; lia].
Qed.

(** The mask after the feathering pass. *)
Lemma backgroundMask_feathered :
  length (backgroundMask imageData) = length M /\
  forall x y, inb x y -> feathered (backgroundMask imageData) x y.
Proof.
  destruct flooded_reached as (Hlen & _ & _).
  rewrite backgroundMask_flooded.
  destruct (feather_prefix (length M) ltac:(lia)) as (L & _ & P).
  split; [exact L|]. intros x y Hb. apply (P x y Hb).
  pose proof (idx_range imageData x y Hb) as Hr. fold w h in Hr. lia.
Qed.

End AnyPicture.

(** *** The pass that applies the mask *)

Lemma apply_step_other mask data k i :
  k <> i -> alpha (apply_step mask data k) i = alpha data i.
Proof.
  intros Hne. unfold alpha.
  destruct (apply_step_cases mask data k) as [->|(a & v & _ & _ & ->)]; [reflexivity|].
  apply get_set_ne. lia.
Qed.

Lemma apply_steps_other mask idxs i : forall data,
  i ∉ idxs -> alpha (fold_left (apply_step mask) idxs data) i = alpha data i.
Proof.
  induction idxs as [|k rest IH]; intros data Hn; [reflexivity|].
  apply not_elem_of_cons in Hn as [Hk Hr].
  cbn [fold_left]. rewrite IH by exact Hr. apply apply_step_other. congruence.
Qed.

Lemma apply_step_at mask data i a :
  alpha data i = Some a ->
  alpha (apply_step mask data i) i
  = Some (match get mask i with Some 1 => 0 | Some 2 => a / 2 | _ => a end).
Proof.
  unfold alpha, apply_step. intros Ha. pose proof (get_Some _ _ _ Ha) as Hr.
  destruct (get mask i) as [[|p|p]|]; try exact Ha.
  destruct p as [[p|p|]|[p|p|]|]; try exact Ha.
  - rewrite Ha. apply get_set_eq, Hr.
  - apply get_set_eq, Hr.
Qed.

Lemma apply_pass mask data n i a :
  0 <= i < n -> alpha data i = Some a ->
  alpha (fold_left (apply_step mask) (seqZ 0 n) data) i
  = Some (match get mask i with Some 1 => 0 | Some 2 => a / 2 | _ => a end).
Proof.
  intros Hi Ha.
  replace n with (i + (1 + (n - i - 1))) by lia.
  rewrite seqZ_app, (seqZ_cons (0 + i)) by lia.
  rewrite fold_left_app. cbn [fold_left]. rewrite Z.add_0_l.
  rewrite apply_steps_other by (rewrite elem_of_seqZ; lia).
  apply apply_step_at.
  rewrite apply_steps_other by (rewrite elem_of_seqZ; lia). exact Ha.
Qed.


(** *** What the background removal does to a picture *)

Lemma fringe_beside imageData x y :
  wf_ImageData imageData ->
  beside_background (width imageData) (height imageData) (flooded imageData) x y
  <-> fringe imageData x y.
Proof.
  intros Hwf. destruct (flooded_reached imageData Hwf) as (_ & _ & Hr).
  split.
  - intros (nx & ny & Hn & Hi & Hm). exists nx, ny. split; [exact Hn|]. apply Hr; assumption.
  - intros (nx & ny & Hn & Hreach). exists nx, ny. split; [exact Hn|].
    pose proof (reached_inside imageData nx ny Hreach) as Hi.
    split; [exact Hi|]. apply Hr; assumption.
Qed.

(** The three kinds of pixels in the mask. *)
Lemma backgroundMask_cases imageData x y :
  wf_ImageData imageData ->
  inside (width imageData) (height imageData) x y ->
  let mark := get (backgroundMask imageData) (index (width imageData) x y) in
  (reached imageData x y /\ mark = Some 1) \/
  (~ reached imageData x y /\ fringe imageData x y /\ mark = Some 2) \/
  (~ reached imageData x y /\ ~ fringe imageData x y /\ mark = Some 0).
Proof.
  intros Hwf Hb mark. subst mark.
  destruct (flooded_reached imageData Hwf) as (Hlen & Hbin & Hr).
  destruct (backgroundMask_feathered imageData Hwf) as [_ Hf].
  specialize (Hf x y Hb). specialize (Hr x y Hb).
  pose proof (fringe_beside imageData x y Hwf) as Hfr.
  destruct (get_in_range (flooded imageData) (index (width imageData) x y)) as [v Hv].
  { rewrite Hlen. apply (idx_range imageData), Hb. }
  assert (Hv01 : v = 0 \/ v = 1).
  { unfold get in Hv. destruct (_ <? 0); [discriminate|].
    unfold binary in Hbin. rewrite Forall_lookup in Hbin. eapply Hbin, Hv. }
  unfold feathered in Hf. cbv zeta in Hf. rewrite Hv in *.
  destruct Hv01 as [-> | ->].
  - assert (Hnr : ~ reached imageData x y) by (intros H; apply Hr in H; discriminate).
    destruct Hf as [(_ & Hbes & Hm)|[Hno Hm]].
    + right. left. split; [exact Hnr|]. split; [apply Hfr, Hbes | exact Hm].
    + right. right. split; [exact Hnr|]. split; [|exact Hm].
      intros H. apply Hno. split; [reflexivity | apply Hfr, H].
  - left. split; [apply Hr; reflexivity|].
    destruct Hf as [(Hz & _)|[_ Hm]]; [discriminate | exact Hm].
Qed.


(** The alpha byte of a pixel of each kind. *)
Lemma alpha_cases imageData x y :
  wf_ImageData imageData ->
  inside (width imageData) (height imageData) x y ->
  let i := index (width imageData) x y in
  exists a, alpha (data imageData) i = Some a /\
    (reached imageData x y -> alpha (removeImageBackground imageData) i = Some 0) /\
    (~ reached imageData x y -> fringe imageData x y ->
       alpha (removeImageBackground imageData) i = Some (a / 2)) /\
    (~ reached imageData x y -> ~ fringe imageData x y ->
       alpha (removeImageBackground imageData) i = Some a).
Proof.
  intros Hwf Hb i.
  pose proof (idx_range imageData x y Hb) as Hi. fold i in Hi.
  pose proof (wf_length _ Hwf) as Hl.
  destruct (get_in_range (data imageData) (i * 4 + 3)) as [a Ha]; [lia|].
  exists a. split; [exact Ha|].
  destruct (flooded_reached imageData Hwf) as (Hlen & _ & _).
  destruct (backgroundMask_feathered imageData Hwf) as [HL _].
  assert (Hout : alpha (removeImageBackground imageData) i
                 = Some (match get (backgroundMask imageData) i with
                         | Some 1 => 0 | Some 2 => a / 2 | _ => a end)).
  { unfold removeImageBackground. apply apply_pass; [lia | exact Ha]. }
  rewrite Hout.
  destruct (backgroundMask_cases imageData x y Hwf Hb)
    as [[Hr Hm]|[(Hnr & Hf & Hm)|(Hnr & Hnf & Hm)]]; fold i in Hm; rewrite Hm;
    repeat split; intros; try reflexivity; contradiction.
Qed.

(** A pixel inside the border frame whose colour is not like the background
    is not reached. *)
Lemma unlike_not_reached imageData x y :
  ~ on_border (width imageData) (height imageData) x y ->
  ~ like_background imageData x y ->
  ~ reached imageData x y.
Proof.
  intros Hnb Hnl Hr. destruct Hr as [x y Hb|x y nx ny _ _ _ Hl]; contradiction.
Qed.

Lemma framed_3x3_centre_inside : inside (width framed_3x3) (height framed_3x3) 1 1.
Proof. unfold inside. simpl. lia. Qed.

Lemma framed_3x3_centre_unlike :
  ~ on_border (width framed_3x3) (height framed_3x3) 1 1 /\
  ~ like_background framed_3x3 1 1.
Proof.
  split.
  - unfold on_border. simpl. lia.
  - unfold like_background. vm_compute. discriminate.
Qed.

(** X19.  The mask [removeImageBackground] works with, for any picture: a
    pixel is marked 1 (background) exactly when the flood fill can reach it,
    that is when it lies on the border or is joined to the border by a chain
    of neighbours whose colour is within the tolerance of the edge colour; a
    pixel that is not reached is marked 2 (feathered edge) exactly when one
    of its four neighbours is reached, and 0 otherwise. *)
Theorem backgroundMask_reached imageData x y :
  wf_ImageData imageData ->
  inside (width imageData) (height imageData) x y ->
  let mark := get (backgroundMask imageData) (index (width imageData) x y) in
  (reached imageData x y /\ mark = Some 1) \/
  (~ reached imageData x y /\ fringe imageData x y /\ mark = Some 2) \/
  (~ reached imageData x y /\ ~ fringe imageData x y /\ mark = Some 0).
Proof. apply backgroundMask_cases. Qed.

Lemma backgroundMask_reached_witness :
  let mark := get (backgroundMask framed_3x3) (index (width framed_3x3) 1 1) in
  (reached framed_3x3 1 1 /\ mark = Some 1) \/
  (~ reached framed_3x3 1 1 /\ fringe framed_3x3 1 1 /\ mark = Some 2) \/
  (~ reached framed_3x3 1 1 /\ ~ fringe framed_3x3 1 1 /\ mark = Some 0).
Proof.
  exact (backgroundMask_reached framed_3x3 1 1 framed_3x3_wf framed_3x3_centre_inside).
Defined.

(** X20.  What [removeImageBackground] does to the alpha byte of a pixel, for
    any picture: it becomes 0 when the flood fill reaches the pixel, half of
    what it was (rounded down) when the pixel is not reached but a neighbour
    is, and stays as it was otherwise. *)
Theorem removeImageBackground_alpha imageData x y :
  wf_ImageData imageData ->
  inside (width imageData) (height imageData) x y ->
  let i := index (width imageData) x y in
  exists a, alpha (data imageData) i = Some a /\
    (reached imageData x y -> alpha (removeImageBackground imageData) i = Some 0) /\
    (~ reached imageData x y -> fringe imageData x y ->
       alpha (removeImageBackground imageData) i = Some (a / 2)) /\
    (~ reached imageData x y -> ~ fringe imageData x y ->
       alpha (removeImageBackground imageData) i = Some a).
Proof. apply alpha_cases. Qed.

Lemma removeImageBackground_alpha_witness :
  let i := index (width framed_3x3) 1 1 in
  exists a, alpha (data framed_3x3) i = Some a /\
    (reached framed_3x3 1 1 -> alpha (removeImageBackground framed_3x3) i = Some 0) /\
    (~ reached framed_3x3 1 1 -> fringe framed_3x3 1 1 ->
       alpha (removeImageBackground framed_3x3) i = Some (a / 2)) /\
    (~ reached framed_3x3 1 1 -> ~ fringe framed_3x3 1 1 ->
       alpha (removeImageBackground framed_3x3) i = Some a).
Proof.
  exact (removeImageBackground_alpha framed_3x3 1 1 framed_3x3_wf framed_3x3_centre_inside).
Defined.

(** X21.  Every pixel of the first and last row and column ends with alpha 0,
    whatever its colour: the flood fill starts from all of them. *)
Theorem removeImageBackground_clears_border imageData x y :
  wf_ImageData imageData ->
  on_border (width imageData) (height imageData) x y ->
  get (backgroundMask imageData) (index (width imageData) x y) = Some 1 /\
  alpha (removeImageBackground imageData) (index (width imageData) x y) = Some 0.
Proof.
  intros Hwf Hb. pose proof (reached_border imageData x y Hb) as Hr.
  destruct Hb as [Hb _]. split.
  - destruct (backgroundMask_cases imageData x y Hwf Hb)
      as [[_ Hm]|[(Hnr & _)|(Hnr & _)]]; [exact Hm | contradiction | contradiction].
  - destruct (alpha_cases imageData x y Hwf Hb) as (a & _ & H & _).
    apply H, Hr.
Qed.


Lemma removeImageBackground_clears_border_witness :
  on_border (width framed_3x3) (height framed_3x3) 2 1 /\
  get (backgroundMask framed_3x3) (index (width framed_3x3) 2 1) = Some 1 /\
  alpha (removeImageBackground framed_3x3) (index (width framed_3x3) 2 1) = Some 0.
Proof.
  assert (Hb : on_border (width framed_3x3) (height framed_3x3) 2 1)
    by (unfold on_border, inside; simpl; lia).
  split; [exact Hb|].
  exact (removeImageBackground_clears_border framed_3x3 2 1 framed_3x3_wf Hb).
Defined.

(** X22.  A pixel that is not on the border and whose colour is not within
    the tolerance of the edge colour is never marked as background: its
    alpha stays as it was, or is halved when the pixel touches the
    background, so it keeps at least half of its alpha. *)
Theorem removeImageBackground_keeps_foreground imageData x y :
  wf_ImageData imageData ->
  inside (width imageData) (height imageData) x y ->
  ~ on_border (width imageData) (height imageData) x y ->
  ~ like_background imageData x y ->
  let i := index (width imageData) x y in
  get (backgroundMask imageData) i <> Some 1 /\
  exists a, alpha (data imageData) i = Some a /\
    (alpha (removeImageBackground imageData) i = Some a \/
     alpha (removeImageBackground imageData) i = Some (a / 2)).
Proof.
  intros Hwf Hb Hnb Hnl i.
  pose proof (unlike_not_reached imageData x y Hnb Hnl) as Hnr.
  split.
  - destruct (backgroundMask_cases imageData x y Hwf Hb)
      as [[Hr _]|[(_ & _ & Hm)|(_ & _ & Hm)]]; [contradiction| |];
      fold i in Hm; rewrite Hm; discriminate.
  - destruct (alpha_cases imageData x y Hwf Hb) as (a & Ha & _ & H2 & H0).
    exists a. split; [exact Ha|].
    destruct (backgroundMask_cases imageData x y Hwf Hb)
      as [[Hr _]|[(_ & Hf & _)|(_ & Hnf & _)]]; [contradiction| |].
    + right. apply H2; assumption.
    + left. apply H0; assumption.
Qed.

Lemma removeImageBackground_keeps_foreground_witness :
  let i := index (width framed_3x3) 1 1 in
  get (backgroundMask framed_3x3) i <> Some 1 /\
  exists a, alpha (data framed_3x3) i = Some a /\
    (alpha (removeImageBackground framed_3x3) i = Some a \/
     alpha (removeImageBackground framed_3x3) i = Some (a / 2)).
Proof.
  exact (removeImageBackground_keeps_foreground framed_3x3 1 1 framed_3x3_wf
           framed_3x3_centre_inside (proj1 framed_3x3_centre_unlike)
           (proj2 framed_3x3_centre_unlike)).
Defined.

End MaskFacts.

(** ** The background colour *)

Module EdgeFacts.
Import FloodFill FloodFillFacts MaskShapes EdgeShapes.
Local Open Scope Z_scope.

Lemma occurrences_nil c : occurrences c [] = 0.
Proof. reflexivity. Qed.

Lemma occurrences_snoc c seen k :
  occurrences c (seen ++ [k]) = occurrences c seen + (if decide (k = c) then 1 else 0).
Proof.
  unfold occurrences. rewrite filter_app, length_app.
  destruct (decide (k = c)) as [E|Hne].
  - rewrite (filter_cons_True _ k []) by exact E. simpl. lia.
  - rewrite (filter_cons_False _ k []) by exact Hne. simpl. lia.
Qed.

Lemma occurrences_nonneg c seen : 0 <= occurrences c seen.
Proof. unfold occurrences. lia. Qed.

Lemma occurrences_pos c seen : 0 < occurrences c seen -> c ∈ seen.
Proof.
  unfold occurrences. intros H.
  destruct (filter (fun k => k = c) seen) as [|k rest] eqn:E; [simpl in H; lia|].
  assert (Hk : k ∈ filter (fun k => k = c) seen) by (rewrite E; apply list_elem_of_here).
  apply list_elem_of_filter in Hk as [-> Hin]. exact Hin.
Qed.

(** One turn of the loop keeps the counts right. *)
Lemma edge_step_counted data seen st i :
  counted seen st -> counted (seen ++ [sample data i]) (edge_step data st i).
Proof.
  intros [Hc Hm Hd Hn]. unfold edge_step. fold (sample data i).
  set (k := sample data i). cbv zeta.
  match goal with |- context [maxCount st <? ?n] => set (count := n) end.
  match goal with |- context [<[k := count]> ?m] => set (counts := <[k := count]> m) end.
  assert (Ecount : count = occurrences k seen + 1) by (unfold count; f_equal; apply Hc).
  assert (Esnoc : occurrences k (seen ++ [k]) = count).
  { rewrite occurrences_snoc, Ecount. destruct (decide (k = k)); [reflexivity | congruence]. }
  assert (Hcounts : forall c, default 0 (counts !! c) = occurrences c (seen ++ [k])).
  { intros c. unfold counts. destruct (decide (k = c)) as [<-|Hne].
    - rewrite lookup_insert_eq. symmetry. exact Esnoc.
    - rewrite lookup_insert_ne by exact Hne. rewrite occurrences_snoc.
      destruct (decide (k = c)); [congruence|]. rewrite Z.add_0_r. apply Hc. }
  destruct (maxCount st <? count) eqn:E.
  - apply Z.ltb_lt in E. split; cbn [colorCounts maxCount dominantColor].
    + exact Hcounts.
    + intros c. rewrite occurrences_snoc.
      destruct (decide (k = c)) as [<-|Hne]; [lia|].
      pose proof (Hm c). lia.
    + intros _. exact Esnoc.
    + intros H. destruct seen; discriminate H.
  - apply Z.ltb_ge in E. split; cbn [colorCounts maxCount dominantColor].
    + exact Hcounts.
    + intros c. rewrite occurrences_snoc.
      destruct (decide (k = c)) as [<-|Hne]; [lia|].
      pose proof (Hm c). lia.
    + intros _. destruct (decide (seen = [])) as [Es|Hne].
      * destruct (Hn Es) as [Hz _].
        pose proof (occurrences_nonneg k seen). lia.
      * rewrite occurrences_snoc, (Hd Hne).
        destruct (decide (k = dominantColor st)) as [Ek|_]; [|lia].
        exfalso. rewrite Ek, (Hd Hne) in Ecount. lia.
    + intros H. destruct seen; discriminate H.
Qed.

Lemma edge_loop_counted data samples : forall seen st,
  counted seen st ->
  counted (seen ++ map (sample data) samples) (edge_loop data samples st).
Proof.
  induction samples as [|i rest IH]; intros seen st H.
  - rewrite app_nil_r. exact H.
  - cbn [edge_loop fold_left map]. rewrite (cons_middle _ seen), app_assoc.
    apply IH, edge_step_counted, H.
Qed.

Lemma getEdgeColor_counted imageData :
  counted (edge_colours imageData)
    (edge_loop (data imageData) (samplePoints (width imageData) (height imageData))
       {| colorCounts := ∅; maxCount := 0;
          dominantColor := (Some 255, Some 255, Some 255) |}).
Proof.
  apply (edge_loop_counted _ _ []).
  split; cbn [colorCounts maxCount dominantColor].
  - intros c. rewrite lookup_empty. reflexivity.
  - intros c. rewrite occurrences_nil. lia.
  - congruence.
  - auto.
Qed.

(** Every sample of [getEdgeColor] is the first byte of a pixel of the
    border. *)
Lemma samplePoints_border imageData :
  wf_ImageData imageData ->
  Forall (fun s => exists x y, on_border (width imageData) (height imageData) x y /\
                               s = index (width imageData) x y * 4)
         (samplePoints (width imageData) (height imageData)).
Proof.
  intros Hwf. pose proof (wf_width _ Hwf) as Hw. pose proof (wf_height _ Hwf) as Hh.
  unfold samplePoints. repeat rewrite Forall_app. repeat split;
    apply Forall_forall; intros s Hs; apply list_elem_of_fmap in Hs as [i [-> Hi]];
    apply elem_of_seqZ in Hi; unfold on_border, inside, index.
  - exists i, 0. split; [lia | ring].
  - exists i, (height imageData - 1). split; [lia | ring].
  - exists 0, i. split; [lia | ring].
  - exists (width imageData - 1), i. split; [lia | ring].
Qed.

Lemma edge_colours_not_nil imageData : wf_ImageData imageData -> edge_colours imageData <> [].
Proof.
  intros Hwf. pose proof (wf_width _ Hwf) as Hw.
  unfold edge_colours, samplePoints. rewrite (seqZ_cons 0 (width imageData)) by lia.
  discriminate.
Qed.

(** X23.  [getEdgeColor] returns a colour that occurs most often among the
    colours sampled along the four edges (each corner is sampled twice): no
    colour is sampled more often.  When nothing is sampled it returns white;
    on a picture as [getImageData] returns it, it returns the colour of a
    pixel of the border. *)
Theorem getEdgeColor_most_frequent imageData :
  let colours := edge_colours imageData in
  (colours = [] -> getEdgeColor imageData = (Some 255, Some 255, Some 255)) /\
  (colours <> [] ->
     getEdgeColor imageData ∈ colours /\
     forall c, occurrences c colours <= occurrences (getEdgeColor imageData) colours) /\
  (wf_ImageData imageData ->
     colours <> [] /\
     exists x y, on_border (width imageData) (height imageData) x y /\
       getEdgeColor imageData = pixel (data imageData) (index (width imageData) x y)).
Proof.
  intros colours.
  destruct (getEdgeColor_counted imageData) as [_ Hm Hd Hn].
  fold colours in Hm, Hd, Hn.
  change (dominantColor (edge_loop _ _ _)) with (getEdgeColor imageData) in *.
  assert (Hin : colours <> [] -> getEdgeColor imageData ∈ colours).
  { intros Hne. specialize (Hd Hne). apply occurrences_pos. rewrite Hd.
    destruct colours as [|c0 rest]; [congruence|].
    pose proof (Hm c0) as H0. unfold occurrences in H0.
    rewrite (filter_cons_True _ c0) in H0 by reflexivity. simpl length in H0. lia. }
  split; [intros E; apply Hn, E|]. split.
  - intros Hne. split; [apply Hin, Hne|]. intros c. rewrite (Hd Hne). apply Hm.
  - intros Hwf. pose proof (edge_colours_not_nil imageData Hwf) as Hne.
    split; [exact Hne|]. specialize (Hin Hne).
    unfold colours, edge_colours in Hin. apply list_elem_of_fmap in Hin as [s [E Hs]].
    pose proof (samplePoints_border imageData Hwf) as Hb.
    rewrite Forall_forall in Hb. destruct (Hb s Hs) as (x & y & Hxy & ->).
    exists x, y. split; [exact Hxy | exact E].
Qed.

Lemma getEdgeColor_most_frequent_witness :
  exists x y, on_border (width framed_3x3) (height framed_3x3) x y /\
    getEdgeColor framed_3x3 = pixel (data framed_3x3) (index (width framed_3x3) x y).
Proof.
  exact (proj2 (proj2 (proj2 (getEdgeColor_most_frequent framed_3x3)) framed_3x3_wf)).
Defined.

End EdgeFacts.

(** ** The component and its worker *)

Module DropzoneFacts.
Import Geometry JSString FilenameUtils Host Scenario ImageWorker.
Import BatchShapes ProgressShapes FilenameFacts WorkerFacts NamingFacts BatchFacts.
Local Open Scope Z_scope.

Local Abbreviation or_512 := UploadDropzone.or_512.
Local Abbreviation posted_options := UploadDropzone.posted_options.
Local Abbreviation posted_images := UploadDropzone.posted_images.
Local Abbreviation overallProgress := UploadDropzone.overallProgress.
Local Abbreviation with_result := UploadDropzone.with_result.

(** *** The message posted to the worker *)

Lemma or_512_nonzero n : or_512 n <> 0.
Proof.
  unfold UploadDropzone.or_512.
  destruct (n =? 0) eqn:E; [discriminate | apply Z.eqb_neq, E].
Qed.

(** The worker does not change the format again. *)
Lemma posted_format s : effectiveFormat (posted_options s) = format (posted_options s).
Proof.
  unfold effectiveFormat, wants_removeBackground, UploadDropzone.posted_options.
  cbn [format opt_removeBackground default].
  destruct (UploadDropzone.removeBackground s), (UploadDropzone.format s); reflexivity.
Qed.

(** X24.  The options the component posts never ask for JPEG together with
    the removal of the background, and carry a quality exactly when the
    format is not PNG; a width or height of 0 in the state is sent as 512, so
    that every result image.worker.ts returns for them has the width and
    height of the state (512 for 0), both positive, and a name that ends
    with a dot and the format posted. *)
Theorem posted_options_results answers images s :
  let options := posted_options s in
  (UploadDropzone.removeBackground s = true -> format options <> jpeg) /\
  (quality options = None <-> format options = png) /\
  exists results,
    done_results (onmessage answers (posted_images images) options) = Some results /\
    Forall (fun r =>
              width r = or_512 (fst (UploadDropzone.resizeDimensions s)) /\
              height r = or_512 (snd (UploadDropzone.resizeDimensions s)) /\
              0 < width r /\ 0 < height r /\
              endsWith (js "." ++ format_string (format options)) (filename r) = true)
           results.
Proof.
  intros options. split; [|split].
  - intros Hr. subst options. unfold UploadDropzone.posted_options. cbn [format]. rewrite Hr.
    destruct (UploadDropzone.format s); discriminate.
  - subst options. unfold UploadDropzone.posted_options. cbn [format quality].
    destruct (UploadDropzone.removeBackground s), (UploadDropzone.format s); cbn;
      split; congruence.
  - destruct (ImageWorker_results_spec answers (posted_images images) options)
      as (results & E & _ & F).
    exists results. split; [exact E|].
    eapply Forall_impl; [exact F|]. cbn beta.
    intros r (Hext & _ & Hw & Hh & Hrs & _).
    destruct (Hrs _ eq_refl) as [Ew Eh]. cbn [resize_width resize_height] in Ew, Eh.
    pose proof (or_512_nonzero (fst (UploadDropzone.resizeDimensions s))).
    pose proof (or_512_nonzero (snd (UploadDropzone.resizeDimensions s))).
    subst options. rewrite posted_format in Hext.
    repeat split; try assumption; lia.
Qed.

(** *** The progress bar *)

Lemma running_progress_values totalCount ss : forall count,
  omap overallProgress (running_progress totalCount count ss)
  = map (fun k => UploadDropzone.percent k totalCount)
        (seqZ (count + 1) (Z.of_nat (length ss))).
Proof.
  induction ss as [|[i image] rest IH]; intros count; [reflexivity|].
  cbn [running_progress length].
  change (omap overallProgress (?m :: ?l))
    with (match overallProgress m with
          | Some v => v :: omap overallProgress l
          | None => omap overallProgress l
          end).
  cbn [UploadDropzone.overallProgress]. rewrite IH.
  rewrite (seqZ_cons (count + 1)) by lia. cbn [map].
  repeat f_equal; lia.
Qed.

(** The percentages of the batches up to [checked_batch] images, computed
    one by one. *)
Lemma percents_checked_batch :
  percents_checked checked_batch = true.
Proof. vm_compute. reflexivity. Qed.

Lemma percent_checked_upto k n :
  1 <= k <= n -> n <= checked_batch ->
  on_the_bar (UploadDropzone.percent k n) = true /\
  (full (UploadDropzone.percent k n) = true <-> k = n).
Proof.
  intros Hk Hn.
  pose proof percents_checked_batch as H. unfold percents_checked in H.
  rewrite forallb_forall in H.
  assert (Hin : List.In n (seqZ 1 checked_batch))
    by (apply list_elem_of_In, elem_of_seqZ; lia).
  specialize (H n Hin). rewrite forallb_forall in H.
  assert (Hik : List.In k (seqZ 1 n)) by (apply list_elem_of_In, elem_of_seqZ; lia).
  specialize (H k Hik). unfold percent_checked in H.
  apply andb_true_iff in H as [H1 H2]. split; [exact H1|].
  apply Bool.eqb_prop in H2. rewrite H2. apply Z.eqb_eq.
Qed.



(** *** The images after a batch *)

Lemma ImageWorker_successes_spec answers options images : forall i0 j e,
  (j, e) ∈ successes answers options i0 images <->
  (i0 <= j)%nat /\ images !! (j - i0)%nat = Some e /\ rendered answers options j e <> None.
Proof.
  induction images as [|image rest IH]; intros i0 j e.
  - cbn [successes]. rewrite elem_of_nil, lookup_nil.
    split; [tauto | intros (_ & H & _); discriminate].
  - cbn [successes].
    assert (Hrest : (j, e) ∈ successes answers options (S i0) rest <->
                    (i0 < j)%nat /\ (image :: rest) !! (j - i0)%nat = Some e /\
                    rendered answers options j e <> None).
    { rewrite IH. split.
      - intros (H1 & H2 & H3). split; [lia|]. split; [|exact H3].
        replace (j - i0)%nat with (S (j - S i0)) by lia. exact H2.
      - intros (H1 & H2 & H3). split; [lia|]. split; [|exact H3].
        replace (j - i0)%nat with (S (j - S i0)) in H2 by lia. exact H2. }
    destruct (rendered answers options i0 image) as [x|] eqn:Er.
    + rewrite elem_of_cons, Hrest. split.
      * intros [[= -> ->]|(H1 & H2 & H3)].
        -- split; [lia|]. rewrite Nat.sub_diag. split; [reflexivity | congruence].
        -- split; [lia | split; assumption].
      * intros (H1 & H2 & H3). destruct (decide (j = i0)) as [->|Hne].
        -- left. rewrite Nat.sub_diag in H2. injection H2 as ->. reflexivity.
        -- right. split; [lia | split; assumption].
    + rewrite Hrest. split.
      * intros (H1 & H2 & H3). split; [lia | split; assumption].
      * intros (H1 & H2 & H3). destruct (decide (j = i0)) as [->|Hne].
        -- rewrite Nat.sub_diag in H2. injection H2 as ->. congruence.
        -- split; [lia | split; assumption].
Qed.

(** Looking a result up by the id of an image of the batch finds the result
    of that image, when the ids of the batch differ from one another. *)
Lemma find_by_id answers options (batch : list ImageEntry) i e :
  NoDup (map id batch) -> batch !! i = Some e ->
  forall results ss,
    Forall2 (result_of answers options) results ss ->
    (forall j ej, (j, ej) ∈ ss -> batch !! j = Some ej) ->
    ((i, e) ∈ ss ->
       exists r, List.find (fun p => bool_decide (originalId p = id e)) results = Some r /\
                 result_of answers options r (i, e)) /\
    ((i, e) ∉ ss ->
       List.find (fun p => bool_decide (originalId p = id e)) results = None).
Proof.
  intros Hnd Hi results ss F. induction F as [|r [j ej] rs ss' Hr _ IH]; intros Hss.
  - split; [intros H; inversion H | reflexivity].
  - assert (Hj : batch !! j = Some ej) by (apply Hss, list_elem_of_here).
    assert (Hid : originalId r = id ej)
      by (destruct Hr as (? & ? & ? & ? & _ & H & _); exact H).
    destruct IH as [IH1 IH2]; [intros; apply Hss, list_elem_of_further; assumption|].
    cbn [List.find]. destruct (bool_decide (originalId r = id e)) eqn:Eb.
    + apply bool_decide_eq_true in Eb. rewrite Hid in Eb.
      assert (Eji : j = i).
      { eapply NoDup_lookup; [exact Hnd| |].
        - rewrite list_lookup_fmap, Hj. reflexivity.
        - rewrite list_lookup_fmap, Hi. cbn. f_equal. symmetry. exact Eb. }
      subst j. assert (ej = e) by congruence. subst ej.
      split; [intros _; exists r; split; [reflexivity | exact Hr]|].
      intros Hn. exfalso. apply Hn, list_elem_of_here.
    + apply bool_decide_eq_false in Eb.
      split.
      * intros Hin. apply elem_of_cons in Hin as [[= <- <-]|Hin]; [congruence|].
        apply IH1, Hin.
      * intros Hn. apply IH2. intros Hin. apply Hn, list_elem_of_further, Hin.
Qed.

Lemma endsWith_suffix p s : endsWith p s = true -> exists a, s = a ++ p.
Proof.
  unfold endsWith. intros H.
  assert (G : forall p' s', startsWith p' s' = true -> exists b, s' = p' ++ b).
  { clear. induction p' as [|c p' IH]; intros s' H; [exists s'; reflexivity|].
    destruct s' as [|x s']; [discriminate|]. simpl in H.
    apply andb_true_iff in H as [Hc H]. apply Ascii.eqb_eq in Hc. subst x.
    destruct (IH _ H) as [b ->]. exists b. reflexivity. }
  destruct (G _ _ H) as [b Hb]. exists (rev b).
  rewrite <- (rev_involutive s), Hb, rev_app_distr, rev_involutive. reflexivity.
Qed.

Lemma format_string_no_dot f : "."%char ∉ format_string f.
Proof. destruct f; absent. Qed.

(** The format shown for a processed image: the text after the last dot of
    its name. *)
Lemma pop_extension f name :
  endsWith (js "." ++ format_string f) name = true ->
  name <> [] /\ UploadDropzone.pop (split "." name) = Some (format_string f).
Proof.
  intros H. apply endsWith_suffix in H as [a ->]. split.
  - destruct a; discriminate.
  - change (a ++ js "." ++ format_string f) with (a ++ "."%char :: format_string f).
    rewrite split_at_sep, (split_no_sep _ _ (format_string_no_dot f)).
    unfold UploadDropzone.pop. apply last_snoc.
Qed.

(** X26.  What the component shows after a batch of image.worker.ts, when
    the ids of its images differ from one another: an image the worker
    returned a blob for carries that blob, its size, the width and height of
    the state (512 for 0), the format posted and a name that ends with it;
    an image the worker returned nothing for is as it was. *)
Theorem done_shows_results answers images s url_of :
  NoDup (map UploadDropzone.id images) ->
  let options := posted_options s in
  exists results,
    done_results (onmessage answers (posted_images images) options) = Some results /\
    forall i img, images !! i = Some img ->
      let img' := snd (with_result url_of results img) in
      match rendered answers options i
              {| file := UploadDropzone.originalFile img; id := UploadDropzone.id img |} with
      | Some (blob, canvas, fmt) =>
          UploadDropzone.id img' = UploadDropzone.id img /\
          UploadDropzone.originalFile img' = UploadDropzone.originalFile img /\
          UploadDropzone.originalPreview img' = UploadDropzone.originalPreview img /\
          UploadDropzone.processedBlob img' = Some blob /\
          UploadDropzone.currentPreview img' = url_of blob /\
          UploadDropzone.processedSize img' = Some (blob_size blob) /\
          UploadDropzone.processedWidth img'
            = Some (or_512 (fst (UploadDropzone.resizeDimensions s))) /\
          UploadDropzone.processedHeight img'
            = Some (or_512 (snd (UploadDropzone.resizeDimensions s))) /\
          UploadDropzone.processedFormat img' = Some (format_string (format options)) /\
          exists name, UploadDropzone.processedFileName img' = Some name /\
            endsWith (js "." ++ format_string (format options)) name = true
      | None => img' = img
      end.
Proof.
  intros Hnd options.
  set (batch := posted_images images).
  destruct (ImageWorker_onmessage_spec answers batch options)
    as (before & results & E & _ & F).
  exists results.
  split; [rewrite E; unfold done_results; rewrite last_snoc; reflexivity|].
  intros i img Hi img'.
  set (e := {| file := UploadDropzone.originalFile img; id := UploadDropzone.id img |}).
  assert (Hbatch : batch !! i = Some e).
  { unfold batch, UploadDropzone.posted_images. rewrite list_lookup_fmap, Hi. reflexivity. }
  assert (Hids : NoDup (map id batch)).
  { unfold batch, UploadDropzone.posted_images. rewrite map_map. exact Hnd. }
  destruct (find_by_id answers options batch i e Hids Hbatch results _ F) as [Hin Hout].
  { intros j ej Hj. apply ImageWorker_successes_spec in Hj as (_ & Hj & _).
    rewrite Nat.sub_0_r in Hj. exact Hj. }
  assert (Hss : (i, e) ∈ successes answers options 0 batch <->
                rendered answers options i e <> None).
  { rewrite ImageWorker_successes_spec, Nat.sub_0_r. split; [tauto|].
    intros H. split; [lia | split; assumption]. }
  subst img'. unfold UploadDropzone.with_result, UploadDropzone.find_result.
  change (UploadDropzone.id img) with (id e).
  destruct (rendered answers options i e) as [[[b cv] f]|] eqn:Er.
  - destruct Hin as (r & Hfind & Hr); [apply Hss; discriminate|].
    rewrite Hfind.
    destruct Hr as (canvas & fmt & now & index & Hrend & _ & Hw & Hh & Hsz & Hn).
    rewrite Er in Hrend. injection Hrend as Eb Ecv Ef. subst canvas fmt.
    pose proof (ImageWorker_rendered_inv _ _ _ _ _ _ _ Er) as (Hf & _ & _ & Hrs & _).
    destruct (Hrs _ eq_refl) as [Ew Eh]. cbn [resize_width resize_height] in Ew, Eh.
    assert (Hext : endsWith (js "." ++ format_string (format options)) (filename r) = true).
    { rewrite Hn, Hf. unfold options. rewrite posted_format.
      apply generateFileName_extension. }
    destruct (pop_extension _ _ Hext) as [Hne Hpop].
    destruct (decide (filename r = [])) as [E0|_]; [contradiction|].
    cbn [snd UploadDropzone.id UploadDropzone.originalFile UploadDropzone.originalPreview
         UploadDropzone.processedBlob UploadDropzone.currentPreview
         UploadDropzone.processedSize UploadDropzone.processedWidth
         UploadDropzone.processedHeight UploadDropzone.processedFormat
         UploadDropzone.processedFileName].
    rewrite Hsz, Hw, Hh, Ew, Eh, Hpop, <- Eb.
    split; [reflexivity|]. split; [reflexivity|]. split; [reflexivity|].
    split; [reflexivity|]. split; [reflexivity|]. split; [reflexivity|].
    split; [reflexivity|]. split; [reflexivity|]. split; [reflexivity|].
    exists (filename r). split; [reflexivity | exact Hext].
  - rewrite Hout; [reflexivity|]. intros H. apply Hss in H. congruence.
Qed.

Lemma done_shows_results_witness :
  NoDup (map UploadDropzone.id UploadDropzone.two_dropped) /\
  exists results,
    done_results (onmessage second_fails (posted_images UploadDropzone.two_dropped)
                            (posted_options UploadDropzone.defaultOptions))
    = Some results.
Proof.
  assert (H : NoDup (map UploadDropzone.id UploadDropzone.two_dropped))
    by (repeat constructor; rewrite ?elem_of_cons, elem_of_nil;
        intros H; repeat destruct H as [H|H]; try discriminate H; exact H).
  split; [exact H|].
  destruct (done_shows_results second_fails UploadDropzone.two_dropped
              UploadDropzone.defaultOptions (fun _ => js "blob:result") H)
    as (results & E & _).
  exists results. exact E.
Defined.

End DropzoneFacts.
